(** * mapillary-js input interpretation: TouchService and ScrollZoomHandler

    A shallow embedding of [src/viewer/TouchService.ts] and of the zoom
    computation of [ScrollZoomHandler._enable], with the properties of the
    gesture streams proved over it.

    - JavaScript numbers are IEEE 754 binary64 values: Rocq's primitive
      [float], whose operations are the same correctly rounded ones.
    - An RxJS observable derived from the DOM events of one element is a
      machine: a subscription state, created on [subscribe], and a
      [dispatch] function that hands one DOM event to the listeners of that
      subscription and returns what the observer receives.
    - [TouchService] is the composition of these machines, operator by
      operator, as the constructor composes the observables. *)

From Stdlib Require Import ZArith List Bool Lia.
From Stdlib Require Import Floats.
Import ListNotations.

Set Implicit Arguments.

(** ** JavaScript numbers *)

Module Js.

Definition number := float.
Bind Scope float_scope with number.

(** ToNumber of a property that may be [undefined]: [undefined] converts
    to NaN. *)
Definition ToNumber (v : option number) : number :=
  match v with
  | Some x => x
  | None => nan
  end.

(** [Math.min(a, b)]: NaN when either argument is NaN, and -0 is smaller
    than +0. *)
Definition Math_min (a b : number) : number :=
  if is_nan a || is_nan b then nan
  else if (a <? b)%float then a
  else if (b <? a)%float then b
  else if get_sign a then a else b.

(** [Math.max(a, b)]: NaN when either argument is NaN, and +0 is larger
    than -0. *)
Definition Math_max (a b : number) : number :=
  if is_nan a || is_nan b then nan
  else if (a <? b)%float then b
  else if (b <? a)%float then a
  else if get_sign a then b else a.

Definition Math_abs (x : number) : number := abs x.

Definition Math_sqrt (x : number) : number := sqrt x.

End Js.

Import Js.

(** ** DOM data: Touch, TouchEvent *)

Definition EventTarget := nat.

Module Touch.
Record Touch : Set := {
  identifier : Z;
  clientX : number;
  clientY : number;
  pageX : number;
  pageY : number;
  screenX : number;
  screenY : number;
  target : EventTarget
}.
End Touch.
Abbreviation Touch := Touch.Touch.

Inductive TouchEventType : Set :=
| touchstart
| touchmove
| touchend
| touchcancel.

Definition TouchEventType_eqb (a b : TouchEventType) : bool :=
  match a, b with
  | touchstart, touchstart
  | touchmove, touchmove
  | touchend, touchend
  | touchcancel, touchcancel => true
  | _, _ => false
  end.

Record TouchEvent : Set := {
  type : TouchEventType;
  touches : list Touch;
  targetTouches : list Touch
}.

(** ** TouchMove *)

Module TouchMove.

(** The fields copied from a [Touch] stay [undefined] ([None]) when the
    constructor is called without one. *)
Record TouchMove : Set := {
  movementX : number;
  movementY : number;
  identifier : option Z;
  clientX : option number;
  clientY : option number;
  pageX : option number;
  pageY : option number;
  screenX : option number;
  screenY : option number;
  target : option EventTarget
}.

(** [new TouchMove(touch?)] *)
Definition new (touch : option Touch) : TouchMove :=
  match touch with
  | None =>
      {| movementX := 0%float; movementY := 0%float;
         identifier := None;
         clientX := None; clientY := None;
         pageX := None; pageY := None;
         screenX := None; screenY := None;
         target := None |}
  | Some touch =>
      {| movementX := 0%float; movementY := 0%float;
         identifier := Some (Touch.identifier touch);
         clientX := Some (Touch.clientX touch);
         clientY := Some (Touch.clientY touch);
         pageX := Some (Touch.pageX touch);
         pageY := Some (Touch.pageY touch);
         screenX := Some (Touch.screenX touch);
         screenY := Some (Touch.screenY touch);
         target := Some (Touch.target touch) |}
  end.

(** The two assignments [current.movementX = ...; current.movementY = ...]. *)
Definition set_movement (current : TouchMove) (mx my : number) : TouchMove :=
  {| movementX := mx; movementY := my;
     identifier := identifier current;
     clientX := clientX current; clientY := clientY current;
     pageX := pageX current; pageY := pageY current;
     screenX := screenX current; screenY := screenY current;
     target := target current |}.

End TouchMove.
Abbreviation TouchMove := TouchMove.TouchMove.

(** ** IPinch *)

Module IPinch.
Record IPinch : Set := {
  changeX : number;
  changeY : number;
  clientX : number;
  clientY : number;
  distance : number;
  distanceChange : number;
  distanceX : number;
  distanceY : number;
  originalEvent : option TouchEvent;
  pageX : number;
  pageY : number;
  screenX : number;
  screenY : number;
  touch1 : option Touch;
  touch2 : option Touch
}.
End IPinch.
Abbreviation IPinch := IPinch.IPinch.

(** ** Observables over the DOM events of one element

    Every observable of [TouchService] is derived from the four touch event
    streams of one element, so a subscription is a state fed with the
    element's events one at a time, in the order the platform delivers
    them.  [dispatch] returns the values the observer receives during the
    dispatch of that event, in order, and what becomes of the subscription.

    A listener added while an event is being dispatched is not invoked for
    that event, and one removed is not invoked any more: an inner
    subscription made during a dispatch sees the following events only.
    None of the observables composed here emits at subscription time. *)

Inductive status (S : Type) : Type :=
| Active (s : S)
| Completed
| Errored.

Arguments Completed {S}.
Arguments Errored {S}.

Record Observable (T : Type) : Type := {
  subscription : Type;
  subscribe : subscription;
  dispatch : subscription -> TouchEvent -> list T * status subscription
}.

Definition status_map {S S' : Type} (f : S -> S') (st : status S) : status S' :=
  match st with
  | Active s => Active (f s)
  | Completed => Completed
  | Errored => Errored
  end.

(** The part of a composite subscription that is still subscribed. *)
Definition still {S : Type} (st : status S) : option S :=
  match st with
  | Active s => Some s
  | _ => None
  end.

Definition deliver {T : Type} (o : Observable T) (s : option (subscription o))
  (e : TouchEvent) : list T * status (subscription o) :=
  match s with
  | Some s => dispatch o s e
  | None => ([], Completed)
  end.

Declare Scope rx_scope.
Delimit Scope rx_scope with rx.
Notation "o |> f" := (f o) (at level 45, left associativity, only parsing) : rx_scope.
Open Scope rx_scope.

Module Rx.

(** [Observable.fromEvent(element, eventName)] *)
Definition fromEvent (eventName : TouchEventType) : Observable TouchEvent :=
  {| subscription := unit;
     subscribe := tt;
     dispatch := fun _ e =>
       (if TouchEventType_eqb (type e) eventName then [e] else [], Active tt) |}.

Definition filter {T : Type} (predicate : T -> bool) (o : Observable T) : Observable T :=
  {| subscription := subscription o;
     subscribe := subscribe o;
     dispatch := fun s e =>
       let (vs, st) := dispatch o s e in (List.filter predicate vs, st) |}.

Definition map {A B : Type} (project : A -> B) (o : Observable A) : Observable B :=
  {| subscription := subscription o;
     subscribe := subscribe o;
     dispatch := fun s e =>
       let (vs, st) := dispatch o s e in (List.map project vs, st) |}.

(** One pass of the accumulator over the values of one dispatch; the
    accumulator returns [None] when the call throws, which ends the pass. *)
Fixpoint scan_values {A B : Type} (accumulator : B -> A -> option B) (acc : B)
  (vs : list A) : list B * option B :=
  match vs with
  | [] => ([], Some acc)
  | v :: vs =>
      match accumulator acc v with
      | None => ([], None)
      | Some acc' =>
          let (out, r) := scan_values accumulator acc' vs in (acc' :: out, r)
      end
  end.

(** [scan(accumulator, seed)]: the seed is not emitted; an exception in the
    accumulator is sent downstream as an error. *)
Definition scan {A B : Type} (accumulator : B -> A -> option B) (seed : B)
  (o : Observable A) : Observable B :=
  {| subscription := (subscription o * B)%type;
     subscribe := (subscribe o, seed);
     dispatch := fun '(s, acc) e =>
       let (vs, st) := dispatch o s e in
       match scan_values accumulator acc vs with
       | (out, None) => (out, Errored)
       | (out, Some acc') => (out, status_map (fun s' => (s', acc')) st)
       end |}.

Definition skip {T : Type} (count : nat) (o : Observable T) : Observable T :=
  {| subscription := (subscription o * nat)%type;
     subscribe := (subscribe o, count);
     dispatch := fun '(s, n) e =>
       let (vs, st) := dispatch o s e in
       (skipn n vs, status_map (fun s' => (s', n - length vs)) st) |}.

(** [take(count)] for a positive count: completes with the count-th value. *)
Definition take {T : Type} (count : nat) (o : Observable T) : Observable T :=
  {| subscription := (subscription o * nat)%type;
     subscribe := (subscribe o, count);
     dispatch := fun '(s, n) e =>
       let (vs, st) := dispatch o s e in
       if n <=? length vs then (firstn n vs, Completed)
       else (vs, status_map (fun s' => (s', n - length vs)) st) |}.

(** [first()] on a source that does not complete empty. *)
Definition first {T : Type} (o : Observable T) : Observable T := take 1 o.

(** [Observable.merge(a, b)]; [Observable.merge(a, b, c)] is
    [merge a (merge b c)]. *)
Definition merge {T : Type} (a b : Observable T) : Observable T :=
  {| subscription := (option (subscription a) * option (subscription b))%type;
     subscribe := (Some (subscribe a), Some (subscribe b));
     dispatch := fun '(sa, sb) e =>
       let (va, sta) := deliver a sa e in
       match sta with
       | Errored => (va, Errored)
       | _ =>
           let (vb, stb) := deliver b sb e in
           match stb with
           | Errored => (va ++ vb, Errored)
           | _ =>
               match still sta, still stb with
               | None, None => (va ++ vb, Completed)
               | sa', sb' => (va ++ vb, Active (sa', sb'))
               end
           end
       end |}.

(** [takeUntil(notifier)]: the notifier is subscribed first; its first
    value completes the result. *)
Definition takeUntil {T N : Type} (notifier : Observable N) (o : Observable T)
  : Observable T :=
  {| subscription := (option (subscription notifier) * subscription o)%type;
     subscribe := (Some (subscribe notifier), subscribe o);
     dispatch := fun '(sn, s) e =>
       let (ns, stn) := deliver notifier sn e in
       match stn, ns with
       | Errored, _ => ([], Errored)
       | _, _ :: _ => ([], Completed)
       | _, [] =>
           let (vs, st) := dispatch o s e in
           (vs, status_map (fun s' => (still stn, s')) st)
       end |}.

Section Flattening.

Variables (A B : Type) (project : A -> Observable B).

(** A live inner subscription, with the outer value it was projected from. *)
Definition inner : Type := { a : A & subscription (project a) }.

Definition subscribe_inner (a : A) : inner := existT _ a (subscribe (project a)).

(** The event is handed to every live inner subscription, oldest first;
    [None] when one of them errors. *)
Fixpoint dispatch_inners (inners : list inner) (e : TouchEvent)
  : list B * option (list inner) :=
  match inners with
  | [] => ([], Some [])
  | existT _ a s :: rest =>
      let (vs, st) := dispatch (project a) s e in
      match st with
      | Errored => (vs, None)
      | _ =>
          let (ws, r) := dispatch_inners rest e in
          (vs ++ ws,
           match r, st with
           | None, _ => None
           | Some rest', Active s' => Some (existT _ a s' :: rest')
           | Some rest', _ => Some rest'
           end)
      end
  end.

(** [mergeMap(project)]: the outer listener was added before those of the
    inner subscriptions and runs first; the inner subscriptions it creates
    do not see the current event. *)
Definition mergeMap (o : Observable A) : Observable B :=
  {| subscription := (option (subscription o) * list inner)%type;
     subscribe := (Some (subscribe o), []);
     dispatch := fun '(so, inners) e =>
       let (xs, sto) := deliver o so e in
       match sto with
       | Errored => ([], Errored)
       | _ =>
           match dispatch_inners inners e with
           | (out, None) => (out, Errored)
           | (out, Some inners') =>
               match still sto, inners' ++ List.map subscribe_inner xs with
               | None, [] => (out, Completed)
               | so', all => (out, Active (so', all))
               end
           end
       end |}.

(** [switchMap(project)]: an outer value unsubscribes the current inner
    subscription before it could see the event, and subscribes a new one. *)
Definition switchMap (o : Observable A) : Observable B :=
  {| subscription := (option (subscription o) * option inner)%type;
     subscribe := (Some (subscribe o), None);
     dispatch := fun '(so, current) e =>
       let (xs, sto) := deliver o so e in
       match sto with
       | Errored => ([], Errored)
       | _ =>
           match rev xs with
           | a :: _ => ([], Active (still sto, Some (subscribe_inner a)))
           | [] =>
               match current with
               | None =>
                   match still sto with
                   | None => ([], Completed)
                   | so' => ([], Active (so', None))
                   end
               | Some (existT _ a s) =>
                   let (vs, st) := dispatch (project a) s e in
                   match st, still sto with
                   | Errored, _ => (vs, Errored)
                   | Active s', so' => (vs, Active (so', Some (existT _ a s')))
                   | Completed, None => (vs, Completed)
                   | Completed, so' => (vs, Active (so', None))
                   end
               end
           end
       end |}.

End Flattening.

End Rx.

(** *** Running a subscription over a history of events *)

(** The event reaches a subscription that may already have ended. *)
Definition on {T : Type} (o : Observable T) (st : status (subscription o))
  (e : TouchEvent) : list T * status (subscription o) :=
  match st with
  | Active s => dispatch o s e
  | Completed => ([], Completed)
  | Errored => ([], Errored)
  end.

(** The subscription made before the first event of [es], after [es]. *)
Definition after {T : Type} (o : Observable T) (es : list TouchEvent)
  : status (subscription o) :=
  fold_left (fun st e => snd (on o st e)) es (Active (subscribe o)).

(** What the observer receives during the dispatch of [e], after [es]. *)
Definition emitted {T : Type} (o : Observable T) (es : list TouchEvent)
  (e : TouchEvent) : list T :=
  fst (on o (after o es) e).

(** ** TouchService

    The constructor of [TouchService], observable by observable, under the
    names of the source with the final [$] written ['].  The library is
    RxJS 5, whose operators are the machines of [Rx]. *)

Module TouchService.

(** An operation pushed into one of the two operation subjects: a closure
    over the event, applied to the previous value of the fold.  [None]
    stands for the TypeError raised on reading a property of
    [te.touches[i]] when that touch is [undefined]. *)
Definition ITouchMoveOperation : Type := TouchMove -> option TouchMove.
Definition IPinchOperation : Type := IPinch -> option IPinch.

(** [te.touches.length === 1 && te.targetTouches.length === 1] *)
Definition oneTouch (te : TouchEvent) : bool :=
  (length (touches te) =? 1) && (length (targetTouches te) =? 1).

(** [te.touches.length === 2 && te.targetTouches.length === 2] *)
Definition twoTouches (te : TouchEvent) : bool :=
  (length (touches te) =? 2) && (length (targetTouches te) =? 2).

Definition _touchStart' : Observable TouchEvent := Rx.fromEvent touchstart.
Definition _touchMove' : Observable TouchEvent := Rx.fromEvent touchmove.
Definition _touchEnd' : Observable TouchEvent := Rx.fromEvent touchend.
Definition _touchCancel' : Observable TouchEvent := Rx.fromEvent touchcancel.

(** The body of the closure mapped over the single-touch move events. *)
Definition singleTouchMoveOperation (te : TouchEvent) : ITouchMoveOperation :=
  fun previous =>
    match nth_error (touches te) 0 with
    | None => None
    | Some touch =>
        let current := TouchMove.new (Some touch) in
        Some (TouchMove.set_movement current
                (Touch.pageX touch - ToNumber (TouchMove.pageX previous))%float
                (Touch.pageY touch - ToNumber (TouchMove.pageY previous))%float)
    end.

(** The subject [_singleTouchMoveOperation$] is subscribed, in the
    constructor, to the filtered and mapped move events; a subject keeps no
    value, so observing it is observing that pipeline from then on. *)
Definition _singleTouchMoveOperation' : Observable ITouchMoveOperation :=
  _touchMove'
  |> Rx.filter oneTouch
  |> Rx.map singleTouchMoveOperation.

(** Not shared: every subscription runs its own fold from the seed. *)
Definition _singleTouchMove' : Observable TouchMove :=
  _singleTouchMoveOperation'
  |> Rx.scan (fun touch operation => operation touch) (TouchMove.new None).

Definition singleTouchStart' : Observable TouchEvent :=
  Rx.merge _touchStart' (Rx.merge _touchEnd' _touchCancel')
  |> Rx.filter oneTouch.

Definition multipleTouchStart' : Observable TouchEvent :=
  Rx.merge _touchStart' (Rx.merge _touchEnd' _touchCancel')
  |> Rx.filter (fun te => 1 <=? length (touches te)).

Definition touchStop' : Observable TouchEvent :=
  Rx.merge _touchEnd' _touchCancel'
  |> Rx.filter (fun te => length (touches te) =? 0).

Definition _singleTouchMoveStart' : Observable TouchMove :=
  singleTouchStart'
  |> Rx.mergeMap (fun _ : TouchEvent =>
       _singleTouchMove'
       |> Rx.takeUntil (Rx.merge touchStop' multipleTouchStart')
       |> Rx.take 1).

Definition _singleTouchMoveEnd' : Observable TouchEvent :=
  singleTouchStart'
  |> Rx.mergeMap (fun _ : TouchEvent =>
       Rx.merge touchStop' multipleTouchStart'
       |> Rx.first).

Definition _singleTouch' : Observable TouchMove :=
  singleTouchStart'
  |> Rx.switchMap (fun _ : TouchEvent =>
       _singleTouchMove'
       |> Rx.skip 1
       |> Rx.takeUntil (Rx.merge multipleTouchStart' touchStop')).

Definition touchesChanged' : Observable TouchEvent :=
  Rx.merge _touchStart' (Rx.merge _touchEnd' _touchCancel').

Definition _pinchStart' : Observable TouchEvent :=
  touchesChanged' |> Rx.filter twoTouches.

Definition _pinchEnd' : Observable TouchEvent :=
  touchesChanged'
  |> Rx.filter (fun te =>
       negb (length (touches te) =? 2) || negb (length (targetTouches te) =? 2)).

(** The seed of the pinch fold. *)
Definition pinchSeed : IPinch :=
  {| IPinch.changeX := 0%float;
     IPinch.changeY := 0%float;
     IPinch.clientX := 0%float;
     IPinch.clientY := 0%float;
     IPinch.distance := 0%float;
     IPinch.distanceChange := 0%float;
     IPinch.distanceX := 0%float;
     IPinch.distanceY := 0%float;
     IPinch.originalEvent := None;
     IPinch.pageX := 0%float;
     IPinch.pageY := 0%float;
     IPinch.screenX := 0%float;
     IPinch.screenY := 0%float;
     IPinch.touch1 := None;
     IPinch.touch2 := None |}.

(** The body of the closure mapped over the two-touch move events. *)
Definition pinchOperation (te : TouchEvent) : IPinchOperation :=
  fun previous =>
    match nth_error (touches te) 0, nth_error (touches te) 1 with
    | Some touch1, Some touch2 =>
        let minX := Math_min (Touch.clientX touch1) (Touch.clientX touch2) in
        let maxX := Math_max (Touch.clientX touch1) (Touch.clientX touch2) in
        let minY := Math_min (Touch.clientY touch1) (Touch.clientY touch2) in
        let maxY := Math_max (Touch.clientY touch1) (Touch.clientY touch2) in
        let centerClientX := (minX + (maxX - minX) / 2)%float in
        let centerClientY := (minY + (maxY - minY) / 2)%float in
        let centerPageX := (centerClientX + Touch.pageX touch1 - Touch.clientX touch1)%float in
        let centerPageY := (centerClientY + Touch.pageY touch1 - Touch.clientY touch1)%float in
        let centerScreenX := (centerClientX + Touch.screenX touch1 - Touch.clientX touch1)%float in
        let centerScreenY := (centerClientY + Touch.screenY touch1 - Touch.clientY touch1)%float in
        let distanceX := Math_abs (Touch.clientX touch1 - Touch.clientX touch2)%float in
        let distanceY := Math_abs (Touch.clientY touch1 - Touch.clientY touch2)%float in
        let distance := Math_sqrt (distanceX * distanceX + distanceY * distanceY)%float in
        let distanceChange := (distance - IPinch.distance previous)%float in
        let changeX := (distanceX - IPinch.distanceX previous)%float in
        let changeY := (distanceY - IPinch.distanceY previous)%float in
        Some {| IPinch.changeX := changeX;
                IPinch.changeY := changeY;
                IPinch.clientX := centerClientX;
                IPinch.clientY := centerClientY;
                IPinch.distance := distance;
                IPinch.distanceChange := distanceChange;
                IPinch.distanceX := distanceX;
                IPinch.distanceY := distanceY;
                IPinch.originalEvent := Some te;
                IPinch.pageX := centerPageX;
                IPinch.pageY := centerPageY;
                IPinch.screenX := centerScreenX;
                IPinch.screenY := centerScreenY;
                IPinch.touch1 := Some touch1;
                IPinch.touch2 := Some touch2 |}
    | _, _ => None
    end.

(** The subject [_pinchOperation$], fed as [_singleTouchMoveOperation$] is. *)
Definition _pinchOperation' : Observable IPinchOperation :=
  _touchMove'
  |> Rx.filter twoTouches
  |> Rx.map pinchOperation.

Definition _pinch' : Observable IPinch :=
  _pinchOperation'
  |> Rx.scan (fun pinch operation => operation pinch) pinchSeed.

Definition _pinchChange' : Observable IPinch :=
  _pinchStart'
  |> Rx.switchMap (fun _ : TouchEvent =>
       _pinch'
       |> Rx.skip 1
       |> Rx.takeUntil _pinchEnd').

(** The public getters. *)
Definition touchStart' := _touchStart'.
Definition touchMove' := _touchMove'.
Definition touchEnd' := _touchEnd'.
Definition touchCancel' := _touchCancel'.
Definition singleTouchMoveStart' := _singleTouchMoveStart'.
Definition singleTouchMove' := _singleTouch'.
Definition singleTouchMoveEnd' := _singleTouchMoveEnd'.
Definition pinch' := _pinchChange'.
Definition pinchStart' := _pinchStart'.
Definition pinchEnd' := _pinchEnd'.

End TouchService.

(** ** The activation flag: [_activeSubject$] and [_active$]

    [_activeSubject$] is a [BehaviorSubject] holding the flag, and
    [_active$] is that subject through [distinctUntilChanged()], multicast
    by [publishReplay(1).refCount()]: one shared connection to the subject,
    made when the first observer subscribes, whose values are kept in a
    replay buffer of size one and handed to every observer.  Observers stay
    subscribed. *)

Module Activation.

Record State : Set := {
  (** the value held by the [BehaviorSubject] *)
  value : bool;
  (** [None] before the connection is made; once connected, the key last
      let through by [distinctUntilChanged] *)
  connection : option (option bool);
  (** the buffer of the [ReplaySubject] *)
  buffer : option bool;
  (** for each observer of [_active$], the notifications it has received,
      oldest first *)
  observers : list (list bool)
}.

(** [new BehaviorSubject<boolean>(false)] *)
Definition init : State :=
  {| value := false; connection := None; buffer := None; observers := [] |}.

(** A value reaches the [ReplaySubject]: buffered, and sent to everyone. *)
Definition multicast (v : bool) (s : State) : State :=
  {| value := value s;
     connection := connection s;
     buffer := Some v;
     observers := List.map (fun received => received ++ [v]) (observers s) |}.

(** A value of the subject reaches the connection's
    [distinctUntilChanged]. *)
Definition distinctUntilChanged (v : bool) (s : State) : State :=
  match connection s with
  | None => s
  | Some key =>
      if match key with Some k => Bool.eqb k v | None => false end
      then s
      else multicast v {| value := value s;
                          connection := Some (Some v);
                          buffer := buffer s;
                          observers := observers s |}
  end.

(** [activate$.next(v)] *)
Definition next (v : bool) (s : State) : State :=
  distinctUntilChanged v
    {| value := v;
       connection := connection s;
       buffer := buffer s;
       observers := observers s |}.

(** [active$.subscribe(observer)]: the observer is handed the buffer, and
    the first one makes the connection, on which the subject emits the
    value it holds. *)
Definition subscribe (s : State) : State :=
  let replayed := match buffer s with Some v => [v] | None => [] end in
  let s' := {| value := value s;
               connection := connection s;
               buffer := buffer s;
               observers := observers s ++ [replayed] |} in
  match connection s with
  | Some _ => s'
  | None =>
      distinctUntilChanged (value s)
        {| value := value s';
           connection := Some None;
           buffer := buffer s';
           observers := observers s' |}
  end.

Inductive Call : Set :=
| Next (v : bool)
| Subscribe.

Definition call (s : State) (c : Call) : State :=
  match c with
  | Next v => next v s
  | Subscribe => subscribe s
  end.

Definition run (s : State) (cs : list Call) : State := fold_left call cs s.

(** No two successive notifications are equal. *)
Fixpoint distinct (received : list bool) : bool :=
  match received with
  | a :: (b :: _) as rest => negb (Bool.eqb a b) && distinct rest
  | _ => true
  end.

(** What holds of every state the calls lead to: before the connection
    nobody observes and nothing is buffered; once connected, the key and the
    buffer are the value of the subject, which is also the last notification
    of every observer. *)
Definition consistent (s : State) : Prop :=
  match connection s with
  | None => observers s = [] /\ buffer s = None
  | Some key =>
      key = Some (value s)
      /\ buffer s = Some (value s)
      /\ Forall (fun received =>
                   distinct received = true
                   /\ exists earlier, received = earlier ++ [value s])
                (observers s)
  end.

End Activation.

(** ** ScrollZoomHandler: the zoom forwarded to the state service *)

Module ScrollZoomHandler.

Record WheelEvent : Set := {
  deltaY : number;
  (** 0 is pixel, 1 is line, 2 is page *)
  deltaMode : N
}.

(** The arguments of one call of [stateService.zoomIn]. *)
Record ZoomIn (Basic : Type) : Type := {
  zoom : number;
  reference : Basic
}.

Section Subscriber.

(** The collaborators of the subscriber: the viewport coordinates, the
    render camera and the transform, of which only the interfaces are
    used. *)
Variables (HTMLElement Perspective Transform Vector3 Basic : Type).
Variable offsetWidth : HTMLElement -> number.
Variable offsetHeight : HTMLElement -> number.
Variable canvasPosition : WheelEvent -> HTMLElement -> number * number.
Variable unprojectFromCanvas :
  number -> number -> number -> number -> Perspective -> Vector3.
Variable projectBasic : Transform -> Vector3 -> Basic.

(** [deltaY] after the two tests on [event.deltaMode]. *)
Definition normalizedDeltaY (event : WheelEvent) : number :=
  let deltaY := deltaY event in
  if (deltaMode event =? 1)%N then (40 * deltaY)%float
  else if (deltaMode event =? 2)%N then (800 * deltaY)%float
  else deltaY.

(** The subscriber of the zoom subscription, for one wheel event that
    passed the filters, with the latest render camera and transform. *)
Definition subscriber (element : HTMLElement) (event : WheelEvent)
  (perspective : Perspective) (transform : Transform) : ZoomIn Basic :=
  let canvasWidth := offsetWidth element in
  let canvasHeight := offsetHeight element in
  let (canvasX, canvasY) := canvasPosition event element in
  let unprojected :=
    unprojectFromCanvas canvasX canvasY canvasWidth canvasHeight perspective in
  let reference := projectBasic transform unprojected in
  let deltaY := normalizedDeltaY event in
  let zoom := (-3 * deltaY / canvasHeight)%float in
  {| zoom := zoom; reference := reference |}.

End Subscriber.

End ScrollZoomHandler.

(** ** ScrollZoomHandler: the two subscriptions of [_enable]

    [_enable] subscribes twice and keeps the two subscriptions in fields;
    [_disable] ends the subscriptions the fields hold and sets the fields to
    [null].  A subscription is named by a number; the handler is modelled
    with the subscriptions that are live: those of the first kind, whose
    observer calls [preventDefault], and those of the second kind, each with
    the values its two [withLatestFrom] hold.

    The streams come from services that are not part of these files.  A
    wheel event reaches every live subscription of the first kind;
    [filtered$] passes it on to those of the second kind or does not, which
    the event is given with ([claimed]).  What the three other streams give
    an observer when it subscribes, if anything, is given to [_enable]. *)

Module ScrollZoomSubscriptions.

Import ScrollZoomHandler.

(** Of a node, a current state and a frame, the members the filter reads. *)
Record Node : Set := { fullPano : bool }.

Record ICurrentState : Set := {
  currentNode : Node;
  nodesAhead : number
}.

Record IFrame : Set := { state : ICurrentState }.

(** What a wheel event makes the handler do: the number of calls of
    [event.preventDefault], and the calls of [stateService.zoomIn]. *)
Record Effects (Basic : Type) : Type := {
  preventDefault : nat;
  zoomIn : list (ZoomIn Basic)
}.

Section Handler.

Variables (HTMLElement Perspective RenderCamera Transform Vector3 Basic : Type).
Variable offsetWidth : HTMLElement -> number.
Variable offsetHeight : HTMLElement -> number.
Variable canvasPosition : WheelEvent -> HTMLElement -> number * number.
Variable unprojectFromCanvas :
  number -> number -> number -> number -> Perspective -> Vector3.
Variable projectBasic : Transform -> Vector3 -> Basic.
Variable perspective : RenderCamera -> Perspective.

(** [this._container.element] *)
Variable element : HTMLElement.

(** The latest value of [currentState$], of [renderCamera$] and of
    [currentTransform$] that a subscription of the second kind has seen. *)
Record Latest : Type := {
  frame : option IFrame;
  render : option RenderCamera;
  transform : option Transform
}.

Record Handler : Type := {
  (** the two fields; [None] is [undefined] or [null] *)
  _preventDefaultSubscription : option nat;
  _zoomSubscription : option nat;
  (** the live subscriptions *)
  mouseWheelObservers : list nat;
  zoomObservers : list (nat * Latest);
  (** the number of subscriptions made so far, which names the next *)
  subscriptions : nat
}.

(** A handler on which [_enable] has never been called. *)
Definition created : Handler :=
  {| _preventDefaultSubscription := None;
     _zoomSubscription := None;
     mouseWheelObservers := [];
     zoomObservers := [];
     subscriptions := 0 |}.

Definition _enable (f : option IFrame) (r : option RenderCamera) (t : option Transform)
  (h : Handler) : Handler :=
  let prevent := subscriptions h in
  let zoom := S prevent in
  {| _preventDefaultSubscription := Some prevent;
     _zoomSubscription := Some zoom;
     mouseWheelObservers := mouseWheelObservers h ++ [prevent];
     zoomObservers :=
       zoomObservers h ++ [(zoom, {| frame := f; render := r; transform := t |})];
     subscriptions := S zoom |}.

(** [_disable]; the boolean is [true] when it throws a [TypeError], for
    calling [unsubscribe] on a field that is [undefined] or [null], and
    what it did before stays done. *)
Definition _disable (h : Handler) : Handler * bool :=
  match _preventDefaultSubscription h with
  | None => (h, true)
  | Some prevent =>
      let live := filter (fun n => negb (n =? prevent)) (mouseWheelObservers h) in
      match _zoomSubscription h with
      | None =>
          ({| _preventDefaultSubscription := _preventDefaultSubscription h;
              _zoomSubscription := None;
              mouseWheelObservers := live;
              zoomObservers := zoomObservers h;
              subscriptions := subscriptions h |}, true)
      | Some zoom =>
          ({| _preventDefaultSubscription := None;
              _zoomSubscription := None;
              mouseWheelObservers := live;
              zoomObservers :=
                filter (fun o => negb (fst o =? zoom)) (zoomObservers h);
              subscriptions := subscriptions h |}, false)
      end
  end.

(** The test of the filter. *)
Definition passes (f : IFrame) : bool :=
  fullPano (currentNode (state f)) || (nodesAhead (state f) <? 1)%float.

(** A wheel event that [filtered$] has passed on, through one subscription
    of the second kind: both [withLatestFrom] emit only once each of their
    other streams has given a value. *)
Definition zoomed (event : WheelEvent) (l : Latest) : list (ZoomIn Basic) :=
  match frame l with
  | Some f =>
      if passes f
      then match render l, transform l with
           | Some r, Some t =>
               [subscriber offsetWidth offsetHeight canvasPosition
                  unprojectFromCanvas projectBasic element event (perspective r) t]
           | _, _ => []
           end
      else []
  | None => []
  end.

(** A wheel event. *)
Definition mouseWheel (event : WheelEvent) (claimed : bool) (h : Handler) : Effects Basic :=
  {| preventDefault := length (mouseWheelObservers h);
     zoomIn :=
       if claimed then flat_map (fun o => zoomed event (snd o)) (zoomObservers h)
       else [] |}.

Definition see (update : Latest -> Latest) (h : Handler) : Handler :=
  {| _preventDefaultSubscription := _preventDefaultSubscription h;
     _zoomSubscription := _zoomSubscription h;
     mouseWheelObservers := mouseWheelObservers h;
     zoomObservers := List.map (fun o => (fst o, update (snd o))) (zoomObservers h);
     subscriptions := subscriptions h |}.

(** A value of [currentState$], of [renderCamera$], of [currentTransform$]. *)
Definition currentState (f : IFrame) : Handler -> Handler :=
  see (fun l => {| frame := Some f; render := render l; transform := transform l |}).

Definition renderCamera (r : RenderCamera) : Handler -> Handler :=
  see (fun l => {| frame := frame l; render := Some r; transform := transform l |}).

Definition currentTransform (t : Transform) : Handler -> Handler :=
  see (fun l => {| frame := frame l; render := render l; transform := Some t |}).

(** What happens to a handler, one after the other. *)
Inductive Input : Type :=
| MouseWheel (event : WheelEvent) (claimed : bool)
| CurrentState (f : IFrame)
| RenderCamera' (r : RenderCamera)
| CurrentTransform (t : Transform)
| Enable (f : option IFrame) (r : option RenderCamera) (t : option Transform)
| Disable.

Definition input (h : Handler) (i : Input) : Handler :=
  match i with
  | MouseWheel _ _ => h
  | CurrentState f => currentState f h
  | RenderCamera' r => renderCamera r h
  | CurrentTransform t => currentTransform t h
  | Enable f r t => _enable f r t h
  | Disable => fst (_disable h)
  end.

Definition run (h : Handler) (inputs : list Input) : Handler := fold_left input inputs h.

(** Neither [_enable] nor [_disable] is among the inputs. *)
Definition quiet (inputs : list Input) : bool :=
  forallb (fun i => match i with Enable _ _ _ | Disable => false | _ => true end) inputs.

(** The latest value of each stream, from what the stream gave at the
    subscription and the inputs since. *)
Definition latest (f : option IFrame) (r : option RenderCamera) (t : option Transform)
  (inputs : list Input) : Latest :=
  {| frame :=
       fold_left (fun v i => match i with CurrentState f => Some f | _ => v end) inputs f;
     render :=
       fold_left (fun v i => match i with RenderCamera' r => Some r | _ => v end) inputs r;
     transform :=
       fold_left (fun v i => match i with CurrentTransform t => Some t | _ => v end) inputs t |}.

(** Whether the last of the calls of [_enable] and [_disable] among the
    inputs is one of [_enable]. *)
Definition enabled (inputs : list Input) : bool :=
  fold_left
    (fun v i => match i with Enable _ _ _ => true | Disable => false | _ => v end)
    inputs false.

(** A handler with the two subscriptions of one call of [_enable] on a
    handler just created. *)
Definition once (l : Latest) : Handler :=
  {| _preventDefaultSubscription := Some 0;
     _zoomSubscription := Some 1;
     mouseWheelObservers := [0];
     zoomObservers := [(1, l)];
     subscriptions := 2 |}.

(** And after [_disable]. *)
Definition ended : Handler :=
  {| _preventDefaultSubscription := None;
     _zoomSubscription := None;
     mouseWheelObservers := [];
     zoomObservers := [];
     subscriptions := 2 |}.

(** While enabled, the two fields hold subscriptions and the first is live;
    otherwise they hold none. *)
Definition holding (b : bool) (h : Handler) : Prop :=
  if b
  then exists prevent zoom : nat,
         _preventDefaultSubscription h = Some prevent
         /\ _zoomSubscription h = Some zoom
         /\ In prevent (mouseWheelObservers h)
  else _preventDefaultSubscription h = None /\ _zoomSubscription h = None.

End Handler.

End ScrollZoomSubscriptions.

(** ** RenderService: the size of the element and the render mode

    [_resize$] and [_renderMode$] are behavior subjects: each holds a value,
    gives it to an observer when the observer subscribes, and gives every
    later value to every observer.  [_size$] maps [_resize$] to the size the
    element has when the value passes, behind [shareReplay(1)]: a replay
    subject with a buffer of one, subscribed to the mapped [_resize$] when
    its first observer arrives.  An observer is first subscribed to the
    replay subject, which gives it the buffer, and the subject is connected
    after that.  Observers stay subscribed.

    The state has the layout of the element, which the page changes, and for
    each of the two streams what every observer has received, oldest
    observer first. *)

Module RenderService.

Record ISize : Set := {
  height : number;
  width : number
}.

Section Service.

(** [RenderMode] is declared in another file; [Letterbox] is one of its
    members. *)
Variable RenderMode : Type.
Variable Letterbox : RenderMode.

Record State : Type := {
  (** [_element.offsetHeight] and [_element.offsetWidth], now *)
  offsetHeight : number;
  offsetWidth : number;
  (** the value [_renderMode$] holds, and its observers *)
  renderMode : RenderMode;
  renderModeObservers : list (list RenderMode);
  (** whether the replay subject of [_size$] is subscribed to the mapped
      [_resize$], its buffer, and its observers *)
  connected : bool;
  buffer : option ISize;
  sizeObservers : list (list ISize)
}.

(** [new RenderService(element, renderMode)], for an element laid out with
    the given height and width; [None] is a [renderMode] that is [null] or
    [undefined]. *)
Definition new (offsetHeight offsetWidth : number) (renderMode : option RenderMode) : State :=
  {| offsetHeight := offsetHeight;
     offsetWidth := offsetWidth;
     renderMode := match renderMode with Some mode => mode | None => Letterbox end;
     renderModeObservers := [];
     connected := false;
     buffer := None;
     sizeObservers := [] |}.

(** The function given to [map]. *)
Definition size (s : State) : ISize :=
  {| height := offsetHeight s; width := offsetWidth s |}.

(** One value into the replay subject. *)
Definition replay (value : ISize) (s : State) : State :=
  {| offsetHeight := offsetHeight s;
     offsetWidth := offsetWidth s;
     renderMode := renderMode s;
     renderModeObservers := renderModeObservers s;
     connected := connected s;
     buffer := Some value;
     sizeObservers := List.map (fun received => received ++ [value]) (sizeObservers s) |}.

(** [resize$.onNext(null)]: the value reaches the function given to [map]
    when the replay subject is subscribed. *)
Definition resize (s : State) : State :=
  if connected s then replay (size s) s else s.

(** [size$.subscribe(observer)]: the observer is given the buffer; the first
    observer connects the replay subject, and [_resize$] gives the value it
    holds at once. *)
Definition subscribeSize (s : State) : State :=
  let subscribed :=
    {| offsetHeight := offsetHeight s;
       offsetWidth := offsetWidth s;
       renderMode := renderMode s;
       renderModeObservers := renderModeObservers s;
       connected := true;
       buffer := buffer s;
       sizeObservers :=
         sizeObservers s ++ [match buffer s with Some value => [value] | None => [] end] |} in
  if connected s then subscribed else replay (size subscribed) subscribed.

(** [renderMode$.onNext(mode)] *)
Definition renderModeNext (mode : RenderMode) (s : State) : State :=
  {| offsetHeight := offsetHeight s;
     offsetWidth := offsetWidth s;
     renderMode := mode;
     renderModeObservers :=
       List.map (fun received => received ++ [mode]) (renderModeObservers s);
     connected := connected s;
     buffer := buffer s;
     sizeObservers := sizeObservers s |}.

(** [renderMode$.subscribe(observer)] *)
Definition subscribeRenderMode (s : State) : State :=
  {| offsetHeight := offsetHeight s;
     offsetWidth := offsetWidth s;
     renderMode := renderMode s;
     renderModeObservers := renderModeObservers s ++ [[renderMode s]];
     connected := connected s;
     buffer := buffer s;
     sizeObservers := sizeObservers s |}.

(** The page gives the element another height and width. *)
Definition layout (offsetHeight offsetWidth : number) (s : State) : State :=
  {| offsetHeight := offsetHeight;
     offsetWidth := offsetWidth;
     renderMode := renderMode s;
     renderModeObservers := renderModeObservers s;
     connected := connected s;
     buffer := buffer s;
     sizeObservers := sizeObservers s |}.

(** What happens to a service, one after the other. *)
Inductive Call : Type :=
| Resize
| SubscribeSize
| RenderModeNext (mode : RenderMode)
| SubscribeRenderMode
| Layout (offsetHeight offsetWidth : number).

Definition call (s : State) (c : Call) : State :=
  match c with
  | Resize => resize s
  | SubscribeSize => subscribeSize s
  | RenderModeNext mode => renderModeNext mode s
  | SubscribeRenderMode => subscribeRenderMode s
  | Layout offsetHeight offsetWidth => layout offsetHeight offsetWidth s
  end.

Definition run (s : State) (cs : list Call) : State := fold_left call cs s.





(** Once the replay subject is connected its buffer is full and is the
    latest value of every observer; before, there is no observer. *)
Definition consistent (s : State) : Prop :=
  if connected s
  then exists cached : ISize,
         buffer s = Some cached
         /\ Forall (fun received => exists earlier, received = earlier ++ [cached])
              (sizeObservers s)
  else buffer s = None /\ sizeObservers s = [].

(** The modes given to [renderMode$.onNext] in a list of calls, in order. *)
Definition modes (cs : list Call) : list RenderMode :=
  flat_map (fun c => match c with RenderModeNext mode => [mode] | _ => [] end) cs.

(** The number of subscriptions to [renderMode$] in a list of calls. *)
Definition renderModeSubscriptions (cs : list Call) : nat :=
  length (filter (fun c => match c with SubscribeRenderMode => true | _ => false end) cs).

End Service.

End RenderService.

(** ** The subscriptions the gesture streams reach

    The event streams merged and filtered from [fromEvent] keep no state.
    What a gesture stream remembers between two events is, for a
    [switchMap], the current inner subscription (the event that opened it,
    the value of its fold and what is left to skip) and, for a [mergeMap],
    the events whose inner subscriptions are still waiting.  The functions
    below build the subscription from that, and the transition functions
    say what one event does to it; both are proved against [dispatch]
    further down. *)

Module Reached.

Import TouchService.

Definition isMove (e : TouchEvent) : bool := TouchEventType_eqb (type e) touchmove.

(** [touchStop$] emits the event. *)
Definition stops (e : TouchEvent) : bool :=
  match type e with
  | touchend | touchcancel => length (touches e) =? 0
  | _ => false
  end.

(** [multipleTouchStart$] emits the event. *)
Definition multiple (e : TouchEvent) : bool :=
  negb (isMove e) && (1 <=? length (touches e)).

(** [singleTouchStart$] emits the event. *)
Definition opensSingle (e : TouchEvent) : bool := negb (isMove e) && oneTouch e.

(** [_pinchStart$] emits the event. *)
Definition opensPinch (e : TouchEvent) : bool := negb (isMove e) && twoTouches e.

(** [_pinchEnd$] emits the event. *)
Definition closesPinch (e : TouchEvent) : bool := negb (isMove e) && negb (twoTouches e).

(** The inner subscription of a [switchMap]: the opening event, the value
    of the fold, the number of values still to skip. *)
Definition Window (A : Type) : Type := option (TouchEvent * A * nat).

Definition singleTouchSub (cur : Window TouchMove) : subscription _singleTouch' :=
  (Some (subscribe singleTouchStart'),
   match cur with
   | None => None
   | Some (e0, acc, n) =>
       Some (existT _ e0
               (Some (subscribe (Rx.merge multipleTouchStart' touchStop')),
                ((subscribe _singleTouchMoveOperation', acc), n)))
   end).

Definition singleTouchStep (cur : Window TouchMove) (e : TouchEvent)
  : list TouchMove * status (Window TouchMove) :=
  if isMove e then
    match cur with
    | Some (e0, acc, n) =>
        if oneTouch e then
          match singleTouchMoveOperation e acc with
          | Some acc' => (skipn n [acc'], Active (Some (e0, acc', n - 1)))
          | None => ([], Errored)
          end
        else ([], Active cur)
    | None => ([], Active None)
    end
  else if oneTouch e then ([], Active (Some (e, TouchMove.new None, 1)))
  else if stops e || multiple e then ([], Active None)
  else ([], Active cur).

Definition pinchChangeSub (cur : Window IPinch) : subscription _pinchChange' :=
  (Some (subscribe _pinchStart'),
   match cur with
   | None => None
   | Some (e0, acc, n) =>
       Some (existT _ e0
               (Some (subscribe _pinchEnd'),
                ((subscribe _pinchOperation', acc), n)))
   end).

Definition pinchChangeStep (cur : Window IPinch) (e : TouchEvent)
  : list IPinch * status (Window IPinch) :=
  if isMove e then
    match cur with
    | Some (e0, acc, n) =>
        if twoTouches e then
          match pinchOperation e acc with
          | Some acc' => (skipn n [acc'], Active (Some (e0, acc', n - 1)))
          | None => ([], Errored)
          end
        else ([], Active cur)
    | None => ([], Active None)
    end
  else if twoTouches e then ([], Active (Some (e, pinchSeed, 1)))
  else ([], Active None).

(** The inner subscriptions of [_singleTouchMoveStart$] still waiting for
    their one value, by opening event, oldest first. *)
Definition singleTouchMoveStartSub (pending : list TouchEvent)
  : subscription _singleTouchMoveStart' :=
  (Some (subscribe singleTouchStart'),
   List.map (fun e0 : TouchEvent =>
               existT _ e0
                 ((Some (subscribe (Rx.merge touchStop' multipleTouchStart')),
                   subscribe _singleTouchMove'), 1))
            pending).

Definition singleTouchMoveStartStep (pending : list TouchEvent) (e : TouchEvent)
  : list TouchMove * status (list TouchEvent) :=
  if isMove e then
    if oneTouch e then
      match pending with
      | [] => ([], Active [])
      | _ :: _ =>
          match singleTouchMoveOperation e (TouchMove.new None) with
          | Some first => (List.map (fun _ => first) pending, Active [])
          | None => ([], Errored)
          end
      end
    else ([], Active pending)
  else
    ([], Active ((if stops e || multiple e then [] else pending)
                 ++ (if oneTouch e then [e] else []))).

(** The inner subscriptions of [_singleTouchMoveEnd$] still waiting. *)
Definition singleTouchMoveEndSub (pending : list TouchEvent)
  : subscription _singleTouchMoveEnd' :=
  (Some (subscribe singleTouchStart'),
   List.map (fun e0 : TouchEvent =>
               existT _ e0
                 (subscribe (Rx.merge touchStop' multipleTouchStart'), 1))
            pending).

Definition singleTouchMoveEndStep (pending : list TouchEvent) (e : TouchEvent)
  : list TouchEvent * status (list TouchEvent) :=
  if isMove e then ([], Active pending)
  else if stops e || multiple e
       then (List.map (fun _ => e) pending, Active (if oneTouch e then [e] else []))
       else ([], Active (pending ++ (if oneTouch e then [e] else []))).

(** What a transition function makes of a history. *)
Definition advance {T X : Type} (step : X -> TouchEvent -> list T * status X)
  (x : X) (e : TouchEvent) : X :=
  match snd (step x e) with
  | Active x' => x'
  | _ => x
  end.

Definition reach {T X : Type} (step : X -> TouchEvent -> list T * status X)
  (x : X) (es : list TouchEvent) : X :=
  fold_left (advance step) es x.

(** The move events that feed the single-touch fold, and the pinch fold. *)
Definition feedsSingle (e : TouchEvent) : bool := isMove e && oneTouch e.
Definition feedsPinch (e : TouchEvent) : bool := isMove e && twoTouches e.

(** The move events that do not. *)
Definition idleSingle (e : TouchEvent) : bool := isMove e && negb (oneTouch e).
Definition idlePinch (e : TouchEvent) : bool := isMove e && negb (twoTouches e).

End Reached.

(** ** The sessions used as examples *)

Module Examples.

(** A contact whose page and screen positions are its client position. *)
Definition contact (x y : number) : Touch :=
  {| Touch.identifier := 0;
     Touch.clientX := x; Touch.clientY := y;
     Touch.pageX := x; Touch.pageY := y;
     Touch.screenX := x; Touch.screenY := y;
     Touch.target := 0 |}.

(** A contact on a page scrolled by [(sx, sy)]. *)
Definition scrolled (x y sx sy : number) : Touch :=
  {| Touch.identifier := 0;
     Touch.clientX := x; Touch.clientY := y;
     Touch.pageX := (x + sx)%float; Touch.pageY := (y + sy)%float;
     Touch.screenX := x; Touch.screenY := y;
     Touch.target := 0 |}.

(** An event whose contacts are all on the element. *)
Definition event (ty : TouchEventType) (ts : list Touch) : TouchEvent :=
  {| type := ty; touches := ts; targetTouches := ts |}.

Definition finger1 : Touch := contact 100 100.
Definition finger1' : Touch := contact 105 98.
Definition finger2 : Touch := contact 200 150.

Definition down1 : TouchEvent := event touchstart [finger1].
Definition move1 : TouchEvent := event touchmove [finger1].
Definition move1' : TouchEvent := event touchmove [finger1'].

(** A second finger lands on the element. *)
Definition down2 : TouchEvent := event touchstart [finger1; finger2].

(** A second finger lands elsewhere: two active contacts, one of them on
    the target. *)
Definition down2_elsewhere : TouchEvent :=
  {| type := touchstart;
     touches := [finger1; finger2];
     targetTouches := [finger2] |}.

Definition pinchA : Touch := contact 0 0.
Definition pinchB : Touch := contact 10 0.
Definition pinchB' : Touch := contact 20 0.

Definition pinchDown : TouchEvent := event touchstart [pinchA; pinchB].
Definition pinchMove : TouchEvent := event touchmove [pinchA; pinchB].
Definition pinchMove' : TouchEvent := event touchmove [pinchA; pinchB'].

(** Three lines of wheel, on a canvas 600 pixels high. *)
Definition wheel : ScrollZoomHandler.WheelEvent :=
  {| ScrollZoomHandler.deltaY := 3; ScrollZoomHandler.deltaMode := 1 |}.

End Examples.

(** ** Whole sessions

    What a stream delivers over several events in a row, and the events
    that leave a single-touch window as it is. *)

Module Sessions.

Import TouchService Reached.

(** What the observer receives while the events of [es] are dispatched, one
    after the other, to a subscription. *)
Fixpoint deliveredFrom {T : Type} (o : Observable T) (st : status (subscription o))
  (es : list TouchEvent) : list T :=
  match es with
  | [] => []
  | e :: es => fst (on o st e) ++ deliveredFrom o (snd (on o st e)) es
  end.

(** The same for the subscription made before the first event of [pre],
    once [pre] has been dispatched. *)
Definition delivered {T : Type} (o : Observable T) (pre es : list TouchEvent) : list T :=
  deliveredFrom o (after o pre) es.

(** What a transition function delivers over [es]. *)
Fixpoint outputs {T X : Type} (step : X -> TouchEvent -> list T * status X)
  (x : X) (es : list TouchEvent) : list T :=
  match es with
  | [] => []
  | e :: es => fst (step x e) ++ outputs step (advance step x e) es
  end.

(** The notifier of the single-touch inner subscriptions,
    [merge(touchStop$, multipleTouchStart$)], emits the event. *)
Definition closesSingle (e : TouchEvent) : bool := stops e || multiple e.

(** The events after which an open single-touch window is still open, on
    the same start event: the move events, and what neither stream of the
    notifier emits. *)
Definition keepsSingle (e : TouchEvent) : bool := isMove e || negb (closesSingle e).

End Sessions.

(** ** Observers side by side *)

Module Observers.

(** In a list of observers, oldest first, with what each has received: the
    later of two has missed the beginning of what the earlier has received,
    and nothing else. *)
Definition agree {A : Type} (obs : list (list A)) : Prop :=
  forall (i j : nat) (r r' : list A),
    i <= j ->
    nth_error obs i = Some r ->
    nth_error obs j = Some r' ->
    exists missed : list A, r = missed ++ r'.

End Observers.

(** ** The sign of a binary64 number *)

Module FloatSign.

(** [signed s x]: [x] is NaN, or has the sign bit [s]. *)
Definition signed (s : bool) (x : spec_float) : Prop :=
  match x with
  | S754_nan => True
  | S754_zero s' | S754_infinity s' | S754_finite s' _ _ => s' = s
  end.

End FloatSign.

(** * Properties *)

Unset Implicit Arguments.

(** ** Facts on binary64 arithmetic *)

Module JsFacts.

Lemma float_of_spec (x : float) (s : spec_float) : Prim2SF x = s -> x = SF2Prim s.
Proof. intros <-. symmetry. apply SF2Prim_Prim2SF. Qed.

(** Subtracting +0 changes nothing, whatever the left operand. *)
Lemma sub_zero_r (x : float) : (x - 0)%float = x.
Proof.
  apply Prim2SF_inj. rewrite sub_spec.
  change (Prim2SF 0) with (S754_zero false).
  destruct (Prim2SF x) as [[|]|s| |s m e]; reflexivity.
Qed.

(** Rounding does not look at the sign. *)
Lemma SFabs_binary_round (m : positive) (e : Z) :
  SFabs (binary_round prec emax true m e) = SFabs (binary_round prec emax false m e).
Proof.
  unfold binary_round, binary_round_aux.
  destruct (shl_align _ _ _) as [mz ez].
  destruct (shr_fexp _ _ _ _ _) as [mrs e'].
  destruct (shr_fexp _ _ _ _ _) as [mrs' e''].
  destruct (shr_m mrs'); try reflexivity.
  destruct (_ <=? _)%Z; reflexivity.
Qed.

Lemma SFabs_binary_normalize_opp (m e : Z) :
  SFabs (binary_normalize prec emax (- m) e false)
  = SFabs (binary_normalize prec emax m e false).
Proof.
  destruct m as [|p|p]; cbn [Z.opp binary_normalize];
    [reflexivity | | symmetry]; apply SFabs_binary_round.
Qed.

Lemma SFabs_sub_comm (a b : spec_float) :
  SFabs (SF64sub a b) = SFabs (SF64sub b a).
Proof.
  destruct a as [sa|sa| |sa ma ea], b as [sb|sb| |sb mb eb];
    try (destruct sa, sb; reflexivity);
    try (destruct sa; reflexivity);
    try (destruct sb; reflexivity);
    try reflexivity.
  unfold SF64sub, SFsub.
  rewrite (Z.min_comm eb ea), <- SFabs_binary_normalize_opp.
  do 2 f_equal. lia.
Qed.

(** The distance between two coordinates does not depend on their order. *)
Lemma abs_sub_comm (a b : float) : abs (a - b) = abs (b - a).
Proof.
  apply Prim2SF_inj. rewrite !abs_spec, !sub_spec. apply SFabs_sub_comm.
Qed.

Lemma SFcompare_antisym (a b : spec_float) :
  SFcompare b a = option_map CompOpp (SFcompare a b).
Proof.
  destruct a as [sa|sa| |sa ma ea], b as [sb|sb| |sb mb eb];
    try (destruct sa, sb; reflexivity);
    try (destruct sa; reflexivity);
    try (destruct sb; reflexivity);
    try reflexivity.
  destruct sa, sb; cbn [SFcompare option_map]; try reflexivity.
  - rewrite (Z.compare_antisym ea eb).
    destruct (ea ?= eb)%Z; cbn [CompOpp]; try reflexivity.
    rewrite (Pos.compare_cont_antisym ma mb Eq). reflexivity.
  - rewrite (Z.compare_antisym ea eb).
    destruct (ea ?= eb)%Z; cbn [CompOpp]; try reflexivity.
    rewrite (Pos.compare_cont_antisym ma mb Eq). reflexivity.
Qed.

(** Numbers that compare equal are the same float, or are both zeros. *)
Lemma SFcompare_Eq (a b : spec_float) :
  SFcompare a b = Some Eq ->
  a = b \/ exists sa sb, a = S754_zero sa /\ b = S754_zero sb.
Proof.
  destruct a as [sa|sa| |sa ma ea], b as [sb|sb| |sb mb eb];
    cbn [SFcompare]; intros H;
    try discriminate H;
    try (destruct sa; discriminate H);
    try (destruct sb; discriminate H).
  - right. eauto.
  - destruct sa, sb; try discriminate H; left; reflexivity.
  - left.
    assert (ea = eb /\ ma = mb) as [-> ->]; [|destruct sa, sb; congruence].
    destruct sa, sb; try discriminate H;
      destruct (ea ?= eb)%Z eqn:He; try discriminate H;
      apply Z.compare_eq in He; split; trivial;
      apply Pos.compare_eq; unfold Pos.compare;
      destruct (Pos.compare_cont Eq ma mb); cbn in H; congruence.
Qed.

Lemma SFcompare_None (a b : spec_float) :
  SFcompare a b = None -> a = S754_nan \/ b = S754_nan.
Proof.
  destruct a as [sa|sa| |sa ma ea], b as [sb|sb| |sb mb eb];
    cbn [SFcompare]; try discriminate; auto.
Qed.

Lemma is_nan_spec (x : float) : is_nan x = true <-> Prim2SF x = S754_nan.
Proof.
  unfold is_nan. rewrite eqb_spec.
  destruct (Prim2SF x) as [s|s| |s m e]; cbn.
  - split; discriminate.
  - destruct s; split; discriminate.
  - split; reflexivity.
  - unfold SFeqb, SFcompare.
    destruct s; rewrite Z.compare_refl, Pos.compare_cont_refl; cbn;
      split; discriminate.
Qed.

(** What is left of [Math.min] and [Math.max] once the operands compare
    equal: the choice by sign only matters between zeros. *)
Lemma tie_comm (a b : float) :
  SFcompare (Prim2SF a) (Prim2SF b) = Some Eq ->
  (if get_sign a then a else b) = (if get_sign b then b else a)
  /\ (if get_sign a then b else a) = (if get_sign b then a else b).
Proof.
  intros H. apply SFcompare_Eq in H as [H | (sa & sb & Ha & Hb)].
  - apply Prim2SF_inj in H. subst b. destruct (get_sign a); split; reflexivity.
  - apply float_of_spec in Ha, Hb. subst a b.
    destruct sa, sb; split; reflexivity.
Qed.

Lemma nan_or_comm (a b : float) :
  SFcompare (Prim2SF a) (Prim2SF b) = None -> is_nan a || is_nan b = true.
Proof.
  intros H. apply SFcompare_None in H as [H | H];
    apply is_nan_spec in H; rewrite H; auto using orb_true_r.
Qed.

Lemma Math_min_comm (a b : number) : Math_min a b = Math_min b a.
Proof.
  unfold Math_min. rewrite (orb_comm (is_nan b)), !ltb_spec. unfold SFltb.
  rewrite (SFcompare_antisym (Prim2SF a) (Prim2SF b)).
  destruct (SFcompare (Prim2SF a) (Prim2SF b)) as [[| |]|] eqn:H;
    cbn [option_map CompOpp]; cbv beta iota; try reflexivity.
  - destruct (is_nan a || is_nan b); [reflexivity | exact (proj1 (tie_comm a b H))].
  - rewrite (nan_or_comm a b H). reflexivity.
Qed.

Lemma Math_max_comm (a b : number) : Math_max a b = Math_max b a.
Proof.
  unfold Math_max. rewrite (orb_comm (is_nan b)), !ltb_spec. unfold SFltb.
  rewrite (SFcompare_antisym (Prim2SF a) (Prim2SF b)).
  destruct (SFcompare (Prim2SF a) (Prim2SF b)) as [[| |]|] eqn:H;
    cbn [option_map CompOpp]; cbv beta iota; try reflexivity.
  - destruct (is_nan a || is_nan b); [reflexivity | exact (proj2 (tie_comm a b H))].
  - rewrite (nan_or_comm a b H). reflexivity.
Qed.

(** NaN is not a number a movement can be compared equal to. *)
Lemma nan_neq (x : float) : is_nan x = false -> nan <> x.
Proof. intros H E. rewrite <- E in H. discriminate H. Qed.

End JsFacts.

(** ** Subscriptions over a history *)

Import TouchService Reached.

Lemma after_snoc {T : Type} (o : Observable T) (es : list TouchEvent) (e : TouchEvent) :
  after o (es ++ [e]) = snd (on o (after o es) e).
Proof. unfold after. rewrite fold_left_app. reflexivity. Qed.

Section Simulation.

Context {T X : Type} (o : Observable T).
Variables (sub : X -> subscription o) (x0 : X).
Variable step : X -> TouchEvent -> list T * status X.

Hypothesis sub_init : subscribe o = sub x0.
Hypothesis simulates :
  forall x e, dispatch o (sub x) e = let (out, r) := step x e in (out, status_map sub r).
Hypothesis stays : forall x e, exists x', snd (step x e) = Active x'.

Lemma on_sub (x : X) (e : TouchEvent) :
  on o (Active (sub x)) e = (fst (step x e), Active (sub (advance step x e))).
Proof.
  cbn [on]. rewrite simulates. unfold advance.
  destruct (stays x e) as [x' Hx']. destruct (step x e) as [out r].
  cbn in Hx' |- *. subst r. reflexivity.
Qed.

Lemma after_reach (es : list TouchEvent) :
  after o es = Active (sub (reach step x0 es)).
Proof.
  induction es as [|e es IH] using rev_ind.
  - cbn. now rewrite sub_init.
  - rewrite after_snoc, IH, on_sub. unfold reach. now rewrite fold_left_app.
Qed.

Lemma emitted_reach (es : list TouchEvent) (e : TouchEvent) :
  emitted o es e = fst (step (reach step x0 es) e).
Proof. unfold emitted. now rewrite after_reach, on_sub. Qed.

End Simulation.

Lemma reach_app {T X : Type} (step : X -> TouchEvent -> list T * status X)
  (x : X) (es es' : list TouchEvent) :
  reach step x (es ++ es') = reach step (reach step x es) es'.
Proof. apply fold_left_app. Qed.

Lemma reach_cons {T X : Type} (step : X -> TouchEvent -> list T * status X)
  (x : X) (e : TouchEvent) (es : list TouchEvent) :
  reach step x (e :: es) = reach step (advance step x e) es.
Proof. reflexivity. Qed.

(** An event stream without state: what it emits depends on the event only. *)
Lemma emitted_stateless {T : Type} (o : Observable T) (f : TouchEvent -> list T) :
  (forall e, dispatch o (subscribe o) e = (f e, Active (subscribe o))) ->
  forall es e, emitted o es e = f e.
Proof.
  intros H es e.
  rewrite (emitted_reach o (fun _ : unit => subscribe o) tt (fun _ e => (f e, Active tt))).
  - reflexivity.
  - reflexivity.
  - intros _ e'. now rewrite H.
  - intros x e'. now exists tt.
Qed.

(** ** The gesture streams against their transition functions *)

Ltac event_cases e :=
  let ty := fresh "ty" in
  let ts := fresh "ts" in
  let tts := fresh "tts" in
  destruct e as [ty ts tts];
  destruct ty;
  destruct ts as [|? [|? [|? ts]]];
  destruct tts as [|? [|? [|? tts]]].

Lemma oneTouch_lone (e : TouchEvent) :
  oneTouch e = true -> exists t, touches e = [t].
Proof.
  unfold oneTouch. destruct (touches e) as [|t [|t' ts]]; try discriminate.
  now exists t.
Qed.

Lemma twoTouches_pair (e : TouchEvent) :
  twoTouches e = true -> exists a b, touches e = [a; b].
Proof.
  unfold twoTouches. destruct (touches e) as [|a [|b [|c ts]]]; try discriminate.
  now exists a, b.
Qed.

(** The filters guard the reads of [te.touches[0]] and [te.touches[1]]:
    behind them no operation raises. *)
Lemma singleTouchMoveOperation_defined (e : TouchEvent) (previous : TouchMove) :
  oneTouch e = true -> exists current, singleTouchMoveOperation e previous = Some current.
Proof.
  intros H. destruct (oneTouch_lone e H) as [t Ht].
  unfold singleTouchMoveOperation. rewrite Ht. cbn. eauto.
Qed.

Lemma pinchOperation_defined (e : TouchEvent) (previous : IPinch) :
  twoTouches e = true -> exists current, pinchOperation e previous = Some current.
Proof.
  intros H. destruct (twoTouches_pair e H) as (a & b & Ht).
  unfold pinchOperation. rewrite Ht. cbn. eauto.
Qed.

Lemma singleTouch_dispatch (cur : Window TouchMove) (e : TouchEvent) :
  dispatch _singleTouch' (singleTouchSub cur) e =
  let (out, r) := singleTouchStep cur e in (out, status_map singleTouchSub r).
Proof. event_cases e; destruct cur as [[[e0 acc] [|n]]|]; reflexivity. Qed.

Lemma singleTouchStep_stays (cur : Window TouchMove) (e : TouchEvent) :
  exists cur', snd (singleTouchStep cur e) = Active cur'.
Proof.
  unfold singleTouchStep.
  destruct (isMove e), cur as [[[e0 acc] n]|], (oneTouch e) eqn:H1;
    try destruct (stops e || multiple e);
    try (destruct (singleTouchMoveOperation_defined e acc H1) as [c ->]);
    cbn; eauto.
Qed.

Lemma pinchChange_dispatch (cur : Window IPinch) (e : TouchEvent) :
  dispatch _pinchChange' (pinchChangeSub cur) e =
  let (out, r) := pinchChangeStep cur e in (out, status_map pinchChangeSub r).
Proof. event_cases e; destruct cur as [[[e0 acc] [|n]]|]; reflexivity. Qed.

Lemma pinchChangeStep_stays (cur : Window IPinch) (e : TouchEvent) :
  exists cur', snd (pinchChangeStep cur e) = Active cur'.
Proof.
  unfold pinchChangeStep.
  destruct (isMove e), cur as [[[e0 acc] n]|], (twoTouches e) eqn:H2;
    try (destruct (pinchOperation_defined e acc H2) as [c ->]);
    cbn; eauto.
Qed.

Lemma mergeMap_dispatch (A B : Type) (project : A -> Observable B) (o : Observable A)
  (so : option (subscription o)) (inners : list (Rx.inner project)) (e : TouchEvent) :
  dispatch (Rx.mergeMap project o) (so, inners) e =
  let (xs, sto) := deliver o so e in
  match sto with
  | Errored => ([], Errored)
  | _ =>
      match Rx.dispatch_inners inners e with
      | (out, None) => (out, Errored)
      | (out, Some inners') =>
          match still sto, inners' ++ List.map (Rx.subscribe_inner project) xs with
          | None, [] => (out, Completed)
          | so', all => (out, Active (so', all))
          end
      end
  end.
Proof. reflexivity. Qed.

(** The waiting inner subscriptions of the end stream all take the same
    closing event. *)
Lemma singleTouchMoveEnd_inners (pending : list TouchEvent) (e : TouchEvent) :
  Rx.dispatch_inners (snd (singleTouchMoveEndSub pending)) e =
  if negb (isMove e) && (stops e || multiple e)
  then (List.map (fun _ => e) pending, Some [])
  else ([], Some (snd (singleTouchMoveEndSub pending))).
Proof.
  unfold singleTouchMoveEndSub. cbn [snd].
  induction pending as [|e0 pending IH].
  - destruct (negb (isMove e) && (stops e || multiple e)); reflexivity.
  - cbn [List.map Rx.dispatch_inners]. rewrite IH. clear IH.
    event_cases e; reflexivity.
Qed.

Lemma singleTouchMoveEnd_dispatch (pending : list TouchEvent) (e : TouchEvent) :
  dispatch _singleTouchMoveEnd' (singleTouchMoveEndSub pending) e =
  let (out, r) := singleTouchMoveEndStep pending e in
  (out, status_map singleTouchMoveEndSub r).
Proof.
  unfold _singleTouchMoveEnd'.
  change (singleTouchMoveEndSub pending)
    with (Some (subscribe singleTouchStart'), snd (singleTouchMoveEndSub pending)).
  rewrite mergeMap_dispatch, singleTouchMoveEnd_inners.
  unfold singleTouchMoveEndSub.
  event_cases e; cbn; rewrite ?app_nil_r, ?List.map_app; reflexivity.
Qed.

Lemma singleTouchMoveEndStep_stays (pending : list TouchEvent) (e : TouchEvent) :
  exists pending', snd (singleTouchMoveEndStep pending e) = Active pending'.
Proof.
  unfold singleTouchMoveEndStep.
  destruct (isMove e); [|destruct (stops e || multiple e)]; cbn; eauto.
Qed.

(** The waiting inner subscriptions of the start stream all take the first
    value of their own fold, which starts from the seed. *)
Lemma singleTouchMoveStart_inners (pending : list TouchEvent) (e : TouchEvent) :
  Rx.dispatch_inners (snd (singleTouchMoveStartSub pending)) e =
  if isMove e then
    if oneTouch e then
      match pending with
      | [] => ([], Some [])
      | _ :: _ =>
          match singleTouchMoveOperation e (TouchMove.new None) with
          | Some first => (List.map (fun _ => first) pending, Some [])
          | None => ([], None)
          end
      end
    else ([], Some (snd (singleTouchMoveStartSub pending)))
  else if stops e || multiple e then ([], Some [])
  else ([], Some (snd (singleTouchMoveStartSub pending))).
Proof.
  unfold singleTouchMoveStartSub. cbn [snd].
  induction pending as [|e0 pending IH].
  - destruct (isMove e), (oneTouch e), (stops e || multiple e); reflexivity.
  - cbn [List.map Rx.dispatch_inners]. rewrite IH. clear IH.
    event_cases e; destruct pending; reflexivity.
Qed.

Lemma singleTouchMoveStart_dispatch (pending : list TouchEvent) (e : TouchEvent) :
  dispatch _singleTouchMoveStart' (singleTouchMoveStartSub pending) e =
  let (out, r) := singleTouchMoveStartStep pending e in
  (out, status_map singleTouchMoveStartSub r).
Proof.
  unfold _singleTouchMoveStart'.
  change (singleTouchMoveStartSub pending)
    with (Some (subscribe singleTouchStart'), snd (singleTouchMoveStartSub pending)).
  rewrite mergeMap_dispatch, singleTouchMoveStart_inners.
  unfold singleTouchMoveStartSub.
  event_cases e; destruct pending; cbn; rewrite ?app_nil_r, ?List.map_app; reflexivity.
Qed.

Lemma singleTouchMoveStartStep_stays (pending : list TouchEvent) (e : TouchEvent) :
  exists pending', snd (singleTouchMoveStartStep pending e) = Active pending'.
Proof.
  unfold singleTouchMoveStartStep.
  destruct (isMove e), (oneTouch e) eqn:H1, pending as [|e0 pending];
    try (destruct (singleTouchMoveOperation_defined e (TouchMove.new None) H1) as [c ->]);
    cbn; eauto.
Qed.

(** *** What the streams emit after a history *)

Lemma singleTouchMove_emitted (es : list TouchEvent) (e : TouchEvent) :
  emitted singleTouchMove' es e = fst (singleTouchStep (reach singleTouchStep None es) e).
Proof.
  apply (emitted_reach _singleTouch' singleTouchSub None singleTouchStep);
    auto using singleTouch_dispatch, singleTouchStep_stays.
Qed.

Lemma pinch_emitted (es : list TouchEvent) (e : TouchEvent) :
  emitted pinch' es e = fst (pinchChangeStep (reach pinchChangeStep None es) e).
Proof.
  apply (emitted_reach _pinchChange' pinchChangeSub None pinchChangeStep);
    auto using pinchChange_dispatch, pinchChangeStep_stays.
Qed.

Lemma pinchChange_after (es : list TouchEvent) :
  after _pinchChange' es = Active (pinchChangeSub (reach pinchChangeStep None es)).
Proof.
  apply (after_reach _pinchChange' pinchChangeSub None pinchChangeStep);
    auto using pinchChange_dispatch, pinchChangeStep_stays.
Qed.

Lemma singleTouchMoveStart_emitted (es : list TouchEvent) (e : TouchEvent) :
  emitted singleTouchMoveStart' es e
  = fst (singleTouchMoveStartStep (reach singleTouchMoveStartStep [] es) e).
Proof.
  apply (emitted_reach _singleTouchMoveStart' singleTouchMoveStartSub []
           singleTouchMoveStartStep);
    auto using singleTouchMoveStart_dispatch, singleTouchMoveStartStep_stays.
Qed.

Lemma singleTouchMoveEnd_emitted (es : list TouchEvent) (e : TouchEvent) :
  emitted singleTouchMoveEnd' es e
  = fst (singleTouchMoveEndStep (reach singleTouchMoveEndStep [] es) e).
Proof.
  apply (emitted_reach _singleTouchMoveEnd' singleTouchMoveEndSub []
           singleTouchMoveEndStep);
    auto using singleTouchMoveEnd_dispatch, singleTouchMoveEndStep_stays.
Qed.

Lemma singleTouchStart_emitted (es : list TouchEvent) (e : TouchEvent) :
  emitted singleTouchStart' es e = if opensSingle e then [e] else [].
Proof.
  apply (emitted_stateless singleTouchStart' (fun e => if opensSingle e then [e] else [])).
  intros e'. event_cases e'; reflexivity. Qed.

Lemma multipleTouchStart_emitted (es : list TouchEvent) (e : TouchEvent) :
  emitted multipleTouchStart' es e = if multiple e then [e] else [].
Proof.
  apply (emitted_stateless multipleTouchStart' (fun e => if multiple e then [e] else [])).
  intros e'. event_cases e'; reflexivity. Qed.

Lemma touchStop_emitted (es : list TouchEvent) (e : TouchEvent) :
  emitted touchStop' es e = if stops e then [e] else [].
Proof.
  apply (emitted_stateless touchStop' (fun e => if stops e then [e] else [])).
  intros e'. event_cases e'; reflexivity. Qed.

Lemma pinchStart_emitted (es : list TouchEvent) (e : TouchEvent) :
  emitted pinchStart' es e = if opensPinch e then [e] else [].
Proof.
  apply (emitted_stateless pinchStart' (fun e => if opensPinch e then [e] else [])).
  intros e'. event_cases e'; reflexivity. Qed.

Lemma pinchEnd_emitted (es : list TouchEvent) (e : TouchEvent) :
  emitted pinchEnd' es e = if closesPinch e then [e] else [].
Proof.
  apply (emitted_stateless pinchEnd' (fun e => if closesPinch e then [e] else [])).
  intros e'. event_cases e'; reflexivity. Qed.

(** *** The two predicates *)

Lemma oneTouch_twoTouches (e : TouchEvent) : oneTouch e && twoTouches e = false.
Proof.
  unfold oneTouch, twoTouches.
  destruct (touches e) as [|a [|b [|c ts]]]; cbn;
    rewrite ?andb_false_r; reflexivity.
Qed.

(** A start event of a single-touch session reports a contact: it is one of
    the events [multipleTouchStart$] emits, and ends the sessions before. *)
Lemma opensSingle_multiple (e : TouchEvent) :
  opensSingle e = true -> multiple e = true.
Proof.
  unfold opensSingle, multiple, oneTouch.
  destruct (isMove e), (touches e) as [|a [|b ts]]; try discriminate; reflexivity.
Qed.

Lemma opensPinch_multiple (e : TouchEvent) :
  opensPinch e = true -> multiple e = true.
Proof.
  unfold opensPinch, multiple, twoTouches.
  destruct (isMove e), (touches e) as [|a [|b [|c ts]]]; try discriminate; reflexivity.
Qed.

Lemma singleTouchStep_silent (cur : Window TouchMove) (e : TouchEvent) :
  isMove e && oneTouch e = false -> fst (singleTouchStep cur e) = [].
Proof.
  unfold singleTouchStep.
  destruct (isMove e), cur as [[[e0 acc] n]|], (oneTouch e);
    try destruct (stops e || multiple e); try discriminate; reflexivity.
Qed.

Lemma pinchChangeStep_silent (cur : Window IPinch) (e : TouchEvent) :
  isMove e && twoTouches e = false -> fst (pinchChangeStep cur e) = [].
Proof.
  unfold pinchChangeStep.
  destruct (isMove e), cur as [[[e0 acc] n]|], (twoTouches e);
    try discriminate; reflexivity.
Qed.

Lemma singleTouch_after (es : list TouchEvent) :
  after _singleTouch' es = Active (singleTouchSub (reach singleTouchStep None es)).
Proof.
  apply (after_reach _singleTouch' singleTouchSub None singleTouchStep);
    auto using singleTouch_dispatch, singleTouchStep_stays.
Qed.

(** The single-touch window and the pinch window are never both open. *)
Lemma windows_exclusive (es : list TouchEvent) :
  reach singleTouchStep None es = None \/ reach pinchChangeStep None es = None.
Proof.
  induction es as [|e es IH] using rev_ind; [now left|].
  rewrite !reach_app, !reach_cons. cbn [reach fold_left].
  generalize dependent (reach pinchChangeStep None es).
  generalize (reach singleTouchStep None es).
  intros single pinch IH. unfold advance, singleTouchStep, pinchChangeStep.
  pose proof (oneTouch_twoTouches e) as Hx.
  destruct (isMove e) eqn:Hm.
  - destruct IH as [-> | ->]; [now left | now right].
  - destruct (twoTouches e) eqn:H2; [|now right].
    left. rewrite andb_true_r in Hx. rewrite Hx.
    assert (Hmul : multiple e = true)
      by (apply opensPinch_multiple; unfold opensPinch; now rewrite Hm, H2).
    now rewrite Hmul, orb_true_r.
Qed.

(** ** C1: the move stream and the change stream never emit together *)

(** C1. After every history of raw touch events, during the dispatch of the
    next event at most one of the single-touch move stream and the pinch
    change stream delivers values: the events that feed the move stream
    report one active and one target-scoped contact, those that feed the
    change stream two of each, and no event does both.  Moreover the inner
    subscriptions of the two streams are never both alive. *)
Theorem single_move_and_pinch_change_exclusive :
  forall (es : list TouchEvent) (e : TouchEvent),
    (emitted singleTouchMove' es e = [] \/ emitted pinch' es e = [])
    /\ (emitted singleTouchMove' es e = [] \/ isMove e && oneTouch e = true)
    /\ (emitted pinch' es e = [] \/ isMove e && twoTouches e = true)
    /\ oneTouch e && twoTouches e = false
    /\ (exists (single : Window TouchMove) (pinch : Window IPinch),
          after _singleTouch' es = Active (singleTouchSub single)
          /\ after _pinchChange' es = Active (pinchChangeSub pinch)
          /\ (single = None \/ pinch = None)).
Proof.
  intros es e.
  assert (Hw : exists (single : Window TouchMove) (pinch : Window IPinch),
             after _singleTouch' es = Active (singleTouchSub single)
             /\ after _pinchChange' es = Active (pinchChangeSub pinch)
             /\ (single = None \/ pinch = None)).
  { exists (reach singleTouchStep None es), (reach pinchChangeStep None es).
    auto using singleTouch_after, pinchChange_after, windows_exclusive. }
  rewrite singleTouchMove_emitted, pinch_emitted.
  pose proof (oneTouch_twoTouches e) as Hx.
  pose proof (singleTouchStep_silent (reach singleTouchStep None es) e) as H1.
  pose proof (pinchChangeStep_silent (reach pinchChangeStep None es) e) as H2.
  destruct (isMove e), (oneTouch e), (twoTouches e); cbn in *;
    try discriminate; repeat split; auto.
Qed.

(** ** Sessions *)

(** A window opens on its start event whatever came before, and the move
    events that do not feed its fold leave it as it is. *)

Lemma reach_idle {T X : Type} (step : X -> TouchEvent -> list T * status X)
  (idle : TouchEvent -> bool) (x : X) (es : list TouchEvent) :
  (forall x e, idle e = true -> advance step x e = x) ->
  forallb idle es = true -> reach step x es = x.
Proof.
  intros Hidle. revert x. induction es as [|e es IH]; intros x H; cbn in *.
  - reflexivity.
  - apply andb_true_iff in H as [He Hes]. rewrite (Hidle x e He). now apply IH.
Qed.

Lemma reach_session {T X : Type} (step : X -> TouchEvent -> list T * status X)
  (idle : TouchEvent -> bool) (x x1 : X) (pre es : list TouchEvent) (e0 : TouchEvent) :
  (forall x e, idle e = true -> advance step x e = x) ->
  (forall x, advance step x e0 = x1) ->
  forallb idle es = true ->
  reach step x (pre ++ e0 :: es) = x1.
Proof.
  intros Hidle Hopen Hes. rewrite reach_app. cbn.
  rewrite Hopen. now apply (reach_idle step idle).
Qed.

Lemma singleTouch_idle (cur : Window TouchMove) (e : TouchEvent) :
  idleSingle e = true -> advance singleTouchStep cur e = cur.
Proof.
  unfold idleSingle, advance, singleTouchStep.
  destruct (isMove e), (oneTouch e), cur as [[[e0 acc] n]|]; try discriminate; reflexivity.
Qed.

Lemma singleTouch_opens (cur : Window TouchMove) (e0 : TouchEvent) :
  opensSingle e0 = true ->
  advance singleTouchStep cur e0 = Some (e0, TouchMove.new None, 1).
Proof.
  unfold opensSingle, advance, singleTouchStep.
  destruct (isMove e0), (oneTouch e0); try discriminate; reflexivity.
Qed.

Lemma pinchChange_idle (cur : Window IPinch) (e : TouchEvent) :
  idlePinch e = true -> advance pinchChangeStep cur e = cur.
Proof.
  unfold idlePinch, advance, pinchChangeStep.
  destruct (isMove e), (twoTouches e), cur as [[[e0 acc] n]|]; try discriminate; reflexivity.
Qed.

Lemma pinchChange_opens (cur : Window IPinch) (e0 : TouchEvent) :
  opensPinch e0 = true ->
  advance pinchChangeStep cur e0 = Some (e0, pinchSeed, 1).
Proof.
  unfold opensPinch, advance, pinchChangeStep.
  destruct (isMove e0), (twoTouches e0); try discriminate; reflexivity.
Qed.

Lemma singleTouchMoveStart_idle (pending : list TouchEvent) (e : TouchEvent) :
  idleSingle e = true -> advance singleTouchMoveStartStep pending e = pending.
Proof.
  unfold idleSingle, advance, singleTouchMoveStartStep.
  destruct (isMove e), (oneTouch e); try discriminate; reflexivity.
Qed.

Lemma singleTouchMoveStart_opens (pending : list TouchEvent) (e0 : TouchEvent) :
  opensSingle e0 = true -> advance singleTouchMoveStartStep pending e0 = [e0].
Proof.
  intros H. pose proof (opensSingle_multiple e0 H) as Hm. revert H.
  unfold opensSingle, advance, singleTouchMoveStartStep.
  rewrite Hm, orb_true_r.
  destruct (isMove e0), (oneTouch e0); try discriminate; reflexivity.
Qed.

Lemma singleTouchMoveEnd_move (pending : list TouchEvent) (e : TouchEvent) :
  isMove e = true -> advance singleTouchMoveEndStep pending e = pending.
Proof. unfold advance, singleTouchMoveEndStep. now intros ->. Qed.

Lemma singleTouchMoveEnd_opens (pending : list TouchEvent) (e0 : TouchEvent) :
  opensSingle e0 = true -> advance singleTouchMoveEndStep pending e0 = [e0].
Proof.
  intros H. pose proof (opensSingle_multiple e0 H) as Hm. revert H.
  unfold opensSingle, advance, singleTouchMoveEndStep.
  rewrite Hm, orb_true_r.
  destruct (isMove e0), (oneTouch e0); try discriminate; reflexivity.
Qed.

(** ** C4: the first value of a session is not a move or a change *)

(** C4. In every session the first value of the fold is not delivered on the
    single-touch move stream nor on the pinch change stream.  Whatever the
    history, once an event has opened a single-touch window, the first move
    event that feeds the fold delivers nothing on the move stream, and
    delivers on the start stream the value computed from the seed; once an
    event has opened a pinch window, the first move event that feeds the
    pinch fold delivers nothing on the change stream. *)
Theorem session_seed_not_delivered :
  (forall (pre ign : list TouchEvent) (e0 m : TouchEvent),
      opensSingle e0 = true ->
      forallb idleSingle ign = true ->
      feedsSingle m = true ->
      emitted singleTouchMove' (pre ++ e0 :: ign) m = []
      /\ exists first : TouchMove,
          singleTouchMoveOperation m (TouchMove.new None) = Some first
          /\ emitted singleTouchMoveStart' (pre ++ e0 :: ign) m = [first])
  /\ (forall (pre ign : list TouchEvent) (e0 m : TouchEvent),
      opensPinch e0 = true ->
      forallb idlePinch ign = true ->
      feedsPinch m = true ->
      emitted pinch' (pre ++ e0 :: ign) m = []
      /\ exists first : IPinch, pinchOperation m pinchSeed = Some first).
Proof.
  split; intros pre ign e0 m Hopen Hign Hm.
  - apply andb_true_iff in Hm as [Hmove Hone].
    destruct (singleTouchMoveOperation_defined m (TouchMove.new None) Hone) as [first Hf].
    rewrite singleTouchMove_emitted, singleTouchMoveStart_emitted.
    rewrite (reach_session singleTouchStep idleSingle None
               (Some (e0, TouchMove.new None, 1)) pre ign e0)
      by auto using singleTouch_idle, singleTouch_opens.
    rewrite (reach_session singleTouchMoveStartStep idleSingle [] [e0] pre ign e0)
      by auto using singleTouchMoveStart_idle, singleTouchMoveStart_opens.
    unfold singleTouchStep, singleTouchMoveStartStep.
    rewrite Hmove, Hone, Hf. cbn. eauto.
  - apply andb_true_iff in Hm as [Hmove Htwo].
    destruct (pinchOperation_defined m pinchSeed Htwo) as [first Hf].
    rewrite pinch_emitted.
    rewrite (reach_session pinchChangeStep idlePinch None
               (Some (e0, pinchSeed, 1)) pre ign e0)
      by auto using pinchChange_idle, pinchChange_opens.
    unfold pinchChangeStep. rewrite Hmove, Htwo, Hf. cbn. eauto.
Qed.

Lemma session_seed_not_delivered_witness :
  (emitted singleTouchMove' ([] ++ Examples.down1 :: []) Examples.move1 = []
   /\ exists first : TouchMove,
       singleTouchMoveOperation Examples.move1 (TouchMove.new None) = Some first
       /\ emitted singleTouchMoveStart' ([] ++ Examples.down1 :: []) Examples.move1
          = [first])
  /\ (emitted pinch' ([] ++ Examples.pinchDown :: []) Examples.pinchMove = []
      /\ exists first : IPinch,
          pinchOperation Examples.pinchMove pinchSeed = Some first).
Proof.
  split.
  - apply (proj1 session_seed_not_delivered [] [] Examples.down1 Examples.move1);
      reflexivity.
  - apply (proj2 session_seed_not_delivered [] [] Examples.pinchDown Examples.pinchMove);
      reflexivity.
Defined.

(** ** C6: a second contact ends the single-touch session and starts a pinch *)

(** C6 (as amended). When, in an open single-touch window (opened by [e0],
    with nothing but move events since), an event that is not a move reports
    two active contacts, both of them target-scoped, the single-touch end
    stream emits that event and the pinch-start stream emits it too. *)
Theorem second_contact_ends_single_starts_pinch :
  forall (pre moves : list TouchEvent) (e0 e : TouchEvent),
    opensSingle e0 = true ->
    forallb isMove moves = true ->
    opensPinch e = true ->
    emitted singleTouchMoveEnd' (pre ++ e0 :: moves) e = [e]
    /\ emitted pinchStart' (pre ++ e0 :: moves) e = [e].
Proof.
  intros pre moves e0 e Hopen Hmoves He.
  rewrite singleTouchMoveEnd_emitted, pinchStart_emitted, He.
  rewrite (reach_session singleTouchMoveEndStep isMove [] [e0] pre moves e0)
    by auto using singleTouchMoveEnd_move, singleTouchMoveEnd_opens.
  pose proof (opensPinch_multiple e He) as Hm. revert He.
  unfold opensPinch, singleTouchMoveEndStep. rewrite Hm, orb_true_r.
  destruct (isMove e); [discriminate | auto].
Qed.

Lemma second_contact_ends_single_starts_pinch_witness :
  emitted singleTouchMoveEnd' ([] ++ Examples.down1 :: [Examples.move1]) Examples.down2
  = [Examples.down2]
  /\ emitted pinchStart' ([] ++ Examples.down1 :: [Examples.move1]) Examples.down2
     = [Examples.down2].
Proof.
  apply (second_contact_ends_single_starts_pinch
           [] [Examples.move1] Examples.down1 Examples.down2);
    reflexivity.
Defined.

(** C6 as stated fails: a second contact that is not target-scoped
    (two active contacts, one on the target) ends the single-touch session,
    and the pinch-start stream does not emit the event. *)
Lemma second_contact_off_target_starts_no_pinch :
  opensSingle Examples.down1 = true
  /\ length (touches Examples.down2_elsewhere) = 2
  /\ emitted singleTouchMoveEnd' [Examples.down1] Examples.down2_elsewhere
     = [Examples.down2_elsewhere]
  /\ emitted pinchStart' [Examples.down1] Examples.down2_elsewhere = [].
Proof. repeat split; reflexivity. Qed.

(** ** C7: the classes of an event overlap *)

(** C7 (as amended). What the classifying streams make of an event depends
    on the event alone, and the classes are not disjoint:
    [multipleTouchStart$] emits every start, end or cancel event that
    reports one or more active contacts, so it emits every event that
    [singleTouchStart$] or [_pinchStart$] emits.  [touchStop$] emits none of
    the events the other three emit, and no event passes both the one-touch
    and the two-touch filter.  An event none of the four emits is ignored. *)
Theorem touch_classes_overlap :
  forall (es : list TouchEvent) (e : TouchEvent),
    emitted singleTouchStart' es e = (if opensSingle e then [e] else [])
    /\ emitted pinchStart' es e = (if opensPinch e then [e] else [])
    /\ emitted touchStop' es e = (if stops e then [e] else [])
    /\ emitted multipleTouchStart' es e = (if multiple e then [e] else [])
    /\ multiple e = negb (isMove e) && (1 <=? length (touches e))
    /\ opensSingle e = multiple e && oneTouch e
    /\ opensPinch e = multiple e && twoTouches e
    /\ stops e && multiple e = false
    /\ stops e && oneTouch e = false
    /\ stops e && twoTouches e = false
    /\ oneTouch e && twoTouches e = false.
Proof.
  intros es e.
  rewrite singleTouchStart_emitted, pinchStart_emitted, touchStop_emitted,
    multipleTouchStart_emitted.
  repeat split; event_cases e; reflexivity.
Qed.

(** C7 as stated fails: the start event of a lone contact on the element is
    emitted by [singleTouchStart$] and by [multipleTouchStart$]. *)
Lemma single_start_is_multi_start :
  emitted singleTouchStart' [] Examples.down1 = [Examples.down1]
  /\ emitted multipleTouchStart' [] Examples.down1 = [Examples.down1].
Proof. split; reflexivity. Qed.

(** ** The folds *)

Lemma singleTouchMoveOperation_lone (m : TouchEvent) (t : Touch) (previous : TouchMove) :
  touches m = [t] ->
  singleTouchMoveOperation m previous
  = Some (TouchMove.set_movement (TouchMove.new (Some t))
            (Touch.pageX t - ToNumber (TouchMove.pageX previous))%float
            (Touch.pageY t - ToNumber (TouchMove.pageY previous))%float).
Proof. intros H. unfold singleTouchMoveOperation. now rewrite H. Qed.

Lemma singleTouchMove_fold (previous : TouchMove) (m : TouchEvent) :
  feedsSingle m = true ->
  dispatch _singleTouchMove' (subscribe _singleTouchMoveOperation', previous) m
  = match singleTouchMoveOperation m previous with
    | Some current => ([current], Active (subscribe _singleTouchMoveOperation', current))
    | None => ([], Errored)
    end.
Proof. event_cases m; try discriminate; reflexivity. Qed.

Lemma pinch_fold (previous : IPinch) (m : TouchEvent) :
  feedsPinch m = true ->
  dispatch _pinch' (subscribe _pinchOperation', previous) m
  = match pinchOperation m previous with
    | Some current => ([current], Active (subscribe _pinchOperation', current))
    | None => ([], Errored)
    end.
Proof. event_cases m; try discriminate; reflexivity. Qed.

Lemma In_skipn_singleton {A : Type} (n : nat) (x y : A) :
  In y (skipn n [x]) -> y = x /\ n = 0.
Proof.
  destruct n as [|n]; cbn.
  - intros [H | []]. auto.
  - destruct n; intros [].
Qed.

(** A move event in an open window. *)
Lemma singleTouch_advance_move (e0 m : TouchEvent) (acc : TouchMove) (n : nat) :
  isMove m = true ->
  advance singleTouchStep (Some (e0, acc, n)) m
  = if oneTouch m
    then match singleTouchMoveOperation m acc with
         | Some acc' => Some (e0, acc', n - 1)
         | None => Some (e0, acc, n)
         end
    else Some (e0, acc, n).
Proof.
  intros Hm. unfold advance, singleTouchStep. rewrite Hm.
  destruct (oneTouch m); [destruct (singleTouchMoveOperation m acc)|]; reflexivity.
Qed.

Lemma pinchChange_advance_move (e0 m : TouchEvent) (acc : IPinch) (n : nat) :
  isMove m = true ->
  advance pinchChangeStep (Some (e0, acc, n)) m
  = if twoTouches m
    then match pinchOperation m acc with
         | Some acc' => Some (e0, acc', n - 1)
         | None => Some (e0, acc, n)
         end
    else Some (e0, acc, n).
Proof.
  intros Hm. unfold advance, pinchChangeStep. rewrite Hm.
  destruct (twoTouches m); [destruct (pinchOperation m acc)|]; reflexivity.
Qed.

(** Within a window, move events keep it open, on the same start event,
    and never put back what was skipped. *)
Lemma singleTouch_moves (e0 : TouchEvent) (moves : list TouchEvent) :
  forallb isMove moves = true ->
  forall (acc : TouchMove) (n : nat),
  exists (acc' : TouchMove) (n' : nat),
    reach singleTouchStep (Some (e0, acc, n)) moves = Some (e0, acc', n') /\ n' <= n.
Proof.
  induction moves as [|m moves IH]; intros H acc n.
  - exists acc, n. split; [reflexivity | lia].
  - cbn [forallb] in H. apply andb_true_iff in H as [Hm H].
    rewrite reach_cons, (singleTouch_advance_move e0 m acc n Hm).
    destruct (oneTouch m); [destruct (singleTouchMoveOperation m acc) as [c|]|];
      try apply (IH H).
    destruct (IH H c (n - 1)) as (acc' & n' & -> & Hn).
    exists acc', n'. split; [reflexivity | lia].
Qed.

Lemma pinchChange_moves (e0 : TouchEvent) (moves : list TouchEvent) :
  forallb isMove moves = true ->
  forall (acc : IPinch) (n : nat),
  exists (acc' : IPinch) (n' : nat),
    reach pinchChangeStep (Some (e0, acc, n)) moves = Some (e0, acc', n') /\ n' <= n.
Proof.
  induction moves as [|m moves IH]; intros H acc n.
  - exists acc, n. split; [reflexivity | lia].
  - cbn [forallb] in H. apply andb_true_iff in H as [Hm H].
    rewrite reach_cons, (pinchChange_advance_move e0 m acc n Hm).
    destruct (twoTouches m); [destruct (pinchOperation m acc) as [c|]|];
      try apply (IH H).
    destruct (IH H c (n - 1)) as (acc' & n' & -> & Hn).
    exists acc', n'. split; [reflexivity | lia].
Qed.

(** The window after a start event, any moves, a feeding move [m1] and
    moves that do not feed: it holds the value computed at [m1], and
    nothing is left to skip. *)
Lemma singleTouch_second (pre moves idle : list TouchEvent) (e0 m1 : TouchEvent) :
  opensSingle e0 = true ->
  forallb isMove moves = true ->
  feedsSingle m1 = true ->
  forallb idleSingle idle = true ->
  exists previous d1 : TouchMove,
    singleTouchMoveOperation m1 previous = Some d1
    /\ reach singleTouchStep None (pre ++ e0 :: moves ++ m1 :: idle) = Some (e0, d1, 0).
Proof.
  intros Hopen Hmoves Hm1 Hidle.
  apply andb_true_iff in Hm1 as [Hmove Hone].
  rewrite reach_app, reach_cons, (singleTouch_opens _ e0 Hopen), reach_app.
  destruct (singleTouch_moves e0 moves Hmoves (TouchMove.new None) 1)
    as (acc & n & -> & Hn).
  destruct (singleTouchMoveOperation_defined m1 acc Hone) as [d1 Hd1].
  exists acc, d1. split; [exact Hd1|].
  rewrite reach_cons, (singleTouch_advance_move e0 m1 acc n Hmove), Hone, Hd1.
  replace (n - 1) with 0 by lia.
  apply (reach_idle singleTouchStep idleSingle); auto using singleTouch_idle.
Qed.

Lemma pinchChange_second (pre moves idle : list TouchEvent) (e0 m1 : TouchEvent) :
  opensPinch e0 = true ->
  forallb isMove moves = true ->
  feedsPinch m1 = true ->
  forallb idlePinch idle = true ->
  exists previous d1 : IPinch,
    pinchOperation m1 previous = Some d1
    /\ reach pinchChangeStep None (pre ++ e0 :: moves ++ m1 :: idle) = Some (e0, d1, 0).
Proof.
  intros Hopen Hmoves Hm1 Hidle.
  apply andb_true_iff in Hm1 as [Hmove Htwo].
  rewrite reach_app, reach_cons, (pinchChange_opens _ e0 Hopen), reach_app.
  destruct (pinchChange_moves e0 moves Hmoves pinchSeed 1) as (acc & n & -> & Hn).
  destruct (pinchOperation_defined m1 acc Htwo) as [d1 Hd1].
  exists acc, d1. split; [exact Hd1|].
  rewrite reach_cons, (pinchChange_advance_move e0 m1 acc n Hmove), Htwo, Hd1.
  replace (n - 1) with 0 by lia.
  apply (reach_idle pinchChangeStep idlePinch); auto using pinchChange_idle.
Qed.

(** Every value delivered on the move stream, or on the change stream, was
    computed by the operation of the event being dispatched, from the
    previous value of the session's fold. *)
Lemma singleTouchMove_computed (es : list TouchEvent) (m : TouchEvent) (d : TouchMove) :
  In d (emitted singleTouchMove' es m) ->
  feedsSingle m = true /\ exists previous, singleTouchMoveOperation m previous = Some d.
Proof.
  rewrite singleTouchMove_emitted.
  generalize (reach singleTouchStep None es). intros cur.
  unfold singleTouchStep, feedsSingle.
  destruct (isMove m), cur as [[[e0 acc] n]|], (oneTouch m);
    try destruct (stops m || multiple m); cbn; try tauto.
  all: destruct (singleTouchMoveOperation m acc) as [c|] eqn:Hc; cbn; try tauto.
  all: intros H; apply In_skipn_singleton in H as [-> _]; eauto.
Qed.

Lemma pinch_computed (es : list TouchEvent) (m : TouchEvent) (d : IPinch) :
  In d (emitted pinch' es m) ->
  feedsPinch m = true /\ exists previous, pinchOperation m previous = Some d.
Proof.
  rewrite pinch_emitted.
  generalize (reach pinchChangeStep None es). intros cur.
  unfold pinchChangeStep, feedsPinch.
  destruct (isMove m), cur as [[[e0 acc] n]|], (twoTouches m); cbn; try tauto.
  all: destruct (pinchOperation m acc) as [c|] eqn:Hc; cbn; try tauto.
  all: intros H; apply In_skipn_singleton in H as [-> _]; eauto.
Qed.

(** ** C3: the movement of a single touch *)

(** C3 (as amended). The movement of every value of the single-touch fold is
    the per-axis difference between the page position of the lone contact
    of the event and the page position of the previous value of the fold;
    the fold of a session starts from the seed, which has no page position.
    Within a session, a move event that follows a feeding move event is
    delivered on the move stream with the difference of the two contacts'
    page positions as movement.  In the session that starts with a contact
    at page (100,100), the first move event, at (100,100), is delivered on
    the start stream and not on the move stream, and the second, at
    (105,98), on the move stream with movement (5,-2). *)
Theorem single_touch_movement :
  (forall (previous : TouchMove) (m : TouchEvent) (t : Touch),
      feedsSingle m = true ->
      touches m = [t] ->
      exists current : TouchMove,
        dispatch _singleTouchMove' (subscribe _singleTouchMoveOperation', previous) m
        = ([current], Active (subscribe _singleTouchMoveOperation', current))
        /\ TouchMove.movementX current
           = (Touch.pageX t - ToNumber (TouchMove.pageX previous))%float
        /\ TouchMove.movementY current
           = (Touch.pageY t - ToNumber (TouchMove.pageY previous))%float
        /\ TouchMove.pageX current = Some (Touch.pageX t)
        /\ TouchMove.pageY current = Some (Touch.pageY t))
  /\ (forall (pre moves idle : list TouchEvent) (e0 m1 m2 : TouchEvent) (t1 t2 : Touch),
      opensSingle e0 = true ->
      forallb isMove moves = true ->
      feedsSingle m1 = true ->
      touches m1 = [t1] ->
      forallb idleSingle idle = true ->
      feedsSingle m2 = true ->
      touches m2 = [t2] ->
      exists current : TouchMove,
        emitted singleTouchMove' (pre ++ e0 :: moves ++ m1 :: idle) m2 = [current]
        /\ TouchMove.movementX current = (Touch.pageX t2 - Touch.pageX t1)%float
        /\ TouchMove.movementY current = (Touch.pageY t2 - Touch.pageY t1)%float
        /\ TouchMove.pageX current = Some (Touch.pageX t2)
        /\ TouchMove.pageY current = Some (Touch.pageY t2))
  /\ (forall (es : list TouchEvent) (m : TouchEvent) (t : Touch) (d : TouchMove),
      touches m = [t] ->
      In d (emitted singleTouchMove' es m) ->
      exists previous : TouchMove,
        TouchMove.movementX d
        = (Touch.pageX t - ToNumber (TouchMove.pageX previous))%float
        /\ TouchMove.movementY d
           = (Touch.pageY t - ToNumber (TouchMove.pageY previous))%float
        /\ TouchMove.pageX d = Some (Touch.pageX t)
        /\ TouchMove.pageY d = Some (Touch.pageY t))
  /\ (exists first : TouchMove,
        emitted singleTouchMoveStart' [Examples.down1] Examples.move1 = [first]
        /\ TouchMove.pageX first = Some 100%float
        /\ TouchMove.pageY first = Some 100%float)
  /\ emitted singleTouchMove' [Examples.down1] Examples.move1 = []
  /\ (exists second : TouchMove,
        emitted singleTouchMove' [Examples.down1; Examples.move1] Examples.move1'
        = [second]
        /\ TouchMove.movementX second = 5%float
        /\ TouchMove.movementY second = (-2)%float).
Proof.
  split; [|split; [|split; [|split; [|split]]]].
  - intros previous m t Hm Ht.
    rewrite (singleTouchMove_fold previous m Hm),
      (singleTouchMoveOperation_lone m t previous Ht).
    eexists. repeat split.
  - intros pre moves idle e0 m1 m2 t1 t2 Hopen Hmoves Hm1 Ht1 Hidle Hm2 Ht2.
    destruct (singleTouch_second pre moves idle e0 m1 Hopen Hmoves Hm1 Hidle)
      as (previous & d1 & Hd1 & Hreach).
    rewrite singleTouchMove_emitted, Hreach.
    rewrite (singleTouchMoveOperation_lone m1 t1 previous Ht1) in Hd1.
    injection Hd1 as <-.
    apply andb_true_iff in Hm2 as [Hmove Hone].
    unfold singleTouchStep.
    rewrite Hmove, Hone, (singleTouchMoveOperation_lone m2 t2 _ Ht2).
    eexists. repeat split.
  - intros es m t d Ht Hd.
    destruct (singleTouchMove_computed es m d Hd) as (_ & previous & Hop).
    rewrite (singleTouchMoveOperation_lone m t previous Ht) in Hop.
    injection Hop as <-. exists previous. repeat split.
  - eexists. repeat split.
  - reflexivity.
  - eexists. repeat split.
Qed.

Lemma single_touch_movement_witness :
  (exists current : TouchMove,
      dispatch _singleTouchMove'
        (subscribe _singleTouchMoveOperation', TouchMove.new (Some Examples.finger1))
        Examples.move1'
      = ([current], Active (subscribe _singleTouchMoveOperation', current))
      /\ TouchMove.movementX current = (105 - 100)%float
      /\ TouchMove.movementY current = (98 - 100)%float
      /\ TouchMove.pageX current = Some 105%float
      /\ TouchMove.pageY current = Some 98%float)
  /\ (exists current : TouchMove,
      emitted singleTouchMove'
        ([] ++ Examples.down1 :: [] ++ Examples.move1 :: []) Examples.move1'
      = [current]
      /\ TouchMove.movementX current = (105 - 100)%float
      /\ TouchMove.movementY current = (98 - 100)%float
      /\ TouchMove.pageX current = Some 105%float
      /\ TouchMove.pageY current = Some 98%float)
  /\ (let d :=
        hd (TouchMove.new None)
          (emitted singleTouchMove' [Examples.down1; Examples.move1] Examples.move1') in
      exists previous : TouchMove,
        TouchMove.movementX d = (105 - ToNumber (TouchMove.pageX previous))%float
        /\ TouchMove.movementY d = (98 - ToNumber (TouchMove.pageY previous))%float
        /\ TouchMove.pageX d = Some 105%float
        /\ TouchMove.pageY d = Some 98%float).
Proof.
  split; [|split].
  - apply (proj1 single_touch_movement
             (TouchMove.new (Some Examples.finger1)) Examples.move1' Examples.finger1');
      reflexivity.
  - apply (proj1 (proj2 single_touch_movement)
             [] [] [] Examples.down1 Examples.move1 Examples.move1'
             Examples.finger1 Examples.finger1');
      reflexivity.
  - exact (proj1 (proj2 (proj2 single_touch_movement))
             [Examples.down1; Examples.move1] Examples.move1' Examples.finger1' _
             eq_refl (or_introl eq_refl)).
Defined.

(** C3 as stated fails: the start event of the session, computed from the
    seed, which has no page position, has a movement that is not a number,
    and not (0,0). *)
Lemma start_event_movement_is_not_zero :
  exists first : TouchMove,
    emitted singleTouchMoveStart' [Examples.down1] Examples.move1 = [first]
    /\ TouchMove.pageX first = Some 100%float
    /\ TouchMove.pageY first = Some 100%float
    /\ TouchMove.movementX first = nan
    /\ TouchMove.movementY first = nan
    /\ TouchMove.movementX first <> 0%float
    /\ TouchMove.movementY first <> 0%float.
Proof.
  eexists. repeat split; cbn; apply JsFacts.nan_neq; reflexivity.
Qed.

(** ** The pinch operation *)

Lemma pinchOperation_change (m : TouchEvent) (previous d : IPinch) :
  pinchOperation m previous = Some d ->
  IPinch.distanceChange d = (IPinch.distance d - IPinch.distance previous)%float
  /\ IPinch.changeX d = (IPinch.distanceX d - IPinch.distanceX previous)%float
  /\ IPinch.changeY d = (IPinch.distanceY d - IPinch.distanceY previous)%float.
Proof.
  unfold pinchOperation.
  destruct (nth_error (touches m) 0), (nth_error (touches m) 1); try discriminate.
  intros [= <-]. repeat split.
Qed.

Lemma pinchOperation_first (m : TouchEvent) (d : IPinch) :
  pinchOperation m pinchSeed = Some d ->
  IPinch.distanceChange d = IPinch.distance d
  /\ IPinch.changeX d = IPinch.distanceX d
  /\ IPinch.changeY d = IPinch.distanceY d.
Proof.
  intros H. destruct (pinchOperation_change m pinchSeed d H) as (-> & -> & ->).
  cbn [pinchSeed IPinch.distance IPinch.distanceX IPinch.distanceY].
  now rewrite !JsFacts.sub_zero_r.
Qed.

(** ** C5: the first descriptor of a pinch session *)

(** C5. The fold of a pinch session starts from the all-zero seed: the
    first descriptor of the session, computed at the first move event that
    feeds the fold after the start event, has a distance change equal to
    its distance, and changes on X and Y equal to its distances on X and Y.
    Every descriptor computed later in the session, at a feeding move event
    [m2] that follows a feeding move event [m1], is delivered on the change
    stream, and its distance change is its distance minus the distance of
    the descriptor computed at [m1]; likewise on X and Y.  The same holds
    at the level of the fold [_pinch$]: a new subscription starts from the
    seed, and each value is computed from, and replaces, the previous. *)
Theorem pinch_change_against_previous :
  (forall (pre idle : list TouchEvent) (e0 m1 : TouchEvent),
      opensPinch e0 = true ->
      forallb idlePinch idle = true ->
      feedsPinch m1 = true ->
      exists first : IPinch,
        after _pinchChange' (pre ++ e0 :: idle ++ [m1])
        = Active (pinchChangeSub (Some (e0, first, 0)))
        /\ pinchOperation m1 pinchSeed = Some first
        /\ IPinch.distanceChange first = IPinch.distance first
        /\ IPinch.changeX first = IPinch.distanceX first
        /\ IPinch.changeY first = IPinch.distanceY first)
  /\ (forall (pre moves idle : list TouchEvent) (e0 m1 m2 : TouchEvent),
      opensPinch e0 = true ->
      forallb isMove moves = true ->
      feedsPinch m1 = true ->
      forallb idlePinch idle = true ->
      feedsPinch m2 = true ->
      exists d0 d1 d2 : IPinch,
        pinchOperation m1 d0 = Some d1
        /\ pinchOperation m2 d1 = Some d2
        /\ emitted pinch' (pre ++ e0 :: moves ++ m1 :: idle) m2 = [d2]
        /\ IPinch.distanceChange d2 = (IPinch.distance d2 - IPinch.distance d1)%float
        /\ IPinch.changeX d2 = (IPinch.distanceX d2 - IPinch.distanceX d1)%float
        /\ IPinch.changeY d2 = (IPinch.distanceY d2 - IPinch.distanceY d1)%float)
  /\ (forall (previous : IPinch) (m : TouchEvent),
      feedsPinch m = true ->
      exists current : IPinch,
        dispatch _pinch' (subscribe _pinchOperation', previous) m
        = ([current], Active (subscribe _pinchOperation', current))
        /\ IPinch.distanceChange current
           = (IPinch.distance current - IPinch.distance previous)%float
        /\ IPinch.changeX current
           = (IPinch.distanceX current - IPinch.distanceX previous)%float
        /\ IPinch.changeY current
           = (IPinch.distanceY current - IPinch.distanceY previous)%float)
  /\ subscribe _pinch' = (subscribe _pinchOperation', pinchSeed).
Proof.
  split; [|split; [|split]].
  - intros pre idle e0 m1 Hopen Hidle Hm1.
    apply andb_true_iff in Hm1 as [Hmove Htwo].
    destruct (pinchOperation_defined m1 pinchSeed Htwo) as [first Hf].
    exists first. split; [|split; [exact Hf | exact (pinchOperation_first m1 first Hf)]].
    replace (pre ++ e0 :: idle ++ [m1]) with ((pre ++ e0 :: idle) ++ [m1])
      by (rewrite <- app_assoc; reflexivity).
    rewrite pinchChange_after, reach_app.
    rewrite (reach_session pinchChangeStep idlePinch None
               (Some (e0, pinchSeed, 1)) pre idle e0)
      by auto using pinchChange_idle, pinchChange_opens.
    rewrite reach_cons, (pinchChange_advance_move e0 m1 pinchSeed 1 Hmove), Htwo, Hf.
    reflexivity.
  - intros pre moves idle e0 m1 m2 Hopen Hmoves Hm1 Hidle Hm2.
    destruct (pinchChange_second pre moves idle e0 m1 Hopen Hmoves Hm1 Hidle)
      as (d0 & d1 & Hd1 & Hreach).
    apply andb_true_iff in Hm2 as [Hmove Htwo].
    destruct (pinchOperation_defined m2 d1 Htwo) as [d2 Hd2].
    exists d0, d1, d2. split; [exact Hd1 | split; [exact Hd2 | split]].
    + rewrite pinch_emitted, Hreach. unfold pinchChangeStep.
      now rewrite Hmove, Htwo, Hd2.
    + exact (pinchOperation_change m2 d1 d2 Hd2).
  - intros previous m Hm. rewrite (pinch_fold previous m Hm).
    apply andb_true_iff in Hm as [_ Htwo].
    destruct (pinchOperation_defined m previous Htwo) as [current Hc].
    rewrite Hc. exists current. split; [reflexivity|].
    exact (pinchOperation_change m previous current Hc).
  - reflexivity.
Qed.

Lemma pinch_change_against_previous_witness :
  (exists first : IPinch,
      after _pinchChange' ([] ++ Examples.pinchDown :: [] ++ [Examples.pinchMove])
      = Active (pinchChangeSub (Some (Examples.pinchDown, first, 0)))
      /\ pinchOperation Examples.pinchMove pinchSeed = Some first
      /\ IPinch.distanceChange first = IPinch.distance first
      /\ IPinch.changeX first = IPinch.distanceX first
      /\ IPinch.changeY first = IPinch.distanceY first)
  /\ (exists d0 d1 d2 : IPinch,
      pinchOperation Examples.pinchMove d0 = Some d1
      /\ pinchOperation Examples.pinchMove' d1 = Some d2
      /\ emitted pinch' ([] ++ Examples.pinchDown :: [] ++ Examples.pinchMove :: [])
           Examples.pinchMove'
         = [d2]
      /\ IPinch.distanceChange d2 = (IPinch.distance d2 - IPinch.distance d1)%float
      /\ IPinch.changeX d2 = (IPinch.distanceX d2 - IPinch.distanceX d1)%float
      /\ IPinch.changeY d2 = (IPinch.distanceY d2 - IPinch.distanceY d1)%float).
Proof.
  split.
  - apply (proj1 pinch_change_against_previous
             [] [] Examples.pinchDown Examples.pinchMove);
      reflexivity.
  - apply (proj1 (proj2 pinch_change_against_previous)
             [] [] [] Examples.pinchDown Examples.pinchMove Examples.pinchMove');
      reflexivity.
Defined.

(** The second frame of the example: B moves from (10,0) to (20,0). *)
Example pinch_second_frame :
  exists d : IPinch,
    emitted pinch' [Examples.pinchDown; Examples.pinchMove] Examples.pinchMove' = [d]
    /\ IPinch.distance d = 20%float
    /\ IPinch.distanceChange d = 10%float.
Proof. eexists. repeat split. Qed.

(** ** C2: the geometry of a descriptor *)

Lemma pinchOperation_geometry (m : TouchEvent) (A B : Touch) (previous d : IPinch) :
  touches m = [A; B] ->
  pinchOperation m previous = Some d ->
  let minX := Math_min (Touch.clientX A) (Touch.clientX B) in
  let maxX := Math_max (Touch.clientX A) (Touch.clientX B) in
  let minY := Math_min (Touch.clientY A) (Touch.clientY B) in
  let maxY := Math_max (Touch.clientY A) (Touch.clientY B) in
  IPinch.clientX d = (minX + (maxX - minX) / 2)%float
  /\ IPinch.clientY d = (minY + (maxY - minY) / 2)%float
  /\ IPinch.pageX d = (IPinch.clientX d + Touch.pageX A - Touch.clientX A)%float
  /\ IPinch.pageY d = (IPinch.clientY d + Touch.pageY A - Touch.clientY A)%float
  /\ IPinch.screenX d = (IPinch.clientX d + Touch.screenX A - Touch.clientX A)%float
  /\ IPinch.screenY d = (IPinch.clientY d + Touch.screenY A - Touch.clientY A)%float
  /\ IPinch.distanceX d = Math_abs (Touch.clientX A - Touch.clientX B)%float
  /\ IPinch.distanceY d = Math_abs (Touch.clientY A - Touch.clientY B)%float
  /\ IPinch.distance d
     = Math_sqrt (IPinch.distanceX d * IPinch.distanceX d
                  + IPinch.distanceY d * IPinch.distanceY d)%float.
Proof.
  intros Ht. unfold pinchOperation. rewrite Ht. cbn [nth_error].
  intros [= <-]. repeat split.
Qed.

(** C2. For every move event with the two contacts A and B, every
    descriptor delivered on the change stream has, as client-space center,
    on each axis the smaller of the two client coordinates plus half of the
    difference between the larger and the smaller (the midpoint of the
    bounding box); as page-space and screen-space centers, the client-space
    center plus the page (screen) coordinate of A minus the client
    coordinate of A; as distances on X and Y, the absolute differences of
    the client coordinates; and as distance, the square root of the sum of
    their squares.  The same holds of every descriptor the operation
    computes, delivered or skipped.  With A at (0,0) and B at (10,0):
    distance 10, distance on X 10, on Y 0, center (5,0). *)
Theorem pinch_descriptor_geometry :
  (forall (es : list TouchEvent) (m : TouchEvent) (A B : Touch) (d : IPinch),
      touches m = [A; B] ->
      In d (emitted pinch' es m) ->
      let minX := Math_min (Touch.clientX A) (Touch.clientX B) in
      let maxX := Math_max (Touch.clientX A) (Touch.clientX B) in
      let minY := Math_min (Touch.clientY A) (Touch.clientY B) in
      let maxY := Math_max (Touch.clientY A) (Touch.clientY B) in
      IPinch.clientX d = (minX + (maxX - minX) / 2)%float
      /\ IPinch.clientY d = (minY + (maxY - minY) / 2)%float
      /\ IPinch.pageX d = (IPinch.clientX d + Touch.pageX A - Touch.clientX A)%float
      /\ IPinch.pageY d = (IPinch.clientY d + Touch.pageY A - Touch.clientY A)%float
      /\ IPinch.screenX d = (IPinch.clientX d + Touch.screenX A - Touch.clientX A)%float
      /\ IPinch.screenY d = (IPinch.clientY d + Touch.screenY A - Touch.clientY A)%float
      /\ IPinch.distanceX d = Math_abs (Touch.clientX A - Touch.clientX B)%float
      /\ IPinch.distanceY d = Math_abs (Touch.clientY A - Touch.clientY B)%float
      /\ IPinch.distance d
         = Math_sqrt (IPinch.distanceX d * IPinch.distanceX d
                      + IPinch.distanceY d * IPinch.distanceY d)%float)
  /\ (forall (m : TouchEvent) (A B : Touch) (previous : IPinch),
      touches m = [A; B] ->
      exists d : IPinch,
        pinchOperation m previous = Some d
        /\ IPinch.clientX d
           = (Math_min (Touch.clientX A) (Touch.clientX B)
              + (Math_max (Touch.clientX A) (Touch.clientX B)
                 - Math_min (Touch.clientX A) (Touch.clientX B)) / 2)%float
        /\ IPinch.clientY d
           = (Math_min (Touch.clientY A) (Touch.clientY B)
              + (Math_max (Touch.clientY A) (Touch.clientY B)
                 - Math_min (Touch.clientY A) (Touch.clientY B)) / 2)%float
        /\ IPinch.distanceX d = Math_abs (Touch.clientX A - Touch.clientX B)%float
        /\ IPinch.distanceY d = Math_abs (Touch.clientY A - Touch.clientY B)%float
        /\ IPinch.distance d
           = Math_sqrt (IPinch.distanceX d * IPinch.distanceX d
                        + IPinch.distanceY d * IPinch.distanceY d)%float)
  /\ (exists d : IPinch,
        emitted pinch' [Examples.pinchDown; Examples.pinchMove] Examples.pinchMove = [d]
        /\ IPinch.distance d = 10%float
        /\ IPinch.distanceX d = 10%float
        /\ IPinch.distanceY d = 0%float
        /\ IPinch.clientX d = 5%float
        /\ IPinch.clientY d = 0%float).
Proof.
  split; [|split].
  - intros es m A B d Ht Hd.
    destruct (pinch_computed es m d Hd) as (_ & previous & Hop).
    exact (pinchOperation_geometry m A B previous d Ht Hop).
  - intros m A B previous Ht.
    unfold pinchOperation. rewrite Ht. cbn [nth_error].
    eexists. repeat split.
  - eexists. repeat split.
Qed.

Lemma pinch_descriptor_geometry_witness :
  let d :=
    hd pinchSeed
      (emitted pinch' [Examples.pinchDown; Examples.pinchMove] Examples.pinchMove) in
  IPinch.clientX d = 5%float
  /\ IPinch.clientY d = 0%float
  /\ IPinch.pageX d = 5%float
  /\ IPinch.pageY d = 0%float
  /\ IPinch.screenX d = 5%float
  /\ IPinch.screenY d = 0%float
  /\ IPinch.distanceX d = 10%float
  /\ IPinch.distanceY d = 0%float
  /\ IPinch.distance d = 10%float.
Proof.
  exact (proj1 pinch_descriptor_geometry
           [Examples.pinchDown; Examples.pinchMove] Examples.pinchMove
           Examples.pinchA Examples.pinchB _ eq_refl (or_introl eq_refl)).
Defined.

(** ** C10: the order of the two contacts *)

(** The fields of a descriptor that do not depend on which contact comes
    first. *)
Lemma pinchOperation_swap (ty : TouchEventType) (A B : Touch)
  (tts tts' : list Touch) (previous : IPinch) :
  exists d d' : IPinch,
    pinchOperation {| type := ty; touches := [A; B]; targetTouches := tts |} previous
    = Some d
    /\ pinchOperation {| type := ty; touches := [B; A]; targetTouches := tts' |} previous
       = Some d'
    /\ IPinch.clientX d' = IPinch.clientX d
    /\ IPinch.clientY d' = IPinch.clientY d
    /\ IPinch.distanceX d' = IPinch.distanceX d
    /\ IPinch.distanceY d' = IPinch.distanceY d
    /\ IPinch.distance d' = IPinch.distance d
    /\ IPinch.distanceChange d' = IPinch.distanceChange d
    /\ IPinch.changeX d' = IPinch.changeX d
    /\ IPinch.changeY d' = IPinch.changeY d.
Proof.
  unfold pinchOperation. cbn [touches nth_error].
  do 2 eexists. split; [reflexivity | split; [reflexivity|]].
  cbn [IPinch.clientX IPinch.clientY IPinch.distanceX IPinch.distanceY
       IPinch.distance IPinch.distanceChange IPinch.changeX IPinch.changeY].
  unfold Math_abs.
  rewrite (JsFacts.Math_min_comm (Touch.clientX B)),
    (JsFacts.Math_max_comm (Touch.clientX B)),
    (JsFacts.Math_min_comm (Touch.clientY B)),
    (JsFacts.Math_max_comm (Touch.clientY B)),
    (JsFacts.abs_sub_comm (Touch.clientX B)),
    (JsFacts.abs_sub_comm (Touch.clientY B)).
  repeat split.
Qed.

(** C10. Swapping the two contacts of a two-touch move event leaves the
    client-space center, the distances on X and Y, the distance and the
    changes of the computed descriptor as they are, whatever the previous
    descriptor; hence, after any history, the change stream delivers
    descriptors that agree on these fields for the event and for the
    swapped event.  The page-space center need not be the same: it is the
    client-space center moved by the offset of the first contact, and with
    a second contact whose page offset is 5 more on X, the page-space
    centers are 5 and 10. *)
Theorem pinch_invariant_under_swap :
  (forall (ty : TouchEventType) (A B : Touch) (tts tts' : list Touch)
          (previous : IPinch),
      exists d d' : IPinch,
        pinchOperation {| type := ty; touches := [A; B]; targetTouches := tts |} previous
        = Some d
        /\ pinchOperation {| type := ty; touches := [B; A]; targetTouches := tts' |}
             previous
           = Some d'
        /\ IPinch.clientX d' = IPinch.clientX d
        /\ IPinch.clientY d' = IPinch.clientY d
        /\ IPinch.distanceX d' = IPinch.distanceX d
        /\ IPinch.distanceY d' = IPinch.distanceY d
        /\ IPinch.distance d' = IPinch.distance d
        /\ IPinch.distanceChange d' = IPinch.distanceChange d
        /\ IPinch.changeX d' = IPinch.changeX d
        /\ IPinch.changeY d' = IPinch.changeY d)
  /\ (forall (es : list TouchEvent) (ty : TouchEventType) (A B : Touch)
             (tts : list Touch),
      let fields (d : IPinch) :=
        (IPinch.clientX d, IPinch.clientY d, IPinch.distanceX d, IPinch.distanceY d,
         IPinch.distance d, IPinch.distanceChange d) in
      List.map fields
        (emitted pinch' es {| type := ty; touches := [B; A]; targetTouches := tts |})
      = List.map fields
          (emitted pinch' es {| type := ty; touches := [A; B]; targetTouches := tts |}))
  /\ (exists d d' : IPinch,
        pinchOperation (Examples.event touchmove
                          [Examples.contact 0 0; Examples.scrolled 10 0 5 0]) pinchSeed
        = Some d
        /\ pinchOperation (Examples.event touchmove
                             [Examples.scrolled 10 0 5 0; Examples.contact 0 0]) pinchSeed
           = Some d'
        /\ IPinch.clientX d = 5%float /\ IPinch.clientX d' = 5%float
        /\ IPinch.pageX d = 5%float /\ IPinch.pageX d' = 10%float).
Proof.
  split; [exact pinchOperation_swap | split].
  - intros es ty A B tts fields. rewrite !pinch_emitted.
    generalize (reach pinchChangeStep None es). intros cur.
    unfold pinchChangeStep, isMove, twoTouches. cbn [type touches targetTouches].
    change (length [B; A] =? 2) with true. change (length [A; B] =? 2) with true.
    cbn [andb].
    destruct (TouchEventType_eqb ty touchmove), (length tts =? 2),
      cur as [[[e0 acc] n]|]; try reflexivity.
    destruct (pinchOperation_swap ty A B tts tts acc)
      as (d & d' & -> & -> & Hcx & Hcy & Hdx & Hdy & Hd & Hdc & _).
    destruct n as [|[|n]]; cbn; [|reflexivity..].
    unfold fields. now rewrite Hcx, Hcy, Hdx, Hdy, Hd, Hdc.
  - do 2 eexists. repeat split.
Qed.

(** ** C8: the zoom of a wheel event *)

(** C8. For every wheel event the subscriber handles, the zoom passed to
    [zoomIn] is -3 times the normalized [deltaY] divided by the height of
    the element, where [deltaY] is multiplied by 40 in line mode, by 800 in
    page mode, and left as it is in pixel mode.  Three lines on an element
    600 pixels high: normalized 120, zoom -0.6 (the binary64 number closest
    to it, which is what the JavaScript literal denotes). *)
Theorem wheel_zoom :
  (forall (HTMLElement Perspective Transform Vector3 Basic : Type)
          (offsetWidth offsetHeight : HTMLElement -> number)
          (canvasPosition : ScrollZoomHandler.WheelEvent -> HTMLElement -> number * number)
          (unprojectFromCanvas :
             number -> number -> number -> number -> Perspective -> Vector3)
          (projectBasic : Transform -> Vector3 -> Basic)
          (element : HTMLElement) (event : ScrollZoomHandler.WheelEvent)
          (perspective : Perspective) (transform : Transform),
      ScrollZoomHandler.zoom
        (ScrollZoomHandler.subscriber offsetWidth offsetHeight canvasPosition
           unprojectFromCanvas projectBasic element event perspective transform)
      = (-3 * ScrollZoomHandler.normalizedDeltaY event / offsetHeight element)%float)
  /\ (forall deltaY : number,
      ScrollZoomHandler.normalizedDeltaY
        {| ScrollZoomHandler.deltaY := deltaY; ScrollZoomHandler.deltaMode := 1 |}
      = (40 * deltaY)%float)
  /\ (forall deltaY : number,
      ScrollZoomHandler.normalizedDeltaY
        {| ScrollZoomHandler.deltaY := deltaY; ScrollZoomHandler.deltaMode := 2 |}
      = (800 * deltaY)%float)
  /\ (forall deltaY : number,
      ScrollZoomHandler.normalizedDeltaY
        {| ScrollZoomHandler.deltaY := deltaY; ScrollZoomHandler.deltaMode := 0 |}
      = deltaY)
  /\ ScrollZoomHandler.normalizedDeltaY Examples.wheel = 120%float
  /\ ScrollZoomHandler.zoom
       (ScrollZoomHandler.subscriber
          (fun _ : unit => 800%float) (fun _ : unit => 600%float)
          (fun _ _ => (400%float, 300%float))
          (fun _ _ _ _ (_ : unit) => tt) (fun (_ : unit) _ => tt)
          tt Examples.wheel tt tt)
     = (-0x1.3333333333333p-1)%float.
Proof.
  repeat split.
  intros. unfold ScrollZoomHandler.subscriber.
  destruct (canvasPosition event element). reflexivity.
Qed.

(** ** C9: the activation flag *)

Module ActivationFacts.

Import Activation.

Lemma distinct_snoc (earlier : list bool) (a b : bool) :
  distinct (earlier ++ [a]) = true ->
  Bool.eqb a b = false ->
  distinct ((earlier ++ [a]) ++ [b]) = true.
Proof.
  intros H Hab. induction earlier as [|x [|y rest] IH].
  - cbn. now rewrite Hab.
  - cbn in *. now rewrite Hab, andb_true_r in *.
  - cbn [app distinct] in *.
    apply andb_true_iff in H as [Hxy H]. rewrite Hxy. now apply IH.
Qed.

Lemma consistent_init : consistent init.
Proof. split; reflexivity. Qed.

Lemma consistent_next (s : State) (v : bool) : consistent s -> consistent (next v s).
Proof.
  unfold consistent, next, distinctUntilChanged. cbn.
  destruct (connection s) as [key|]; cbn; [|tauto].
  intros (-> & Hb & Hf). cbn.
  destruct (Bool.eqb (value s) v) eqn:E; cbn.
  - apply eqb_prop in E. subst v. auto.
  - repeat split. apply Forall_map. revert Hf. apply Forall_impl.
    intros received (Hd & earlier & ->). split; [|eauto].
    now apply distinct_snoc.
Qed.

Lemma consistent_subscribe (s : State) : consistent s -> consistent (subscribe s).
Proof.
  unfold consistent, subscribe, distinctUntilChanged. cbn.
  destruct (connection s) as [key|]; cbn.
  - intros (-> & -> & Hf). repeat split.
    apply Forall_app. split; [exact Hf|].
    constructor; [|constructor]. split; [reflexivity | now exists []].
  - intros (-> & ->). cbn. repeat split.
    constructor; [|constructor]. split; [reflexivity | now exists []].
Qed.

Lemma consistent_run (cs : list Call) (s : State) : consistent s -> consistent (run s cs).
Proof.
  revert s. induction cs as [|c cs IH]; intros s H; [exact H|].
  apply IH. destruct c; [now apply consistent_next | now apply consistent_subscribe].
Qed.

Lemma reachable_consistent (cs : list Call) : consistent (run init cs).
Proof. apply consistent_run, consistent_init. Qed.


(** A new observer receives the value of the flag, once. *)
Lemma consistent_replay (s : State) :
  consistent s -> observers (subscribe s) = observers s ++ [[value s]].
Proof.
  unfold consistent, subscribe, distinctUntilChanged. cbn.
  destruct (connection s) as [key|]; cbn.
  - now intros (_ & -> & _).
  - now intros (-> & ->).
Qed.






End ActivationFacts.



(** * Further properties of the gesture streams *)

Import Sessions.

Lemma singleTouchMoveStart_after (es : list TouchEvent) :
  after _singleTouchMoveStart' es
  = Active (singleTouchMoveStartSub (reach singleTouchMoveStartStep [] es)).
Proof.
  apply (after_reach _singleTouchMoveStart' singleTouchMoveStartSub []
           singleTouchMoveStartStep);
    auto using singleTouchMoveStart_dispatch, singleTouchMoveStartStep_stays.
Qed.

Lemma singleTouchMoveEnd_after (es : list TouchEvent) :
  after _singleTouchMoveEnd' es
  = Active (singleTouchMoveEndSub (reach singleTouchMoveEndStep [] es)).
Proof.
  apply (after_reach _singleTouchMoveEnd' singleTouchMoveEndSub []
           singleTouchMoveEndStep);
    auto using singleTouchMoveEnd_dispatch, singleTouchMoveEndStep_stays.
Qed.

Lemma closesSingle_not_move (e : TouchEvent) : closesSingle e = true -> isMove e = false.
Proof.
  unfold closesSingle, stops, multiple, isMove.
  destruct (type e); cbn; try reflexivity. discriminate.
Qed.

Lemma opensSingle_closesSingle (e : TouchEvent) :
  opensSingle e = true -> closesSingle e = true.
Proof.
  intros H. unfold closesSingle. rewrite (opensSingle_multiple e H). apply orb_true_r.
Qed.

(** A start, end or cancel event that does not open a window does not pass
    the one-touch filter. *)
Lemma not_opens_not_oneTouch (e : TouchEvent) :
  isMove e = false -> opensSingle e = false -> oneTouch e = false.
Proof. unfold opensSingle. now intros ->. Qed.

(** ** The pinch boundaries *)

(** X1. Every start, end or cancel event is emitted by exactly one of the
    pinch-start and the pinch-end stream, and a move event by neither. *)
Theorem pinch_start_end_partition :
  forall (es : list TouchEvent) (e : TouchEvent),
    emitted pinchStart' es e ++ emitted pinchEnd' es e
    = (if isMove e then [] else [e])
    /\ (emitted pinchStart' es e = [] \/ emitted pinchEnd' es e = []).
Proof.
  intros es e. rewrite pinchStart_emitted, pinchEnd_emitted.
  unfold opensPinch, closesPinch.
  destruct (isMove e), (twoTouches e); cbn; auto.
Qed.

(** ** One single-touch session at a time *)

Lemma singleTouchMoveStart_pending (es : list TouchEvent) :
  length (reach singleTouchMoveStartStep [] es) <= 1.
Proof.
  induction es as [|e es IH] using rev_ind; [cbn; lia|].
  rewrite reach_app, reach_cons. cbn [reach fold_left].
  generalize dependent (reach singleTouchMoveStartStep [] es). intros pending IH.
  unfold advance, singleTouchMoveStartStep.
  destruct (isMove e) eqn:Hm.
  - destruct (oneTouch e) eqn:H1; [|exact IH].
    destruct pending as [|e0 pending]; [cbn; lia|].
    destruct (singleTouchMoveOperation_defined e (TouchMove.new None) H1) as [c ->].
    cbn. lia.
  - cbn [snd]. destruct (oneTouch e) eqn:H1.
    + assert (Hc : stops e || multiple e = true)
        by (apply opensSingle_closesSingle; unfold opensSingle; now rewrite Hm, H1).
      rewrite Hc. cbn. lia.
    + rewrite app_nil_r. destruct (stops e || multiple e); [cbn; lia | exact IH].
Qed.

Lemma singleTouchMoveEnd_pending (es : list TouchEvent) :
  length (reach singleTouchMoveEndStep [] es) <= 1.
Proof.
  induction es as [|e es IH] using rev_ind; [cbn; lia|].
  rewrite reach_app, reach_cons. cbn [reach fold_left].
  generalize dependent (reach singleTouchMoveEndStep [] es). intros pending IH.
  unfold advance, singleTouchMoveEndStep.
  destruct (isMove e) eqn:Hm; [exact IH|].
  destruct (oneTouch e) eqn:H1.
  - assert (Hc : stops e || multiple e = true)
      by (apply opensSingle_closesSingle; unfold opensSingle; now rewrite Hm, H1).
    rewrite Hc. cbn. lia.
  - destruct (stops e || multiple e); cbn [snd]; [cbn; lia|].
    now rewrite app_nil_r.
Qed.

(** X2. Although [mergeMap] would let inner subscriptions pile up, the start
    stream and the end stream never have more than one inner subscription
    waiting, and neither delivers more than one value during the dispatch
    of one event. *)
Theorem single_touch_one_session_at_a_time :
  forall (es : list TouchEvent) (e : TouchEvent),
    (exists pending : list TouchEvent,
        after _singleTouchMoveStart' es = Active (singleTouchMoveStartSub pending)
        /\ length pending <= 1)
    /\ (exists pending : list TouchEvent,
        after _singleTouchMoveEnd' es = Active (singleTouchMoveEndSub pending)
        /\ length pending <= 1)
    /\ length (emitted singleTouchMoveStart' es e) <= 1
    /\ length (emitted singleTouchMoveEnd' es e) <= 1.
Proof.
  intros es e.
  pose proof (singleTouchMoveStart_pending es) as Hs.
  pose proof (singleTouchMoveEnd_pending es) as He.
  split; [eauto using singleTouchMoveStart_after|].
  split; [eauto using singleTouchMoveEnd_after|].
  rewrite singleTouchMoveStart_emitted, singleTouchMoveEnd_emitted.
  revert Hs He.
  generalize (reach singleTouchMoveStartStep [] es).
  generalize (reach singleTouchMoveEndStep [] es).
  intros pe ps Hs He.
  unfold singleTouchMoveStartStep, singleTouchMoveEndStep.
  split.
  - destruct (isMove e), (oneTouch e), ps as [|e0 ps]; cbn [fst length]; try lia.
    destruct (singleTouchMoveOperation e (TouchMove.new None)); cbn [fst length];
      rewrite ?length_map; cbn [length] in *; lia.
  - destruct (isMove e), (stops e || multiple e); cbn [fst length];
      rewrite ?length_map; lia.
Qed.

(** ** The end of a session *)

Lemma reach_stays {T X : Type} (step : X -> TouchEvent -> list T * status X)
  (idle : TouchEvent -> bool) (x : X) (es : list TouchEvent) :
  (forall e, idle e = true -> advance step x e = x) ->
  forallb idle es = true -> reach step x es = x.
Proof.
  intros Hidle. induction es as [|e es IH]; intros H; [reflexivity|].
  cbn [forallb] in H. apply andb_true_iff in H as [He Hes].
  rewrite reach_cons, (Hidle e He). now apply IH.
Qed.

Lemma singleTouchMoveEnd_keeps (pending : list TouchEvent) (e : TouchEvent) :
  keepsSingle e = true -> advance singleTouchMoveEndStep pending e = pending.
Proof.
  unfold keepsSingle, closesSingle, advance, singleTouchMoveEndStep.
  destruct (isMove e) eqn:Hm; [reflexivity|].
  destruct (stops e || multiple e) eqn:Hc; [discriminate|]. intros _.
  destruct (oneTouch e) eqn:H1; cbn [snd]; [|apply app_nil_r].
  assert (Hc' : closesSingle e = true)
    by (apply opensSingle_closesSingle; unfold opensSingle; now rewrite Hm, H1).
  unfold closesSingle in Hc'. congruence.
Qed.

Lemma singleTouchMoveEnd_closes (pending : list TouchEvent) (e : TouchEvent) :
  closesSingle e = true ->
  singleTouchMoveEndStep pending e
  = (List.map (fun _ => e) pending, Active (if oneTouch e then [e] else [])).
Proof.
  intros Hc. pose proof (closesSingle_not_move e Hc) as Hm.
  unfold closesSingle in Hc. unfold singleTouchMoveEndStep. now rewrite Hm, Hc.
Qed.

Lemma singleTouchMoveEnd_none (e : TouchEvent) :
  opensSingle e = false -> singleTouchMoveEndStep [] e = ([], Active []).
Proof.
  unfold opensSingle, singleTouchMoveEndStep.
  destruct (isMove e), (oneTouch e), (stops e || multiple e); try discriminate; reflexivity.
Qed.

(** X3. A single-touch session ends once: in an open window, the first event
    that the stop stream or the multi-start stream emits is delivered on
    the end stream, alone; and when that event does not open a window
    itself, the end stream delivers nothing more until an event does,
    whatever is dispatched. *)
Theorem single_touch_session_ends_once :
  forall (pre mid rest : list TouchEvent) (e0 e e' : TouchEvent),
    opensSingle e0 = true ->
    forallb keepsSingle mid = true ->
    closesSingle e = true ->
    emitted singleTouchMoveEnd' (pre ++ e0 :: mid) e = [e]
    /\ (opensSingle e = false ->
        forallb (fun x => negb (opensSingle x)) rest = true ->
        emitted singleTouchMoveEnd' ((pre ++ e0 :: mid) ++ e :: rest) e' = []).
Proof.
  intros pre mid rest e0 e e' Hopen Hmid Hclose. split.
  - rewrite singleTouchMoveEnd_emitted.
    rewrite (reach_session singleTouchMoveEndStep keepsSingle [] [e0] pre mid e0)
      by auto using singleTouchMoveEnd_keeps, singleTouchMoveEnd_opens.
    now rewrite (singleTouchMoveEnd_closes [e0] e Hclose).
  - intros He Hrest.
    rewrite singleTouchMoveEnd_emitted, reach_app, reach_cons.
    assert (Hadv : advance singleTouchMoveEndStep
                     (reach singleTouchMoveEndStep [] (pre ++ e0 :: mid)) e = []).
    { unfold advance. rewrite (singleTouchMoveEnd_closes _ e Hclose). cbn [snd].
      now rewrite (not_opens_not_oneTouch e (closesSingle_not_move e Hclose) He). }
    rewrite Hadv.
    rewrite (reach_stays singleTouchMoveEndStep (fun x => negb (opensSingle x)) [] rest).
    + unfold singleTouchMoveEndStep.
      destruct (isMove e'), (stops e' || multiple e'); reflexivity.
    + intros x Hx. apply negb_true_iff in Hx. unfold advance.
      now rewrite (singleTouchMoveEnd_none x Hx).
    + exact Hrest.
Qed.

Lemma single_touch_session_ends_once_witness :
  emitted singleTouchMoveEnd' ([] ++ Examples.down1 :: [Examples.move1]) Examples.down2
  = [Examples.down2]
  /\ emitted singleTouchMoveEnd'
       (([] ++ Examples.down1 :: [Examples.move1])
        ++ Examples.down2 :: [Examples.pinchMove])
       (Examples.event touchend [])
     = [].
Proof.
  pose proof (single_touch_session_ends_once
                [] [Examples.move1] [Examples.pinchMove]
                Examples.down1 Examples.down2 (Examples.event touchend [])
                eq_refl eq_refl eq_refl) as [H1 H2].
  split; [exact H1 | exact (H2 eq_refl eq_refl)].
Defined.

(** ** Closed windows *)

Lemma singleTouch_none (e : TouchEvent) :
  opensSingle e = false -> singleTouchStep None e = ([], Active None).
Proof.
  unfold opensSingle, singleTouchStep.
  destruct (isMove e), (oneTouch e), (stops e || multiple e); try discriminate; reflexivity.
Qed.

Lemma singleTouchMoveStart_none (e : TouchEvent) :
  opensSingle e = false -> singleTouchMoveStartStep [] e = ([], Active []).
Proof.
  unfold opensSingle, singleTouchMoveStartStep.
  destruct (isMove e), (oneTouch e), (stops e || multiple e); try discriminate; reflexivity.
Qed.

Lemma pinchChange_none (e : TouchEvent) :
  opensPinch e = false -> pinchChangeStep None e = ([], Active None).
Proof.
  unfold opensPinch, pinchChangeStep.
  destruct (isMove e), (twoTouches e); try discriminate; reflexivity.
Qed.

(** X4. Once the stop stream or the multi-start stream has emitted an event
    that opens no window itself, the single-touch streams are silent until
    an event opens a window: whatever the history before, and whatever is
    dispatched after (move events with one contact included), nothing is
    delivered on the move stream nor on the start stream. *)
Theorem single_touch_closed_is_silent :
  forall (pre rest : list TouchEvent) (e e' : TouchEvent),
    closesSingle e = true ->
    opensSingle e = false ->
    forallb (fun x => negb (opensSingle x)) rest = true ->
    emitted singleTouchMove' (pre ++ e :: rest) e' = []
    /\ emitted singleTouchMoveStart' (pre ++ e :: rest) e' = [].
Proof.
  intros pre rest e e' Hclose He Hrest.
  pose proof (closesSingle_not_move e Hclose) as Hm.
  pose proof (not_opens_not_oneTouch e Hm He) as H1.
  unfold closesSingle in Hclose.
  rewrite singleTouchMove_emitted, singleTouchMoveStart_emitted, !reach_app, !reach_cons.
  assert (Hw : forall cur, advance singleTouchStep cur e = None)
    by (intros cur; unfold advance, singleTouchStep; now rewrite Hm, H1, Hclose).
  assert (Hp : forall pending, advance singleTouchMoveStartStep pending e = [])
    by (intros pending; unfold advance, singleTouchMoveStartStep;
        now rewrite Hm, H1, Hclose).
  rewrite Hw, Hp.
  rewrite (reach_stays singleTouchStep (fun x => negb (opensSingle x)) None rest),
    (reach_stays singleTouchMoveStartStep (fun x => negb (opensSingle x)) [] rest);
    trivial.
  - unfold singleTouchStep, singleTouchMoveStartStep.
    destruct (isMove e'), (oneTouch e'), (stops e' || multiple e'); auto.
  - intros x Hx. apply negb_true_iff in Hx. unfold advance.
    now rewrite (singleTouchMoveStart_none x Hx).
  - intros x Hx. apply negb_true_iff in Hx. unfold advance.
    now rewrite (singleTouch_none x Hx).
Qed.

Lemma single_touch_closed_is_silent_witness :
  emitted singleTouchMove'
    ([Examples.down1; Examples.move1] ++ Examples.down2 :: [Examples.move1])
    Examples.move1' = []
  /\ emitted singleTouchMoveStart'
       ([Examples.down1; Examples.move1] ++ Examples.down2 :: [Examples.move1])
       Examples.move1' = [].
Proof.
  apply (single_touch_closed_is_silent
           [Examples.down1; Examples.move1] [Examples.move1]
           Examples.down2 Examples.move1');
    reflexivity.
Defined.

(** X5. Once the pinch-end stream has emitted an event, the change stream is
    silent until the pinch-start stream emits one: nothing is delivered,
    move events with two contacts included. *)
Theorem pinch_closed_is_silent :
  forall (pre rest : list TouchEvent) (e e' : TouchEvent),
    closesPinch e = true ->
    forallb (fun x => negb (opensPinch x)) rest = true ->
    emitted pinch' (pre ++ e :: rest) e' = [].
Proof.
  intros pre rest e e' Hclose Hrest.
  unfold closesPinch in Hclose. apply andb_true_iff in Hclose as [Hm H2].
  apply negb_true_iff in Hm, H2.
  rewrite pinch_emitted, reach_app, reach_cons.
  assert (Hw : forall cur, advance pinchChangeStep cur e = None)
    by (intros cur; unfold advance, pinchChangeStep; now rewrite Hm, H2).
  rewrite Hw.
  rewrite (reach_stays pinchChangeStep (fun x => negb (opensPinch x)) None rest);
    trivial.
  - unfold pinchChangeStep. destruct (isMove e'), (twoTouches e'); reflexivity.
  - intros x Hx. apply negb_true_iff in Hx. unfold advance.
    now rewrite (pinchChange_none x Hx).
Qed.

Lemma pinch_closed_is_silent_witness :
  emitted pinch'
    ([Examples.pinchDown; Examples.pinchMove]
     ++ Examples.event touchend [Examples.pinchA] :: [Examples.pinchMove])
    Examples.pinchMove' = [].
Proof.
  apply (pinch_closed_is_silent
           [Examples.pinchDown; Examples.pinchMove] [Examples.pinchMove]
           (Examples.event touchend [Examples.pinchA]) Examples.pinchMove');
    reflexivity.
Defined.

(** ** Where a delivered value comes from *)

(** The two [switchMap] streams have the same shape: an event opens a
    window on the seed, with one value to skip; inside the window the
    feeding events advance the fold; an event that neither opens nor keeps
    the window closes it. *)
Section Windows.

Context {A : Type}.
Variable step : Window A -> TouchEvent -> list A * status (Window A).
Variables opens keeps feeds : TouchEvent -> bool.
Variable operation : TouchEvent -> A -> option A.
Variable seed : A.

Hypothesis advance_none :
  forall e, advance step None e = if opens e then Some (e, seed, 1) else None.
Hypothesis advance_some :
  forall e0 acc n e,
    advance step (Some (e0, acc, n)) e
    = if opens e then Some (e, seed, 1)
      else if keeps e
           then if feeds e
                then match operation e acc with
                     | Some acc' => Some (e0, acc', n - 1)
                     | None => Some (e0, acc, n)
                     end
                else Some (e0, acc, n)
           else None.
Hypothesis feeds_defined :
  forall e acc, feeds e = true -> exists acc', operation e acc = Some acc'.

(** The history behind an open window: the event that opened it, then
    events that keep it; either none of them fed the fold, which is at the
    seed with one value to skip, or the fold holds the value computed at
    the last one that did, and nothing is left to skip. *)
Lemma window_history (es : list TouchEvent) (e0 : TouchEvent) (acc : A) (n : nat) :
  reach step None es = Some (e0, acc, n) ->
  exists pre mid : list TouchEvent,
    es = pre ++ e0 :: mid
    /\ opens e0 = true
    /\ forallb keeps mid = true
    /\ ((n = 1 /\ acc = seed /\ forallb (fun x => negb (feeds x)) mid = true)
        \/ (n = 0
            /\ exists (mid1 : list TouchEvent) (m1 : TouchEvent)
                      (mid2 : list TouchEvent) (previous : A),
                mid = mid1 ++ m1 :: mid2
                /\ feeds m1 = true
                /\ forallb (fun x => negb (feeds x)) mid2 = true
                /\ operation m1 previous = Some acc)).
Proof.
  revert e0 acc n. induction es as [|e es IH] using rev_ind; intros e0 acc n.
  - discriminate.
  - rewrite reach_app, reach_cons. cbn [reach fold_left].
    destruct (reach step None es) as [[[c0 cacc] cn]|] eqn:Hcur.
    + rewrite advance_some.
      destruct (opens e) eqn:Ho.
      * intros [= <- <- <-]. exists es, []. repeat split; auto.
      * destruct (keeps e) eqn:Hk; [|discriminate].
        destruct (IH c0 cacc cn eq_refl) as (pre & mid & -> & Hc0 & Hmid & Hcase).
        destruct (feeds e) eqn:Hf.
        -- destruct (feeds_defined e cacc Hf) as [acc' Hacc']. rewrite Hacc'.
           intros [= <- <- <-].
           exists pre, (mid ++ [e]). split; [now rewrite <- app_assoc|].
           split; [exact Hc0|].
           split; [rewrite forallb_app; cbn; now rewrite Hmid, Hk|].
           right. split; [destruct Hcase as [(-> & _) | (-> & _)]; reflexivity|].
           exists mid, e, [], cacc. auto.
        -- intros [= <- <- <-].
           exists pre, (mid ++ [e]). split; [now rewrite <- app_assoc|].
           split; [exact Hc0|].
           split; [rewrite forallb_app; cbn; now rewrite Hmid, Hk|].
           destruct Hcase as [(-> & -> & Hno) | (-> & mid1 & m1 & mid2 & previous
                                                  & -> & Hm1 & Hno & Hop)].
           ++ left. repeat split. rewrite forallb_app. cbn. now rewrite Hno, Hf.
           ++ right. split; [reflexivity|].
              exists mid1, m1, (mid2 ++ [e]), previous.
              split; [now rewrite <- app_assoc|].
              split; [exact Hm1|].
              split; [rewrite forallb_app; cbn; now rewrite Hno, Hf | exact Hop].
    + rewrite advance_none. destruct (opens e) eqn:Ho; [|discriminate].
      intros [= <- <- <-]. exists es, []. repeat split; auto.
Qed.

End Windows.

Lemma singleTouch_advance_none (e : TouchEvent) :
  advance singleTouchStep None e
  = if opensSingle e then Some (e, TouchMove.new None, 1) else None.
Proof.
  unfold advance, singleTouchStep, opensSingle.
  destruct (isMove e), (oneTouch e), (stops e || multiple e); reflexivity.
Qed.

Lemma singleTouch_advance_some (e0 : TouchEvent) (acc : TouchMove) (n : nat)
  (e : TouchEvent) :
  advance singleTouchStep (Some (e0, acc, n)) e
  = if opensSingle e then Some (e, TouchMove.new None, 1)
    else if keepsSingle e
         then if feedsSingle e
              then match singleTouchMoveOperation e acc with
                   | Some acc' => Some (e0, acc', n - 1)
                   | None => Some (e0, acc, n)
                   end
              else Some (e0, acc, n)
         else None.
Proof.
  unfold advance, singleTouchStep, opensSingle, keepsSingle, closesSingle, feedsSingle.
  destruct (isMove e), (oneTouch e), (stops e || multiple e); cbn;
    try destruct (singleTouchMoveOperation e acc); reflexivity.
Qed.

Lemma pinchChange_advance_none (e : TouchEvent) :
  advance pinchChangeStep None e = if opensPinch e then Some (e, pinchSeed, 1) else None.
Proof.
  unfold advance, pinchChangeStep, opensPinch.
  destruct (isMove e), (twoTouches e); reflexivity.
Qed.

Lemma pinchChange_advance_some (e0 : TouchEvent) (acc : IPinch) (n : nat)
  (e : TouchEvent) :
  advance pinchChangeStep (Some (e0, acc, n)) e
  = if opensPinch e then Some (e, pinchSeed, 1)
    else if isMove e
         then if feedsPinch e
              then match pinchOperation e acc with
                   | Some acc' => Some (e0, acc', n - 1)
                   | None => Some (e0, acc, n)
                   end
              else Some (e0, acc, n)
         else None.
Proof.
  unfold advance, pinchChangeStep, opensPinch, feedsPinch.
  destruct (isMove e), (twoTouches e); cbn;
    try destruct (pinchOperation e acc); reflexivity.
Qed.

Lemma feedsSingle_defined (e : TouchEvent) (acc : TouchMove) :
  feedsSingle e = true -> exists acc', singleTouchMoveOperation e acc = Some acc'.
Proof.
  intros H. apply andb_true_iff in H as [_ H].
  exact (singleTouchMoveOperation_defined e acc H).
Qed.

Lemma feedsPinch_defined (e : TouchEvent) (acc : IPinch) :
  feedsPinch e = true -> exists acc', pinchOperation e acc = Some acc'.
Proof.
  intros H. apply andb_true_iff in H as [_ H].
  exact (pinchOperation_defined e acc H).
Qed.

(** What the move stream delivers, and in which window. *)
Lemma singleTouchMove_delivers (es : list TouchEvent) (m : TouchEvent) (d : TouchMove) :
  In d (emitted singleTouchMove' es m) ->
  feedsSingle m = true
  /\ exists (e0 : TouchEvent) (acc : TouchMove),
      reach singleTouchStep None es = Some (e0, acc, 0)
      /\ singleTouchMoveOperation m acc = Some d.
Proof.
  rewrite singleTouchMove_emitted.
  destruct (reach singleTouchStep None es) as [[[e0 acc] n]|].
  - unfold singleTouchStep, feedsSingle.
    destruct (isMove m), (oneTouch m); try destruct (stops m || multiple m);
      cbn; try tauto.
    all: destruct (singleTouchMoveOperation m acc) as [c|] eqn:Hc; cbn; try tauto.
    all: intros H; apply In_skipn_singleton in H as [-> ->]; eauto.
  - unfold singleTouchStep.
    destruct (isMove m), (oneTouch m); try destruct (stops m || multiple m);
      cbn; tauto.
Qed.

Lemma pinch_delivers (es : list TouchEvent) (m : TouchEvent) (d : IPinch) :
  In d (emitted pinch' es m) ->
  feedsPinch m = true
  /\ exists (e0 : TouchEvent) (acc : IPinch),
      reach pinchChangeStep None es = Some (e0, acc, 0)
      /\ pinchOperation m acc = Some d.
Proof.
  rewrite pinch_emitted.
  destruct (reach pinchChangeStep None es) as [[[e0 acc] n]|].
  - unfold pinchChangeStep, feedsPinch.
    destruct (isMove m), (twoTouches m); cbn; try tauto.
    all: destruct (pinchOperation m acc) as [c|] eqn:Hc; cbn; try tauto.
    all: intros H; apply In_skipn_singleton in H as [-> ->]; eauto.
  - unfold pinchChangeStep. destruct (isMove m), (twoTouches m); cbn; tauto.
Qed.

(** X6. Every value delivered on the single-touch move stream belongs to an
    open session: the history ends with the event that opened the window
    and events that kept it open, one of which fed the fold.  Its movement
    is the displacement of the lone contact, in page coordinates, since the
    last event that fed the fold; it is never computed from the seed. *)
Theorem single_touch_move_is_displacement :
  forall (es : list TouchEvent) (m : TouchEvent) (d : TouchMove),
    In d (emitted singleTouchMove' es m) ->
    exists (pre mid1 mid2 : list TouchEvent) (e0 m1 : TouchEvent) (t1 t : Touch),
      es = pre ++ e0 :: mid1 ++ m1 :: mid2
      /\ opensSingle e0 = true
      /\ forallb keepsSingle mid1 = true
      /\ feedsSingle m1 = true
      /\ forallb keepsSingle mid2 = true
      /\ forallb (fun x => negb (feedsSingle x)) mid2 = true
      /\ feedsSingle m = true
      /\ touches m1 = [t1]
      /\ touches m = [t]
      /\ TouchMove.movementX d = (Touch.pageX t - Touch.pageX t1)%float
      /\ TouchMove.movementY d = (Touch.pageY t - Touch.pageY t1)%float.
Proof.
  intros es m d Hd.
  destruct (singleTouchMove_delivers es m d Hd) as (Hm & e0 & acc & Hreach & Hop).
  destruct (window_history singleTouchStep opensSingle keepsSingle feedsSingle
              singleTouchMoveOperation (TouchMove.new None)
              singleTouch_advance_none singleTouch_advance_some feedsSingle_defined
              es e0 acc 0 Hreach)
    as (pre & mid & -> & Hopen & Hmid & [(Hn & _) | (_ & mid1 & m1 & mid2 & previous
                                                      & -> & Hm1 & Hno & Hacc)]);
    [discriminate Hn|].
  rewrite forallb_app in Hmid. cbn [forallb] in Hmid.
  apply andb_true_iff in Hmid as [Hmid1 Hmid2].
  apply andb_true_iff in Hmid2 as [_ Hmid2].
  destruct (oneTouch_lone m1) as [t1 Ht1];
    [now apply andb_true_iff in Hm1 as [_ Hm1]|].
  destruct (oneTouch_lone m) as [t Ht];
    [pose proof Hm as Hm'; now apply andb_true_iff in Hm' as [_ Hm']|].
  rewrite (singleTouchMoveOperation_lone m1 t1 previous Ht1) in Hacc.
  injection Hacc as <-.
  rewrite (singleTouchMoveOperation_lone m t _ Ht) in Hop.
  injection Hop as <-.
  exists pre, mid1, mid2, e0, m1, t1, t. repeat split; assumption.
Qed.

Lemma single_touch_move_is_displacement_witness :
  exists (pre mid1 mid2 : list TouchEvent) (e0 m1 : TouchEvent) (t1 t : Touch),
    [Examples.down1; Examples.move1] = pre ++ e0 :: mid1 ++ m1 :: mid2
    /\ opensSingle e0 = true
    /\ forallb keepsSingle mid1 = true
    /\ feedsSingle m1 = true
    /\ forallb keepsSingle mid2 = true
    /\ forallb (fun x => negb (feedsSingle x)) mid2 = true
    /\ feedsSingle Examples.move1' = true
    /\ touches m1 = [t1]
    /\ touches Examples.move1' = [t]
    /\ TouchMove.movementX
         (hd (TouchMove.new None)
            (emitted singleTouchMove' [Examples.down1; Examples.move1] Examples.move1'))
       = (Touch.pageX t - Touch.pageX t1)%float
    /\ TouchMove.movementY
         (hd (TouchMove.new None)
            (emitted singleTouchMove' [Examples.down1; Examples.move1] Examples.move1'))
       = (Touch.pageY t - Touch.pageY t1)%float.
Proof.
  exact (single_touch_move_is_displacement
           [Examples.down1; Examples.move1] Examples.move1' _ (or_introl eq_refl)).
Defined.

(** X7. Every descriptor delivered on the pinch change stream belongs to an
    open pinch session, in which a two-contact move event has already fed
    the fold; its changes are relative to the descriptor computed at the
    last such event, never to the all-zero seed. *)
Theorem pinch_change_is_relative :
  forall (es : list TouchEvent) (m : TouchEvent) (d : IPinch),
    In d (emitted pinch' es m) ->
    exists (pre mid1 mid2 : list TouchEvent) (e0 m1 : TouchEvent)
           (previous d1 : IPinch),
      es = pre ++ e0 :: mid1 ++ m1 :: mid2
      /\ opensPinch e0 = true
      /\ forallb isMove mid1 = true
      /\ feedsPinch m1 = true
      /\ forallb isMove mid2 = true
      /\ forallb (fun x => negb (feedsPinch x)) mid2 = true
      /\ feedsPinch m = true
      /\ pinchOperation m1 previous = Some d1
      /\ pinchOperation m d1 = Some d
      /\ IPinch.distanceChange d = (IPinch.distance d - IPinch.distance d1)%float
      /\ IPinch.changeX d = (IPinch.distanceX d - IPinch.distanceX d1)%float
      /\ IPinch.changeY d = (IPinch.distanceY d - IPinch.distanceY d1)%float.
Proof.
  intros es m d Hd.
  destruct (pinch_delivers es m d Hd) as (Hm & e0 & acc & Hreach & Hop).
  destruct (window_history pinchChangeStep opensPinch isMove feedsPinch
              pinchOperation pinchSeed
              pinchChange_advance_none pinchChange_advance_some feedsPinch_defined
              es e0 acc 0 Hreach)
    as (pre & mid & -> & Hopen & Hmid & [(Hn & _) | (_ & mid1 & m1 & mid2 & previous
                                                      & -> & Hm1 & Hno & Hacc)]);
    [discriminate Hn|].
  rewrite forallb_app in Hmid. cbn [forallb] in Hmid.
  apply andb_true_iff in Hmid as [Hmid1 Hmid2].
  apply andb_true_iff in Hmid2 as [_ Hmid2].
  destruct (pinchOperation_change m acc d Hop) as (Hdc & Hcx & Hcy).
  exists pre, mid1, mid2, e0, m1, previous, acc. repeat split; assumption.
Qed.

Lemma pinch_change_is_relative_witness :
  exists (pre mid1 mid2 : list TouchEvent) (e0 m1 : TouchEvent)
         (previous d1 : IPinch),
    [Examples.pinchDown; Examples.pinchMove] = pre ++ e0 :: mid1 ++ m1 :: mid2
    /\ opensPinch e0 = true
    /\ forallb isMove mid1 = true
    /\ feedsPinch m1 = true
    /\ forallb isMove mid2 = true
    /\ forallb (fun x => negb (feedsPinch x)) mid2 = true
    /\ feedsPinch Examples.pinchMove' = true
    /\ pinchOperation m1 previous = Some d1
    /\ pinchOperation Examples.pinchMove' d1
       = Some (hd pinchSeed
                 (emitted pinch' [Examples.pinchDown; Examples.pinchMove]
                    Examples.pinchMove'))
    /\ IPinch.distanceChange
         (hd pinchSeed
            (emitted pinch' [Examples.pinchDown; Examples.pinchMove] Examples.pinchMove'))
       = (IPinch.distance
            (hd pinchSeed
               (emitted pinch' [Examples.pinchDown; Examples.pinchMove]
                  Examples.pinchMove'))
          - IPinch.distance d1)%float
    /\ IPinch.changeX
         (hd pinchSeed
            (emitted pinch' [Examples.pinchDown; Examples.pinchMove] Examples.pinchMove'))
       = (IPinch.distanceX
            (hd pinchSeed
               (emitted pinch' [Examples.pinchDown; Examples.pinchMove]
                  Examples.pinchMove'))
          - IPinch.distanceX d1)%float
    /\ IPinch.changeY
         (hd pinchSeed
            (emitted pinch' [Examples.pinchDown; Examples.pinchMove] Examples.pinchMove'))
       = (IPinch.distanceY
            (hd pinchSeed
               (emitted pinch' [Examples.pinchDown; Examples.pinchMove]
                  Examples.pinchMove'))
          - IPinch.distanceY d1)%float.
Proof.
  exact (pinch_change_is_relative
           [Examples.pinchDown; Examples.pinchMove] Examples.pinchMove' _
           (or_introl eq_refl)).
Defined.

(** ** Start or move, never both *)

Lemma singleTouchMoveStart_advance (pending : list TouchEvent) (e : TouchEvent) :
  advance singleTouchMoveStartStep pending e
  = if isMove e then (if oneTouch e then [] else pending)
    else (if closesSingle e then [] else pending) ++ (if oneTouch e then [e] else []).
Proof.
  unfold advance, singleTouchMoveStartStep, closesSingle.
  destruct (isMove e); [|reflexivity].
  destruct (oneTouch e) eqn:H1; [|reflexivity].
  destruct pending as [|e0 pending]; [reflexivity|].
  now destruct (singleTouchMoveOperation_defined e (TouchMove.new None) H1) as [c ->].
Qed.

(** The start stream is waiting exactly when the window of the move stream
    still has its first value to skip. *)
Lemma start_waits_while_move_skips (es : list TouchEvent) :
  (reach singleTouchMoveStartStep [] es = []
   /\ (reach singleTouchStep None es = None
       \/ exists e0 acc, reach singleTouchStep None es = Some (e0, acc, 0)))
  \/ (exists e0 acc,
         reach singleTouchMoveStartStep [] es = [e0]
         /\ reach singleTouchStep None es = Some (e0, acc, 1)).
Proof.
  induction es as [|e es IH] using rev_ind; [left; split; [reflexivity | now left]|].
  rewrite !reach_app, !reach_cons. cbn [reach fold_left].
  rewrite singleTouchMoveStart_advance.
  destruct (opensSingle e) eqn:Ho.
  - pose proof (opensSingle_closesSingle e Ho) as Hc.
    pose proof (closesSingle_not_move e Hc) as Hm.
    assert (H1 : oneTouch e = true) by (unfold opensSingle in Ho; now rewrite Hm in Ho).
    rewrite Hm, Hc, H1. right. exists e, (TouchMove.new None). split; [reflexivity|].
    destruct (reach singleTouchStep None es) as [[[c0 cacc] cn]|];
      [rewrite singleTouch_advance_some | rewrite singleTouch_advance_none];
      now rewrite Ho.
  - assert (Hstart : (if isMove e then if oneTouch e then [] else
                        reach singleTouchMoveStartStep [] es
                      else (if closesSingle e then [] else
                              reach singleTouchMoveStartStep [] es)
                           ++ (if oneTouch e then [e] else []))
                     = if keepsSingle e
                       then if feedsSingle e then []
                            else reach singleTouchMoveStartStep [] es
                       else []).
    { unfold keepsSingle, feedsSingle. revert Ho. unfold opensSingle.
      destruct (isMove e), (oneTouch e), (closesSingle e); cbn;
        try discriminate; intros _; rewrite ?app_nil_r; reflexivity. }
    rewrite Hstart. clear Hstart.
    destruct IH as [(Hp & [Hw | (e0 & acc & Hw)]) | (e0 & acc & Hp & Hw)];
      rewrite Hp, Hw;
      [rewrite singleTouch_advance_none | rewrite singleTouch_advance_some..];
      rewrite Ho.
    + left. split; [now destruct (keepsSingle e), (feedsSingle e) | now left].
    + left. split; [now destruct (keepsSingle e), (feedsSingle e)|].
      destruct (keepsSingle e); [|now left].
      destruct (feedsSingle e) eqn:Hf; [|right; eauto].
      destruct (feedsSingle_defined e acc Hf) as [acc' ->]. right. eauto.
    + destruct (keepsSingle e); [|left; split; [reflexivity | now left]].
      destruct (feedsSingle e) eqn:Hf; [|right; eauto].
      destruct (feedsSingle_defined e acc Hf) as [acc' ->].
      left. split; [reflexivity | right; eauto].
Qed.

(** A window stays open under the events that keep it. *)
Lemma singleTouch_kept (e0 : TouchEvent) (mid : list TouchEvent) :
  forallb keepsSingle mid = true ->
  forall (acc : TouchMove) (n : nat),
  exists (acc' : TouchMove) (n' : nat),
    reach singleTouchStep (Some (e0, acc, n)) mid = Some (e0, acc', n').
Proof.
  induction mid as [|e mid IH]; intros H acc n; [now exists acc, n|].
  cbn [forallb] in H. apply andb_true_iff in H as [He H].
  rewrite reach_cons, singleTouch_advance_some, He.
  assert (Ho : opensSingle e = false).
  { destruct (opensSingle e) eqn:Ho; [|reflexivity].
    pose proof (opensSingle_closesSingle e Ho) as Hc.
    pose proof (closesSingle_not_move e Hc) as Hm.
    unfold keepsSingle in He. rewrite Hm, Hc in He. discriminate. }
  rewrite Ho.
  destruct (feedsSingle e); [destruct (singleTouchMoveOperation e acc)|]; apply IH, H.
Qed.

(** X8. A move event is reported as the start of a drag or as a move, never
    as both: during the dispatch of one event the start stream and the move
    stream do not both deliver.  In an open session, every move event with
    one active and one target-scoped contact is delivered exactly once, on
    one of the two. *)
Theorem single_touch_start_or_move :
  (forall (es : list TouchEvent) (e : TouchEvent),
      emitted singleTouchMoveStart' es e = [] \/ emitted singleTouchMove' es e = [])
  /\ (forall (pre mid : list TouchEvent) (e0 m : TouchEvent),
      opensSingle e0 = true ->
      forallb keepsSingle mid = true ->
      feedsSingle m = true ->
      length (emitted singleTouchMoveStart' (pre ++ e0 :: mid) m)
      + length (emitted singleTouchMove' (pre ++ e0 :: mid) m) = 1).
Proof.
  split.
  - intros es e. rewrite singleTouchMoveStart_emitted, singleTouchMove_emitted.
    destruct (start_waits_while_move_skips es)
      as [(-> & _) | (e0 & acc & _ & ->)].
    + left. unfold singleTouchMoveStartStep.
      destruct (isMove e), (oneTouch e); reflexivity.
    + right. unfold singleTouchStep.
      destruct (isMove e), (oneTouch e); try destruct (stops e || multiple e);
        try reflexivity.
      all: now destruct (singleTouchMoveOperation e acc).
  - intros pre mid e0 m Hopen Hmid Hm.
    rewrite singleTouchMoveStart_emitted, singleTouchMove_emitted.
    pose proof (start_waits_while_move_skips (pre ++ e0 :: mid)) as HJ.
    assert (Hw : exists acc n,
               reach singleTouchStep None (pre ++ e0 :: mid) = Some (e0, acc, n)).
    { rewrite reach_app, reach_cons, (singleTouch_opens _ e0 Hopen).
      apply singleTouch_kept, Hmid. }
    destruct Hw as (acc & n & Hw). rewrite Hw in HJ |- *.
    pose proof Hm as Hm'. apply andb_true_iff in Hm' as [Hmove Hone].
    destruct (singleTouchMoveOperation_defined m acc Hone) as [c Hc].
    destruct (singleTouchMoveOperation_defined m (TouchMove.new None) Hone) as [c0 Hc0].
    destruct HJ as [(Hp & [Hn | (e1 & acc1 & [= _ _ ->])])
                   | (e1 & acc1 & Hp & [= _ _ ->])];
      [discriminate Hn | |];
      rewrite Hp; unfold singleTouchMoveStartStep, singleTouchStep;
      rewrite Hmove, Hone, Hc, ?Hc0; reflexivity.
Qed.

Lemma single_touch_start_or_move_witness :
  length (emitted singleTouchMoveStart'
            ([] ++ Examples.down1 :: [Examples.move1]) Examples.move1')
  + length (emitted singleTouchMove'
              ([] ++ Examples.down1 :: [Examples.move1]) Examples.move1') = 1.
Proof.
  apply (proj2 single_touch_start_or_move
           [] [Examples.move1] Examples.down1 Examples.move1');
    reflexivity.
Defined.

(** ** How much a session delivers *)

Lemma deliveredFrom_outputs {T X : Type} (o : Observable T)
  (sub : X -> subscription o) (step : X -> TouchEvent -> list T * status X) :
  (forall x e, dispatch o (sub x) e
               = let (out, r) := step x e in (out, status_map sub r)) ->
  (forall x e, exists x', snd (step x e) = Active x') ->
  forall (es : list TouchEvent) (x : X),
    deliveredFrom o (Active (sub x)) es = outputs step x es.
Proof.
  intros Hsim Hstays. induction es as [|e es IH]; intros x; [reflexivity|].
  cbn [deliveredFrom outputs].
  rewrite (on_sub o sub step Hsim Hstays x e). cbn [fst snd]. now rewrite IH.
Qed.

Lemma singleTouchMove_delivered (pre es : list TouchEvent) :
  delivered singleTouchMove' pre es
  = outputs singleTouchStep (reach singleTouchStep None pre) es.
Proof.
  unfold delivered. change singleTouchMove' with _singleTouch'.
  rewrite singleTouch_after.
  apply deliveredFrom_outputs; auto using singleTouch_dispatch, singleTouchStep_stays.
Qed.

Lemma singleTouchMoveStart_delivered (pre es : list TouchEvent) :
  delivered singleTouchMoveStart' pre es
  = outputs singleTouchMoveStartStep (reach singleTouchMoveStartStep [] pre) es.
Proof.
  unfold delivered. change singleTouchMoveStart' with _singleTouchMoveStart'.
  rewrite singleTouchMoveStart_after.
  apply deliveredFrom_outputs;
    auto using singleTouchMoveStart_dispatch, singleTouchMoveStartStep_stays.
Qed.

Lemma singleTouchMoveEnd_delivered (pre es : list TouchEvent) :
  delivered singleTouchMoveEnd' pre es
  = outputs singleTouchMoveEndStep (reach singleTouchMoveEndStep [] pre) es.
Proof.
  unfold delivered. change singleTouchMoveEnd' with _singleTouchMoveEnd'.
  rewrite singleTouchMoveEnd_after.
  apply deliveredFrom_outputs;
    auto using singleTouchMoveEnd_dispatch, singleTouchMoveEndStep_stays.
Qed.

Lemma pinch_delivered (pre es : list TouchEvent) :
  delivered pinch' pre es = outputs pinchChangeStep (reach pinchChangeStep None pre) es.
Proof.
  unfold delivered. change pinch' with _pinchChange'.
  rewrite pinchChange_after.
  apply deliveredFrom_outputs; auto using pinchChange_dispatch, pinchChangeStep_stays.
Qed.

Lemma length_skipn_singleton {A : Type} (n : nat) (x : A) :
  length (skipn n [x]) = 1 - n.
Proof. destruct n as [|[|n]]; reflexivity. Qed.

Lemma singleTouch_outputs_count (e0 : TouchEvent) (moves : list TouchEvent) :
  forallb isMove moves = true ->
  forall (acc : TouchMove) (n : nat),
    n <= 1 ->
    length (outputs singleTouchStep (Some (e0, acc, n)) moves)
    = length (List.filter feedsSingle moves) - n.
Proof.
  induction moves as [|m moves IH]; intros H acc n Hn; [reflexivity|].
  cbn [forallb] in H. apply andb_true_iff in H as [Hm H].
  cbn [outputs List.filter]. rewrite length_app.
  rewrite (singleTouch_advance_move e0 m acc n Hm).
  unfold singleTouchStep at 1, feedsSingle at 1. rewrite Hm. cbn [andb].
  destruct (oneTouch m) eqn:H1.
  - destruct (singleTouchMoveOperation_defined m acc H1) as [c ->].
    cbn [fst length]. rewrite length_skipn_singleton, (IH H c (n - 1)) by lia. lia.
  - cbn [fst length]. now rewrite (IH H acc n Hn).
Qed.

Lemma pinchChange_outputs_count (e0 : TouchEvent) (moves : list TouchEvent) :
  forallb isMove moves = true ->
  forall (acc : IPinch) (n : nat),
    n <= 1 ->
    length (outputs pinchChangeStep (Some (e0, acc, n)) moves)
    = length (List.filter feedsPinch moves) - n.
Proof.
  induction moves as [|m moves IH]; intros H acc n Hn; [reflexivity|].
  cbn [forallb] in H. apply andb_true_iff in H as [Hm H].
  cbn [outputs List.filter]. rewrite length_app.
  rewrite (pinchChange_advance_move e0 m acc n Hm).
  unfold pinchChangeStep at 1, feedsPinch at 1. rewrite Hm. cbn [andb].
  destruct (twoTouches m) eqn:H2.
  - destruct (pinchOperation_defined m acc H2) as [c ->].
    cbn [fst length]. rewrite length_skipn_singleton, (IH H c (n - 1)) by lia. lia.
  - cbn [fst length]. now rewrite (IH H acc n Hn).
Qed.

Lemma singleTouchMoveStart_outputs_count (moves : list TouchEvent) :
  forallb isMove moves = true ->
  forall pending : list TouchEvent,
    length pending <= 1 ->
    length (outputs singleTouchMoveStartStep pending moves)
    = Nat.min (length pending) (length (List.filter feedsSingle moves)).
Proof.
  induction moves as [|m moves IH]; intros H pending Hp; [cbn; lia|].
  cbn [forallb] in H. apply andb_true_iff in H as [Hm H].
  cbn [outputs List.filter]. rewrite length_app, singleTouchMoveStart_advance.
  unfold singleTouchMoveStartStep at 1, feedsSingle at 1. rewrite Hm. cbn [andb].
  destruct (oneTouch m) eqn:H1.
  - rewrite (IH H []) by (cbn; lia).
    destruct pending as [|e0 [|e1 pending]]; [reflexivity | | cbn in Hp; lia].
    now destruct (singleTouchMoveOperation_defined m (TouchMove.new None) H1) as [c ->].
  - cbn [fst length]. now rewrite (IH H pending Hp).
Qed.

Lemma singleTouchMoveEnd_outputs_moves (moves : list TouchEvent) :
  forallb isMove moves = true ->
  forall pending : list TouchEvent,
    outputs singleTouchMoveEndStep pending moves = [].
Proof.
  induction moves as [|m moves IH]; intros H pending; [reflexivity|].
  cbn [forallb] in H. apply andb_true_iff in H as [Hm H].
  cbn [outputs]. rewrite (singleTouchMoveEnd_move pending m Hm), (IH H).
  unfold singleTouchMoveEndStep. now rewrite Hm.
Qed.

(** X9. A single-touch session of move events, [k] of which report one
    active and one target-scoped contact, delivers one start event if [k]
    is not 0, [k - 1] values on the move stream, and nothing on the end
    stream, whatever came before the event that opened it.  A pinch
    session of move events, [k] of which report two active and two
    target-scoped contacts, delivers [k - 1] descriptors. *)
Theorem session_delivery_counts :
  (forall (pre moves : list TouchEvent) (e0 : TouchEvent),
      opensSingle e0 = true ->
      forallb isMove moves = true ->
      let k := length (List.filter feedsSingle moves) in
      length (delivered singleTouchMoveStart' (pre ++ [e0]) moves) = Nat.min 1 k
      /\ length (delivered singleTouchMove' (pre ++ [e0]) moves) = k - 1
      /\ delivered singleTouchMoveEnd' (pre ++ [e0]) moves = [])
  /\ (forall (pre moves : list TouchEvent) (e0 : TouchEvent),
      opensPinch e0 = true ->
      forallb isMove moves = true ->
      length (delivered pinch' (pre ++ [e0]) moves)
      = length (List.filter feedsPinch moves) - 1).
Proof.
  split.
  - intros pre moves e0 Hopen Hmoves k.
    rewrite singleTouchMoveStart_delivered, singleTouchMove_delivered,
      singleTouchMoveEnd_delivered, !reach_app.
    cbn [reach fold_left].
    rewrite (singleTouch_opens _ e0 Hopen), (singleTouchMoveStart_opens _ e0 Hopen).
    split; [|split].
    + now rewrite (singleTouchMoveStart_outputs_count moves Hmoves [e0]) by (cbn; lia).
    + now rewrite (singleTouch_outputs_count e0 moves Hmoves) by lia.
    + apply singleTouchMoveEnd_outputs_moves, Hmoves.
  - intros pre moves e0 Hopen Hmoves.
    rewrite pinch_delivered, reach_app. cbn [reach fold_left].
    rewrite (pinchChange_opens _ e0 Hopen).
    now rewrite (pinchChange_outputs_count e0 moves Hmoves) by lia.
Qed.

Lemma session_delivery_counts_witness :
  (length (delivered singleTouchMoveStart' ([] ++ [Examples.down1])
             [Examples.move1; Examples.pinchMove; Examples.move1'; Examples.move1])
   = 1
   /\ length (delivered singleTouchMove' ([] ++ [Examples.down1])
                [Examples.move1; Examples.pinchMove; Examples.move1'; Examples.move1])
      = 2
   /\ delivered singleTouchMoveEnd' ([] ++ [Examples.down1])
        [Examples.move1; Examples.pinchMove; Examples.move1'; Examples.move1]
      = [])
  /\ length (delivered pinch' ([] ++ [Examples.pinchDown])
               [Examples.pinchMove; Examples.move1; Examples.pinchMove'])
     = 1.
Proof.
  split.
  - apply (proj1 session_delivery_counts []
             [Examples.move1; Examples.pinchMove; Examples.move1'; Examples.move1]
             Examples.down1);
      reflexivity.
  - apply (proj2 session_delivery_counts []
             [Examples.pinchMove; Examples.move1; Examples.pinchMove']
             Examples.pinchDown);
      reflexivity.
Defined.

(** ** What the delivered values carry *)

Lemma singleTouchMoveStart_delivers (es : list TouchEvent) (m : TouchEvent)
  (d : TouchMove) :
  In d (emitted singleTouchMoveStart' es m) ->
  feedsSingle m = true /\ singleTouchMoveOperation m (TouchMove.new None) = Some d.
Proof.
  rewrite singleTouchMoveStart_emitted.
  generalize (reach singleTouchMoveStartStep [] es). intros pending.
  unfold singleTouchMoveStartStep, feedsSingle.
  destruct (isMove m), (oneTouch m), pending as [|e0 pending]; cbn [fst In andb];
    try tauto.
  destruct (singleTouchMoveOperation m (TouchMove.new None)) as [c|]; cbn [fst In];
    [|tauto].
  change (c :: List.map (fun _ : TouchEvent => c) pending)
    with (List.map (fun _ : TouchEvent => c) (e0 :: pending)).
  intros H. apply in_map_iff in H as (x & <- & _). auto.
Qed.

(** X10. Every value delivered on the start stream or on the move stream
    carries the lone contact of the event being dispatched: its identifier,
    its client, page and screen positions and its target are defined, and
    are those of [te.touches[0]]. *)
Theorem touch_move_carries_contact :
  forall (es : list TouchEvent) (m : TouchEvent) (t : Touch) (d : TouchMove),
    touches m = [t] ->
    In d (emitted singleTouchMoveStart' es m) \/ In d (emitted singleTouchMove' es m) ->
    TouchMove.identifier d = Some (Touch.identifier t)
    /\ TouchMove.clientX d = Some (Touch.clientX t)
    /\ TouchMove.clientY d = Some (Touch.clientY t)
    /\ TouchMove.pageX d = Some (Touch.pageX t)
    /\ TouchMove.pageY d = Some (Touch.pageY t)
    /\ TouchMove.screenX d = Some (Touch.screenX t)
    /\ TouchMove.screenY d = Some (Touch.screenY t)
    /\ TouchMove.target d = Some (Touch.target t).
Proof.
  intros es m t d Ht Hd.
  assert (Hop : exists previous, singleTouchMoveOperation m previous = Some d).
  { destruct Hd as [Hd | Hd].
    - destruct (singleTouchMoveStart_delivers es m d Hd) as [_ H]. eauto.
    - destruct (singleTouchMove_delivers es m d Hd) as (_ & e0 & acc & _ & H). eauto. }
  destruct Hop as [previous Hop].
  rewrite (singleTouchMoveOperation_lone m t previous Ht) in Hop.
  injection Hop as <-. repeat split.
Qed.

Lemma touch_move_carries_contact_witness :
  let d :=
    hd (TouchMove.new None)
      (emitted singleTouchMoveStart' [Examples.down1] Examples.move1') in
  TouchMove.identifier d = Some 0%Z
  /\ TouchMove.clientX d = Some 105%float
  /\ TouchMove.clientY d = Some 98%float
  /\ TouchMove.pageX d = Some 105%float
  /\ TouchMove.pageY d = Some 98%float
  /\ TouchMove.screenX d = Some 105%float
  /\ TouchMove.screenY d = Some 98%float
  /\ TouchMove.target d = Some 0.
Proof.
  exact (touch_move_carries_contact [Examples.down1] Examples.move1' Examples.finger1' _
           eq_refl (or_introl (or_introl eq_refl))).
Defined.

(** *** Signs *)

Module SignFacts.

(** An absolute value is not below zero. *)
Lemma abs_not_negative (x : float) : (abs x <? 0)%float = false.
Proof.
  rewrite ltb_spec, abs_spec. change (Prim2SF 0) with (S754_zero false).
  destruct (Prim2SF x) as [s|s| |s m e]; reflexivity.
Qed.

(** Nor is a square root, whatever it is the root of. *)
Lemma sqrt_not_negative (x : float) : (sqrt x <? 0)%float = false.
Proof.
  rewrite ltb_spec, sqrt_spec. change (Prim2SF 0) with (S754_zero false).
  destruct (Prim2SF x) as [[|]|[|]| |[|] m e]; try reflexivity.
  unfold SF64sqrt, SFsqrt.
  destruct (SFsqrt_core_binary prec emax (Z.pos m) e) as [[mz ez] lz].
  unfold binary_round_aux.
  destruct (shr_fexp _ _ _ _ _) as [mrs e'].
  destruct (shr_fexp _ _ _ _ _) as [mrs' e''].
  destruct (shr_m mrs'); try reflexivity.
  destruct (_ <=? _)%Z; reflexivity.
Qed.

(** A number that is neither NaN nor infinite, minus itself, is +0. *)
Lemma sub_diag_finite (x : float) : is_finite x = true -> (x - x)%float = 0%float.
Proof.
  intros H. apply Prim2SF_inj. rewrite sub_spec.
  change (Prim2SF 0) with (S754_zero false).
  destruct (Prim2SF x) as [[|]|s| |s m e] eqn:Hx; try reflexivity.
  - apply JsFacts.float_of_spec in Hx. subst x. destruct s; discriminate H.
  - apply JsFacts.float_of_spec in Hx. subst x. discriminate H.
  - unfold SF64sub, SFsub. now rewrite Z.sub_diag.
Qed.

End SignFacts.

(** X11. Every descriptor delivered on the change stream records the event
    and its two contacts, in the order of [te.touches], and none of its
    three distances is below zero. *)
Theorem pinch_descriptor_records_contacts :
  forall (es : list TouchEvent) (m : TouchEvent) (A B : Touch) (d : IPinch),
    touches m = [A; B] ->
    In d (emitted pinch' es m) ->
    IPinch.originalEvent d = Some m
    /\ IPinch.touch1 d = Some A
    /\ IPinch.touch2 d = Some B
    /\ (IPinch.distanceX d <? 0)%float = false
    /\ (IPinch.distanceY d <? 0)%float = false
    /\ (IPinch.distance d <? 0)%float = false.
Proof.
  intros es m A B d Ht Hd.
  destruct (pinch_computed es m d Hd) as (_ & previous & Hop).
  revert Hop. unfold pinchOperation. rewrite Ht. cbn [nth_error].
  intros [= <-]. cbn [IPinch.originalEvent IPinch.touch1 IPinch.touch2
                      IPinch.distanceX IPinch.distanceY IPinch.distance].
  unfold Math_abs, Math_sqrt.
  rewrite !SignFacts.abs_not_negative, SignFacts.sqrt_not_negative.
  repeat split.
Qed.

Lemma pinch_descriptor_records_contacts_witness :
  let d :=
    hd pinchSeed
      (emitted pinch' [Examples.pinchDown; Examples.pinchMove] Examples.pinchMove') in
  IPinch.originalEvent d = Some Examples.pinchMove'
  /\ IPinch.touch1 d = Some Examples.pinchA
  /\ IPinch.touch2 d = Some Examples.pinchB'
  /\ (IPinch.distanceX d <? 0)%float = false
  /\ (IPinch.distanceY d <? 0)%float = false
  /\ (IPinch.distance d <? 0)%float = false.
Proof.
  exact (pinch_descriptor_records_contacts
           [Examples.pinchDown; Examples.pinchMove] Examples.pinchMove'
           Examples.pinchA Examples.pinchB' _ eq_refl (or_introl eq_refl)).
Defined.

(** X12. When the two contacts of a move event have the same client
    position, neither NaN nor infinite, every descriptor delivered for it
    has distances 0 on X and on Y and distance 0. *)
Theorem pinch_coincident_contacts :
  forall (es : list TouchEvent) (m : TouchEvent) (A B : Touch) (d : IPinch),
    touches m = [A; B] ->
    In d (emitted pinch' es m) ->
    Touch.clientX A = Touch.clientX B ->
    Touch.clientY A = Touch.clientY B ->
    is_finite (Touch.clientX A) = true ->
    is_finite (Touch.clientY A) = true ->
    IPinch.distanceX d = 0%float
    /\ IPinch.distanceY d = 0%float
    /\ IPinch.distance d = 0%float.
Proof.
  intros es m A B d Ht Hd Hx Hy Hfx Hfy.
  destruct (pinch_computed es m d Hd) as (_ & previous & Hop).
  revert Hop. unfold pinchOperation. rewrite Ht. cbn [nth_error].
  intros [= <-]. cbn [IPinch.distanceX IPinch.distanceY IPinch.distance].
  rewrite <- Hx, <- Hy.
  rewrite (SignFacts.sub_diag_finite _ Hfx), (SignFacts.sub_diag_finite _ Hfy).
  repeat split.
Qed.

Lemma pinch_coincident_contacts_witness :
  let d :=
    hd pinchSeed
      (emitted pinch' [Examples.pinchDown; Examples.pinchMove]
         (Examples.event touchmove [Examples.pinchB; Examples.pinchB])) in
  IPinch.distanceX d = 0%float
  /\ IPinch.distanceY d = 0%float
  /\ IPinch.distance d = 0%float.
Proof.
  exact (pinch_coincident_contacts
           [Examples.pinchDown; Examples.pinchMove]
           (Examples.event touchmove [Examples.pinchB; Examples.pinchB])
           Examples.pinchB Examples.pinchB _ eq_refl (or_introl eq_refl)
           eq_refl eq_refl eq_refl eq_refl).
Defined.

(** * Further properties of the activation flag *)

Module ActivationMore.

Import Activation Observers.

Lemma run_snoc (s : State) (cs : list Call) (c : Call) :
  run s (cs ++ [c]) = call (run s cs) c.
Proof. unfold run. now rewrite fold_left_app. Qed.

Lemma next_observers (s : State) (v : bool) :
  observers (next v s) = observers s
  \/ observers (next v s) = List.map (fun received => received ++ [v]) (observers s).
Proof.
  unfold next, distinctUntilChanged. cbn.
  destruct (connection s) as [[k|]|]; cbn; [destruct (Bool.eqb k v)|..]; cbn; auto.
Qed.

Lemma agree_multicast (obs : list (list bool)) (v : bool) :
  agree obs -> agree (List.map (fun received => received ++ [v]) obs).
Proof.
  intros H i j r r' Hij Hi Hj.
  rewrite nth_error_map in Hi, Hj.
  destruct (nth_error obs i) as [r0|] eqn:Ei; [|discriminate].
  destruct (nth_error obs j) as [r0'|] eqn:Ej; [|discriminate].
  cbn in Hi, Hj. injection Hi as <-. injection Hj as <-.
  destruct (H i j r0 r0' Hij Ei Ej) as [missed ->].
  exists missed. now rewrite app_assoc.
Qed.

Lemma agree_subscribe (obs : list (list bool)) (v : bool) :
  agree obs ->
  Forall (fun received => exists earlier, received = earlier ++ [v]) obs ->
  agree (obs ++ [[v]]).
Proof.
  intros H Hlast i j r r' Hij Hi Hj.
  destruct (Nat.lt_ge_cases j (length obs)) as [Hlt | Hge].
  - rewrite nth_error_app1 in Hi, Hj by lia. eauto.
  - rewrite (nth_error_app2 obs) in Hj by lia.
    destruct (j - length obs) as [|[|k]] eqn:Ek; cbn in Hj; try discriminate.
    injection Hj as <-.
    destruct (Nat.lt_ge_cases i (length obs)) as [Hi' | Hi'].
    + rewrite nth_error_app1 in Hi by lia.
      rewrite Forall_forall in Hlast.
      exact (Hlast r (nth_error_In obs i Hi)).
    + rewrite (nth_error_app2 obs) in Hi by lia.
      replace (i - length obs) with 0 in Hi by lia. cbn in Hi.
      injection Hi as <-. now exists [].
Qed.

Lemma agree_reachable (cs : list Call) : agree (observers (run init cs)).
Proof.
  induction cs as [|c cs IH] using rev_ind.
  - intros i j r r' _ Hi. now destruct i.
  - rewrite run_snoc.
    pose proof (ActivationFacts.reachable_consistent cs) as Hc.
    destruct c as [v|]; cbn [call].
    + destruct (next_observers (run init cs) v) as [-> | ->];
        [exact IH | now apply agree_multicast].
    + rewrite (ActivationFacts.consistent_replay _ Hc).
      apply agree_subscribe; [exact IH|].
      revert Hc. unfold consistent.
      destruct (connection (run init cs)) as [key|].
      * intros (_ & _ & Hf). revert Hf. apply Forall_impl. now intros r [_ H].
      * intros (-> & _). constructor.
Qed.

End ActivationMore.

(** X13. After any calls, every observer of the activation flag has been
    notified at least once, and its latest notification is the value the
    flag has now: no observer is left with a stale value. *)
Theorem activation_observers_up_to_date :
  forall cs : list Activation.Call,
    let s := Activation.run Activation.init cs in
    forallb
      (fun received =>
         match rev received with
         | latest :: _ => Bool.eqb latest (Activation.value s)
         | [] => false
         end)
      (Activation.observers s)
    = true.
Proof.
  intros cs s. pose proof (ActivationFacts.reachable_consistent cs) as Hc.
  fold s in Hc. revert Hc. unfold Activation.consistent.
  destruct (Activation.connection s) as [key|].
  - intros (_ & _ & Hf). apply forallb_forall. intros r Hr.
    rewrite Forall_forall in Hf. destruct (Hf r Hr) as (_ & earlier & ->).
    rewrite rev_app_distr. cbn. apply eqb_reflx.
  - now intros (-> & _).
Qed.

(** X14. After any calls, two observers of the activation flag have
    received the same notifications since the later of them subscribed:
    what the earlier has received is what the later has received, after
    what the later has missed. *)
Theorem activation_observers_agree :
  forall (cs : list Activation.Call) (i j : nat) (r r' : list bool),
    i <= j ->
    nth_error (Activation.observers (Activation.run Activation.init cs)) i = Some r ->
    nth_error (Activation.observers (Activation.run Activation.init cs)) j = Some r' ->
    exists missed : list bool, r = missed ++ r'.
Proof. intros cs. exact (ActivationMore.agree_reachable cs). Qed.

Lemma activation_observers_agree_witness :
  exists missed : list bool, [false; true; false] = missed ++ [true; false].
Proof.
  apply (activation_observers_agree
           [Activation.Subscribe; Activation.Next true; Activation.Subscribe;
            Activation.Next false]
           0 1);
    [lia | reflexivity | reflexivity].
Defined.

(** * Further properties of the wheel zoom *)

Module ZoomFacts.

Import FloatSign.

(** Rounding keeps the sign it is given. *)
Lemma binary_round_aux_signed (s : bool) (m e : Z) (l : location) :
  signed s (binary_round_aux prec emax s m e l).
Proof.
  unfold binary_round_aux.
  destruct (shr_fexp _ _ _ _ _) as [mrs e'].
  destruct (shr_fexp _ _ _ _ _) as [mrs' e''].
  destruct (shr_m mrs'); try exact I; try reflexivity.
  destruct (_ <=? _)%Z; reflexivity.
Qed.

(** The rule of signs, for a product and for a quotient. *)
Lemma SFmul_signed (sx sy : bool) (x y : spec_float) :
  signed sx x -> signed sy y -> signed (xorb sx sy) (SF64mul x y).
Proof.
  destruct x as [s|s| |s m e], y as [s'|s'| |s' m' e']; cbn; intros; subst;
    try exact I; try reflexivity.
  apply binary_round_aux_signed.
Qed.

Lemma SFdiv_signed (sx sy : bool) (x y : spec_float) :
  signed sx x -> signed sy y -> signed (xorb sx sy) (SF64div x y).
Proof.
  destruct x as [s|s| |s m e], y as [s'|s'| |s' m' e']; cbn; intros; subst;
    try exact I; try reflexivity.
  destruct (SFdiv_core_binary _ _ _ _ _ _) as [[mz ez] lz].
  apply binary_round_aux_signed.
Qed.

Lemma positive_signed (x : float) : (0 <? x)%float = true -> signed false (Prim2SF x).
Proof.
  rewrite ltb_spec. change (Prim2SF 0) with (S754_zero false).
  destruct (Prim2SF x) as [s|[|]| |[|] m e]; cbn; congruence.
Qed.

Lemma negative_signed (x : float) : (x <? 0)%float = true -> signed true (Prim2SF x).
Proof.
  rewrite ltb_spec. change (Prim2SF 0) with (S754_zero false).
  destruct (Prim2SF x) as [s|[|]| |[|] m e]; cbn; congruence.
Qed.

Lemma signed_not_positive (x : float) : signed true (Prim2SF x) -> (0 <? x)%float = false.
Proof.
  rewrite ltb_spec. change (Prim2SF 0) with (S754_zero false).
  destruct (Prim2SF x) as [s|s| |s m e]; cbn; intros; subst; reflexivity.
Qed.

Lemma signed_not_negative (x : float) : signed false (Prim2SF x) -> (x <? 0)%float = false.
Proof.
  rewrite ltb_spec. change (Prim2SF 0) with (S754_zero false).
  destruct (Prim2SF x) as [s|s| |s m e]; cbn; intros; subst; reflexivity.
Qed.

(** The normalized [deltaY] has the sign of [deltaY], in the three modes. *)
Lemma normalizedDeltaY_signed (s : bool) (event : ScrollZoomHandler.WheelEvent) :
  signed s (Prim2SF (ScrollZoomHandler.deltaY event)) ->
  signed s (Prim2SF (ScrollZoomHandler.normalizedDeltaY event)).
Proof.
  intros H. unfold ScrollZoomHandler.normalizedDeltaY. cbv zeta.
  destruct (ScrollZoomHandler.deltaMode event =? 1)%N;
    [|destruct (ScrollZoomHandler.deltaMode event =? 2)%N];
    try exact H;
    rewrite mul_spec; apply (SFmul_signed false s); (exact eq_refl || exact H).
Qed.

(** -3 times a number divided by a positive number has the other sign. *)
Lemma zoom_signed (s : bool) (deltaY canvasHeight : float) :
  signed s (Prim2SF deltaY) ->
  (0 <? canvasHeight)%float = true ->
  signed (negb s) (Prim2SF (-3 * deltaY / canvasHeight)%float).
Proof.
  intros Hd Hh. rewrite div_spec, mul_spec.
  replace (negb s) with (xorb (xorb true s) false) by now destruct s.
  apply SFdiv_signed; [apply SFmul_signed; [exact eq_refl | exact Hd]|].
  now apply positive_signed.
Qed.

(** Dividing by a zero, of either sign, gives an infinity or NaN. *)
Lemma div_zero_not_finite (x h : float) :
  (h =? 0)%float = true -> is_finite (x / h) = false.
Proof.
  rewrite FloatAxioms.eqb_spec. change (Prim2SF 0) with (S754_zero false).
  intros H.
  assert (Hq : Prim2SF (x / h) = S754_nan
               \/ exists s, Prim2SF (x / h) = S754_infinity s).
  { rewrite div_spec.
    destruct (Prim2SF h) as [s|s| |s m e]; try discriminate H;
      try (exfalso; revert H; unfold SFeqb, SFcompare; destruct s; intros H;
           discriminate H).
    destruct (Prim2SF x) as [s'|s'| |s' m' e']; cbn; eauto. }
  destruct Hq as [Hq | [s Hq]].
  - rewrite <- (SF2Prim_Prim2SF (x / h)), Hq. reflexivity.
  - rewrite <- (SF2Prim_Prim2SF (x / h)), Hq. destruct s; reflexivity.
Qed.

End ZoomFacts.

(** X15. On an element of positive height, the zoom passed to [zoomIn]
    never has the sign of the wheel's [deltaY]: they are not both above
    zero, and not both below zero, in any of the three delta modes.  (The
    zoom may be a zero, when the quotient underflows, or NaN, when [deltaY]
    and the height are both infinite.) *)
Theorem wheel_zoom_opposes_delta :
  forall (HTMLElement Perspective Transform Vector3 Basic : Type)
         (offsetWidth offsetHeight : HTMLElement -> number)
         (canvasPosition : ScrollZoomHandler.WheelEvent -> HTMLElement -> number * number)
         (unprojectFromCanvas :
            number -> number -> number -> number -> Perspective -> Vector3)
         (projectBasic : Transform -> Vector3 -> Basic)
         (element : HTMLElement) (event : ScrollZoomHandler.WheelEvent)
         (perspective : Perspective) (transform : Transform),
    (0 <? offsetHeight element)%float = true ->
    let zoom :=
      ScrollZoomHandler.zoom
        (ScrollZoomHandler.subscriber offsetWidth offsetHeight canvasPosition
           unprojectFromCanvas projectBasic element event perspective transform) in
    ((0 <? ScrollZoomHandler.deltaY event) && (0 <? zoom))%float = false
    /\ ((ScrollZoomHandler.deltaY event <? 0) && (zoom <? 0))%float = false.
Proof.
  intros until transform. intros Hh zoom.
  assert (Hz : zoom = (-3 * ScrollZoomHandler.normalizedDeltaY event
                       / offsetHeight element)%float).
  { subst zoom. unfold ScrollZoomHandler.subscriber.
    now destruct (canvasPosition event element). }
  split.
  - destruct (0 <? ScrollZoomHandler.deltaY event)%float eqn:Hd; [|reflexivity].
    cbn. rewrite Hz. apply ZoomFacts.signed_not_positive.
    apply (ZoomFacts.zoom_signed false); [|exact Hh].
    apply ZoomFacts.normalizedDeltaY_signed. now apply ZoomFacts.positive_signed.
  - destruct (ScrollZoomHandler.deltaY event <? 0)%float eqn:Hd; [|reflexivity].
    cbn. rewrite Hz. apply ZoomFacts.signed_not_negative.
    apply (ZoomFacts.zoom_signed true); [|exact Hh].
    apply ZoomFacts.normalizedDeltaY_signed. now apply ZoomFacts.negative_signed.
Qed.

Lemma wheel_zoom_opposes_delta_witness :
  let zoom :=
    ScrollZoomHandler.zoom
      (ScrollZoomHandler.subscriber
         (fun _ : unit => 800%float) (fun _ : unit => 600%float)
         (fun _ _ => (400%float, 300%float))
         (fun _ _ _ _ (_ : unit) => tt) (fun (_ : unit) _ => tt)
         tt Examples.wheel tt tt) in
  ((0 <? ScrollZoomHandler.deltaY Examples.wheel) && (0 <? zoom))%float = false
  /\ ((ScrollZoomHandler.deltaY Examples.wheel <? 0) && (zoom <? 0))%float = false.
Proof.
  exact (wheel_zoom_opposes_delta unit unit unit unit unit
           (fun _ : unit => 800%float) (fun _ : unit => 600%float)
           (fun _ _ => (400%float, 300%float))
           (fun _ _ _ _ (_ : unit) => tt) (fun (_ : unit) _ => tt)
           tt Examples.wheel tt tt eq_refl).
Defined.

(** X16. On an element of height zero the subscriber still calls [zoomIn]:
    the division does not fail, and the zoom it passes is an infinity or
    NaN, whatever the wheel event. *)
Theorem wheel_zoom_zero_height :
  forall (HTMLElement Perspective Transform Vector3 Basic : Type)
         (offsetWidth offsetHeight : HTMLElement -> number)
         (canvasPosition : ScrollZoomHandler.WheelEvent -> HTMLElement -> number * number)
         (unprojectFromCanvas :
            number -> number -> number -> number -> Perspective -> Vector3)
         (projectBasic : Transform -> Vector3 -> Basic)
         (element : HTMLElement) (event : ScrollZoomHandler.WheelEvent)
         (perspective : Perspective) (transform : Transform),
    (offsetHeight element =? 0)%float = true ->
    is_finite
      (ScrollZoomHandler.zoom
         (ScrollZoomHandler.subscriber offsetWidth offsetHeight canvasPosition
            unprojectFromCanvas projectBasic element event perspective transform))
    = false.
Proof.
  intros until transform. intros Hh.
  unfold ScrollZoomHandler.subscriber.
  destruct (canvasPosition event element).
  cbn [ScrollZoomHandler.zoom].
  now apply ZoomFacts.div_zero_not_finite.
Qed.

Lemma wheel_zoom_zero_height_witness :
  is_finite
    (ScrollZoomHandler.zoom
       (ScrollZoomHandler.subscriber
          (fun _ : unit => 800%float) (fun _ : unit => 0%float)
          (fun _ _ => (400%float, 300%float))
          (fun _ _ _ _ (_ : unit) => tt) (fun (_ : unit) _ => tt)
          tt Examples.wheel tt tt))
  = false.
Proof.
  exact (wheel_zoom_zero_height unit unit unit unit unit
           (fun _ : unit => 800%float) (fun _ : unit => 0%float)
           (fun _ _ => (400%float, 300%float))
           (fun _ _ _ _ (_ : unit) => tt) (fun (_ : unit) _ => tt)
           tt Examples.wheel tt tt eq_refl).
Defined.

(** * Properties of the render service *)

Module RenderFacts.

Import RenderService Observers.

Section Service.

Variable RenderMode : Type.

Implicit Types (s : State RenderMode) (cs : list (Call RenderMode)).

Lemma service_run_snoc s cs (c : Call RenderMode) : run s (cs ++ [c]) = call (run s cs) c.
Proof. unfold run. now rewrite fold_left_app. Qed.

Lemma service_run_app s cs cs' : run s (cs ++ cs') = run (run s cs) cs'.
Proof. unfold run. now rewrite fold_left_app. Qed.

Lemma sizes_consistent_replay (value : ISize) s :
  connected s = true -> consistent (replay value s).
Proof.
  intros Hc. unfold consistent. cbn. rewrite Hc. exists value. split; [reflexivity|].
  apply Forall_forall. intros r Hr. apply in_map_iff in Hr.
  destruct Hr as (r0 & <- & _). now exists r0.
Qed.

Lemma sizes_consistent_call s (c : Call RenderMode) : consistent s -> consistent (call s c).
Proof.
  intros H. destruct c; cbn [call]; try exact H.
  - unfold resize. destruct (connected s) eqn:Hc; [|exact H].
    now apply sizes_consistent_replay.
  - unfold subscribeSize. destruct (connected s) eqn:Hc.
    + revert H. unfold consistent. cbn. rewrite Hc.
      intros (cached & Hb & Hf). exists cached. split; [exact Hb|].
      apply Forall_app. split; [exact Hf|]. rewrite Hb.
      constructor; [now exists [] | constructor].
    + now apply sizes_consistent_replay.
Qed.

Lemma sizes_consistent_run s cs : consistent s -> consistent (run s cs).
Proof.
  revert s. induction cs as [|c cs IH]; intros s H; [exact H|].
  apply IH. now apply sizes_consistent_call.
Qed.

Lemma sizes_consistent_new (Letterbox : RenderMode) (h w : number) (mode : option RenderMode) :
  consistent (new Letterbox h w mode).
Proof. now split. Qed.



Lemma agree_replay (obs : list (list ISize)) (value : ISize) :
  agree obs -> agree (List.map (fun received => received ++ [value]) obs).
Proof.
  intros H i j r r' Hij Hi Hj.
  rewrite nth_error_map in Hi, Hj.
  destruct (nth_error obs i) as [r0|] eqn:Ei; [|discriminate].
  destruct (nth_error obs j) as [r0'|] eqn:Ej; [|discriminate].
  cbn in Hi, Hj. injection Hi as <-. injection Hj as <-.
  destruct (H i j r0 r0' Hij Ei Ej) as [missed ->].
  exists missed. now rewrite app_assoc.
Qed.

Lemma agree_snoc (obs : list (list ISize)) (late : list ISize) :
  agree obs ->
  Forall (fun received => exists earlier, received = earlier ++ late) obs ->
  agree (obs ++ [late]).
Proof.
  intros H Hlast i j r r' Hij Hi Hj.
  destruct (Nat.lt_ge_cases j (length obs)) as [Hlt | Hge].
  - rewrite nth_error_app1 in Hi, Hj by lia. eauto.
  - rewrite (nth_error_app2 obs) in Hj by lia.
    destruct (j - length obs) as [|[|k]] eqn:Ek; cbn in Hj; try discriminate.
    injection Hj as <-.
    destruct (Nat.lt_ge_cases i (length obs)) as [Hi' | Hi'].
    + rewrite nth_error_app1 in Hi by lia.
      rewrite Forall_forall in Hlast.
      exact (Hlast r (nth_error_In obs i Hi)).
    + rewrite (nth_error_app2 obs) in Hi by lia.
      replace (i - length obs) with 0 in Hi by lia. cbn in Hi.
      injection Hi as <-. now exists [].
Qed.

Lemma agree_call s (c : Call RenderMode) :
  consistent s -> agree (sizeObservers s) -> agree (sizeObservers (call s c)).
Proof.
  intros Hc H. destruct c; cbn [call]; try exact H.
  - unfold resize. destruct (connected s); [|exact H]. now apply agree_replay.
  - revert Hc. unfold subscribeSize, consistent. destruct (connected s).
    + intros (cached & Hb & Hf). cbn. rewrite Hb. now apply agree_snoc.
    + intros (Hb & Ho). cbn. rewrite Hb, Ho. cbn.
      intros i j r r' Hij Hi Hj.
      destruct j as [|[|j]]; try discriminate Hj.
      replace i with 0 in Hi by lia. cbn in Hi, Hj.
      injection Hi as <-. injection Hj as <-. now exists [].
Qed.

Lemma agree_run s cs :
  consistent s -> agree (sizeObservers s) -> agree (sizeObservers (run s cs)).
Proof.
  revert s. induction cs as [|c cs IH]; intros s Hc H; [exact H|].
  apply IH; [now apply sizes_consistent_call | now apply agree_call].
Qed.

(** The render mode. *)

Lemma modes_snoc cs (c : Call RenderMode) :
  modes (cs ++ [c]) = modes cs ++ match c with RenderModeNext mode => [mode] | _ => [] end.
Proof. unfold modes. rewrite flat_map_app. cbn. now rewrite app_nil_r. Qed.

Lemma renderMode_run s cs : renderMode (run s cs) = last (modes cs) (renderMode s).
Proof.
  induction cs as [|c cs IH] using rev_ind; [reflexivity|].
  rewrite service_run_snoc, modes_snoc.
  destruct c; cbn [call]; rewrite ?app_nil_r;
    [unfold resize; now destruct (connected _)
    |unfold subscribeSize; now destruct (connected _)
    |now rewrite last_last
    |exact IH
    |exact IH].
Qed.

Lemma renderModeObservers_length s cs :
  length (renderModeObservers (run s cs))
  = length (renderModeObservers s) + renderModeSubscriptions cs.
Proof.
  induction cs as [|c cs IH] using rev_ind; [cbn; lia|].
  rewrite service_run_snoc. unfold renderModeSubscriptions in *. rewrite filter_app, length_app.
  destruct c; cbn [call];
    [unfold resize; destruct (connected _)
    |unfold subscribeSize; destruct (connected _)
    |..];
    cbn; rewrite ?length_map, ?length_app; cbn; lia.
Qed.

(** The size stream against the history. *)





Lemma renderModeObserver_log s cs (n : nat) :
  n = length (renderModeObservers s) ->
  nth_error (renderModeObservers (run (subscribeRenderMode s) cs)) n
  = Some (renderMode s :: modes cs).
Proof.
  intros ->. induction cs as [|c cs IH] using rev_ind.
  - cbn. rewrite nth_error_app2 by lia. now rewrite Nat.sub_diag.
  - rewrite service_run_snoc, modes_snoc.
    destruct c; cbn [call]; rewrite ?app_nil_r.
    + unfold resize. now destruct (connected _).
    + unfold subscribeSize. now destruct (connected _).
    + cbn. rewrite nth_error_map, IH. reflexivity.
    + cbn. rewrite nth_error_app1; [exact IH|].
      apply nth_error_Some. now rewrite IH.
    + exact IH.
Qed.

End Service.

End RenderFacts.



(** X18. After any calls, every observer of the size stream has been given
    at least one size, the latest it was given is the one in the buffer, and
    two observers have been given the same sizes since the later of them
    subscribed. *)
Theorem render_size_observers_agree :
  forall (RenderMode : Type) (Letterbox : RenderMode)
         (offsetHeight offsetWidth : number) (renderMode : option RenderMode)
         (cs : list (RenderService.Call RenderMode)),
    let s :=
      RenderService.run
        (RenderService.new Letterbox offsetHeight offsetWidth renderMode) cs in
    Forall
      (fun received =>
         exists (earlier : list RenderService.ISize) (latest : RenderService.ISize),
           received = earlier ++ [latest] /\ RenderService.buffer s = Some latest)
      (RenderService.sizeObservers s)
    /\ Observers.agree (RenderService.sizeObservers s).
Proof.
  intros RenderMode Letterbox h w mode cs s. split.
  - assert (Hc : RenderService.consistent s).
    { apply RenderFacts.sizes_consistent_run, RenderFacts.sizes_consistent_new. }
    revert Hc. unfold RenderService.consistent.
    destruct (RenderService.connected s).
    + intros (cached & Hb & Hf). revert Hf. apply Forall_impl.
      intros r [earlier ->]. now exists earlier, cached.
    + intros (_ & ->). constructor.
  - apply RenderFacts.agree_run; [apply RenderFacts.sizes_consistent_new|].
    intros i j r r' _ Hi. now destruct i.
Qed.

(** X19. An observer of the render mode is given the mode the subject holds
    when it subscribes and then every mode passed to [onNext], in order,
    one that repeats the mode before it included.  The mode the subject
    holds is the last one passed to [onNext]; before any, it is the mode the
    service was constructed with, and [Letterbox] when that was [null]. *)
Theorem render_mode_observer_log :
  forall (RenderMode : Type) (Letterbox : RenderMode)
         (offsetHeight offsetWidth : number) (renderMode : option RenderMode)
         (cs cs' : list (RenderService.Call RenderMode)),
    let service := RenderService.new Letterbox offsetHeight offsetWidth renderMode in
    let held :=
      last (RenderService.modes cs)
        (match renderMode with Some mode => mode | None => Letterbox end) in
    RenderService.renderMode (RenderService.run service cs) = held
    /\ nth_error
         (RenderService.renderModeObservers
            (RenderService.run service
               (cs ++ RenderService.SubscribeRenderMode RenderMode :: cs')))
         (RenderService.renderModeSubscriptions cs)
       = Some (held :: RenderService.modes cs').
Proof.
  intros RenderMode Letterbox h w mode cs cs' service held.
  assert (Hheld : RenderService.renderMode (RenderService.run service cs) = held).
  { subst held. now rewrite RenderFacts.renderMode_run. }
  split; [exact Hheld|].
  rewrite RenderFacts.service_run_app. cbn [RenderService.run fold_left RenderService.call].
  fold (RenderService.run
          (RenderService.subscribeRenderMode (RenderService.run service cs)) cs').
  rewrite <- Hheld. apply RenderFacts.renderModeObserver_log.
  now rewrite RenderFacts.renderModeObservers_length.
Qed.

(** * Properties of the subscriptions of the scroll zoom handler *)

Module ScrollZoomFacts.

Import ScrollZoomHandler ScrollZoomSubscriptions.

Section Handler.

Variables (RenderCamera Transform : Type).

Implicit Types (h : Handler RenderCamera Transform)
               (inputs : list (Input RenderCamera Transform))
               (l : Latest RenderCamera Transform).

Lemma run_once (f : option IFrame) (r : option RenderCamera) (t : option Transform) inputs :
  quiet inputs = true ->
  run (once {| frame := f; render := r; transform := t |}) inputs
  = once (latest f r t inputs).
Proof.
  revert f r t. induction inputs as [|i inputs IH]; intros f r t Hq; [reflexivity|].
  cbn in Hq. apply andb_prop in Hq. destruct Hq as [Hi Hq].
  destruct i; try discriminate Hi; cbn [run fold_left input];
    [exact (IH f r t Hq) | exact (IH (Some f0) r t Hq)
    | exact (IH f (Some r0) t Hq) | exact (IH f r (Some t0) Hq)].
Qed.

Lemma run_ended inputs :
  quiet inputs = true ->
  run (ended RenderCamera Transform) inputs = ended RenderCamera Transform.
Proof.
  induction inputs as [|i inputs IH]; intros Hq; [reflexivity|].
  cbn in Hq. apply andb_prop in Hq. destruct Hq as [Hi Hq].
  destruct i; try discriminate Hi; cbn [run fold_left input]; exact (IH Hq).
Qed.

Lemma handler_run_snoc h inputs (i : Input RenderCamera Transform) :
  run h (inputs ++ [i]) = input (run h inputs) i.
Proof. unfold run. now rewrite fold_left_app. Qed.

Lemma enabled_snoc inputs (i : Input RenderCamera Transform) :
  enabled (inputs ++ [i])
  = match i with
    | Enable _ _ _ => true
    | Disable _ _ => false
    | _ => enabled inputs
    end.
Proof. unfold enabled. now rewrite fold_left_app. Qed.

Lemma holding_see (b : bool)
  (update : Latest RenderCamera Transform -> Latest RenderCamera Transform) h :
  holding b h -> holding b (see update h).
Proof. destruct b; intros H; exact H. Qed.

Lemma holding_run inputs :
  holding (enabled inputs) (run (created RenderCamera Transform) inputs).
Proof.
  induction inputs as [|i inputs IH] using rev_ind; [now split|].
  rewrite handler_run_snoc, enabled_snoc.
  destruct i; cbn [input]; try (now apply holding_see); try exact IH.
  - exists (subscriptions (run (created _ _) inputs)),
      (S (subscriptions (run (created _ _) inputs))).
    cbn. repeat split. apply in_or_app. right. now left.
  - revert IH. unfold holding, _disable. destruct (enabled inputs).
    + intros (prevent & zoom & -> & -> & _). now split.
    + intros (Hp & Hz). rewrite Hp. cbn. now split.
Qed.

End Handler.

End ScrollZoomFacts.

(** X20. Between [_enable], on a handler just created, and [_disable], every
    wheel event has [preventDefault] called on it once, whether or not
    [filtered$] passes it on and whatever the state is.  [zoomIn] is called
    for it, once, when [filtered$] passes it on, the latest frame is of a
    full panorama or has less than one node ahead, and the render camera and
    the transform have each given a value; the call is the one of the
    subscriber with the latest render camera and transform.  Otherwise
    [zoomIn] is not called. *)
Theorem scroll_zoom_wheel_event :
  forall (HTMLElement Perspective RenderCamera Transform Vector3 Basic : Type)
         (offsetWidth offsetHeight : HTMLElement -> number)
         (canvasPosition : ScrollZoomHandler.WheelEvent -> HTMLElement -> number * number)
         (unprojectFromCanvas :
            number -> number -> number -> number -> Perspective -> Vector3)
         (projectBasic : Transform -> Vector3 -> Basic)
         (perspective : RenderCamera -> Perspective)
         (element : HTMLElement)
         (f : option ScrollZoomSubscriptions.IFrame)
         (r : option RenderCamera) (t : option Transform)
         (inputs : list (ScrollZoomSubscriptions.Input RenderCamera Transform))
         (event : ScrollZoomHandler.WheelEvent) (claimed : bool),
    ScrollZoomSubscriptions.quiet inputs = true ->
    let h :=
      ScrollZoomSubscriptions.run
        (ScrollZoomSubscriptions._enable f r t
           (ScrollZoomSubscriptions.created RenderCamera Transform))
        inputs in
    let seen := ScrollZoomSubscriptions.latest f r t inputs in
    let effects :=
      ScrollZoomSubscriptions.mouseWheel offsetWidth offsetHeight canvasPosition
        unprojectFromCanvas projectBasic perspective element event claimed h in
    ScrollZoomSubscriptions.preventDefault effects = 1
    /\ ScrollZoomSubscriptions.zoomIn effects
       = match ScrollZoomSubscriptions.frame seen,
               ScrollZoomSubscriptions.render seen,
               ScrollZoomSubscriptions.transform seen with
         | Some f', Some r', Some t' =>
             if claimed
                && (ScrollZoomSubscriptions.fullPano
                      (ScrollZoomSubscriptions.currentNode
                         (ScrollZoomSubscriptions.state f'))
                    || (ScrollZoomSubscriptions.nodesAhead
                          (ScrollZoomSubscriptions.state f') <? 1)%float)
             then [ScrollZoomHandler.subscriber offsetWidth offsetHeight
                     canvasPosition unprojectFromCanvas projectBasic
                     element event (perspective r') t']
             else []
         | _, _, _ => []
         end.
Proof.
  intros until claimed. intros Hq h seen effects.
  assert (Hh : h = ScrollZoomSubscriptions.once seen).
  { exact (ScrollZoomFacts.run_once _ _ f r t inputs Hq). }
  subst effects. rewrite Hh. clearbody h seen. split; [reflexivity|].
  cbn -[orb]. unfold ScrollZoomSubscriptions.zoomed, ScrollZoomSubscriptions.passes.
  destruct claimed;
    destruct (ScrollZoomSubscriptions.frame seen) as [f'|];
    destruct (ScrollZoomSubscriptions.render seen) as [r'|];
    destruct (ScrollZoomSubscriptions.transform seen) as [t'|];
    cbn -[orb]; try reflexivity;
    destruct (_ || _); reflexivity.
Qed.

Lemma scroll_zoom_wheel_event_witness :
  let frame :=
    {| ScrollZoomSubscriptions.state :=
         {| ScrollZoomSubscriptions.currentNode :=
              {| ScrollZoomSubscriptions.fullPano := false |};
            ScrollZoomSubscriptions.nodesAhead := 0%float |} |} in
  let effects :=
    ScrollZoomSubscriptions.mouseWheel
      (fun _ : unit => 800%float) (fun _ : unit => 600%float)
      (fun _ _ => (400%float, 300%float))
      (fun _ _ _ _ (_ : unit) => tt) (fun (_ : unit) _ => tt)
      (fun _ : unit => tt) tt Examples.wheel true
      (ScrollZoomSubscriptions.run
         (ScrollZoomSubscriptions._enable None (Some tt) None
            (ScrollZoomSubscriptions.created unit unit))
         [ScrollZoomSubscriptions.CurrentTransform unit tt;
          ScrollZoomSubscriptions.CurrentState unit unit frame]) in
  ScrollZoomSubscriptions.preventDefault effects = 1
  /\ ScrollZoomSubscriptions.zoomIn effects
     = [{| ScrollZoomHandler.zoom := (-0x1.3333333333333p-1)%float;
           ScrollZoomHandler.reference := tt |}].
Proof.
  exact (scroll_zoom_wheel_event unit unit unit unit unit unit
           (fun _ : unit => 800%float) (fun _ : unit => 600%float)
           (fun _ _ => (400%float, 300%float))
           (fun _ _ _ _ (_ : unit) => tt) (fun (_ : unit) _ => tt)
           (fun _ : unit => tt) tt None (Some tt) None
           [ScrollZoomSubscriptions.CurrentTransform unit tt;
            ScrollZoomSubscriptions.CurrentState unit unit
              {| ScrollZoomSubscriptions.state :=
                   {| ScrollZoomSubscriptions.currentNode :=
                        {| ScrollZoomSubscriptions.fullPano := false |};
                      ScrollZoomSubscriptions.nodesAhead := 0%float |} |}]
           Examples.wheel true eq_refl).
Defined.

(** X21. [_disable], after [_enable] on a handler just created, does not
    throw, and ends both subscriptions: the two fields are [null], and a
    wheel event after it has [preventDefault] called on it by no one and
    leads to no call of [zoomIn].  A second [_disable] throws a [TypeError]
    and changes nothing. *)
Theorem scroll_zoom_disable_ends_both :
  forall (HTMLElement Perspective RenderCamera Transform Vector3 Basic : Type)
         (offsetWidth offsetHeight : HTMLElement -> number)
         (canvasPosition : ScrollZoomHandler.WheelEvent -> HTMLElement -> number * number)
         (unprojectFromCanvas :
            number -> number -> number -> number -> Perspective -> Vector3)
         (projectBasic : Transform -> Vector3 -> Basic)
         (perspective : RenderCamera -> Perspective)
         (element : HTMLElement)
         (f : option ScrollZoomSubscriptions.IFrame)
         (r : option RenderCamera) (t : option Transform)
         (inputs inputs' : list (ScrollZoomSubscriptions.Input RenderCamera Transform))
         (event : ScrollZoomHandler.WheelEvent) (claimed : bool),
    ScrollZoomSubscriptions.quiet inputs = true ->
    ScrollZoomSubscriptions.quiet inputs' = true ->
    let h :=
      ScrollZoomSubscriptions.run
        (ScrollZoomSubscriptions._enable f r t
           (ScrollZoomSubscriptions.created RenderCamera Transform))
        inputs in
    let h' :=
      ScrollZoomSubscriptions.run (fst (ScrollZoomSubscriptions._disable h)) inputs' in
    snd (ScrollZoomSubscriptions._disable h) = false
    /\ ScrollZoomSubscriptions._preventDefaultSubscription h' = None
    /\ ScrollZoomSubscriptions._zoomSubscription h' = None
    /\ ScrollZoomSubscriptions.mouseWheel offsetWidth offsetHeight canvasPosition
         unprojectFromCanvas projectBasic perspective element event claimed h'
       = {| ScrollZoomSubscriptions.preventDefault := 0;
            ScrollZoomSubscriptions.zoomIn := [] |}
    /\ ScrollZoomSubscriptions._disable h' = (h', true).
Proof.
  intros until claimed. intros Hq Hq' h h'.
  assert (Hh : h = ScrollZoomSubscriptions.once
                     (ScrollZoomSubscriptions.latest f r t inputs)).
  { exact (ScrollZoomFacts.run_once _ _ f r t inputs Hq). }
  assert (Hh' : h' = ScrollZoomSubscriptions.ended RenderCamera Transform).
  { subst h'. rewrite Hh. exact (ScrollZoomFacts.run_ended _ _ inputs' Hq'). }
  rewrite Hh', Hh. repeat split. now destruct claimed.
Qed.

Lemma scroll_zoom_disable_ends_both_witness :
  let h :=
    ScrollZoomSubscriptions.run
      (ScrollZoomSubscriptions._enable None (Some tt) (Some tt)
         (ScrollZoomSubscriptions.created unit unit))
      [ScrollZoomSubscriptions.MouseWheel unit unit Examples.wheel true] in
  let h' :=
    ScrollZoomSubscriptions.run (fst (ScrollZoomSubscriptions._disable h))
      [ScrollZoomSubscriptions.RenderCamera' unit tt] in
  snd (ScrollZoomSubscriptions._disable h) = false
  /\ ScrollZoomSubscriptions._preventDefaultSubscription h' = None
  /\ ScrollZoomSubscriptions._zoomSubscription h' = None
  /\ ScrollZoomSubscriptions.mouseWheel
       (fun _ : unit => 800%float) (fun _ : unit => 600%float)
       (fun _ _ => (400%float, 300%float))
       (fun _ _ _ _ (_ : unit) => tt) (fun (_ : unit) _ => tt)
       (fun _ : unit => tt) tt Examples.wheel true h'
     = {| ScrollZoomSubscriptions.preventDefault := 0;
          ScrollZoomSubscriptions.zoomIn := [] |}
  /\ ScrollZoomSubscriptions._disable h' = (h', true).
Proof.
  exact (scroll_zoom_disable_ends_both unit unit unit unit unit unit
           (fun _ : unit => 800%float) (fun _ : unit => 600%float)
           (fun _ _ => (400%float, 300%float))
           (fun _ _ _ _ (_ : unit) => tt) (fun (_ : unit) _ => tt)
           (fun _ : unit => tt) tt None (Some tt) (Some tt)
           [ScrollZoomSubscriptions.MouseWheel unit unit Examples.wheel true]
           [ScrollZoomSubscriptions.RenderCamera' unit tt]
           Examples.wheel true eq_refl eq_refl).
Defined.

(** X22. Whatever has happened to a handler since it was created,
    [_disable] throws a [TypeError] exactly when no [_enable] has come
    since the last [_disable], or ever, and then it changes nothing; when
    it does not throw, a subscription that calls [preventDefault] was
    live. *)
Theorem scroll_zoom_disable_needs_enable :
  forall (RenderCamera Transform : Type)
         (inputs : list (ScrollZoomSubscriptions.Input RenderCamera Transform)),
    let h :=
      ScrollZoomSubscriptions.run
        (ScrollZoomSubscriptions.created RenderCamera Transform) inputs in
    snd (ScrollZoomSubscriptions._disable h)
    = negb (ScrollZoomSubscriptions.enabled inputs)
    /\ (if ScrollZoomSubscriptions.enabled inputs
        then 1 <= length (ScrollZoomSubscriptions.mouseWheelObservers h)
        else fst (ScrollZoomSubscriptions._disable h) = h).
Proof.
  intros RenderCamera Transform inputs h.
  pose proof (ScrollZoomFacts.holding_run RenderCamera Transform inputs) as H.
  fold h in H. revert H.
  unfold ScrollZoomSubscriptions.holding, ScrollZoomSubscriptions._disable.
  destruct (ScrollZoomSubscriptions.enabled inputs).
  - intros (prevent & zoom & -> & -> & Hin). split; [reflexivity|].
    destruct (ScrollZoomSubscriptions.mouseWheelObservers h); [destruct Hin | cbn; lia].
  - intros (-> & _). now split.
Qed.
